(** * WebRelease template validator: a shallow embedding of [server/parser.py]

  The development follows the Python module top to bottom: the diagnostic
  records, the recursive-descent [ExpressionParser], the regular expressions
  used by [TemplateParser], and the four validation passes.  Python strings
  are modelled by [string]; a character is a code point below 256 and the
  character classes ([str.isspace], [str.isdigit], [str.isalnum], and the
  regex classes [\s] and [\w]) are the Unicode ones restricted to that
  range. *)

From Stdlib Require Import Ascii String List ZArith Lia Bool Sorted.
From stdpp Require Import base gmap strings pretty.
Import ListNotations.

Set Default Proof Using "Type".

(** ** Python string primitives *)

Module Py.

Definition ord (c : ascii) : N := N_of_ascii c.

(** [str.isspace] / regex [\s]. *)
Definition isspace (c : ascii) : bool :=
  let n := ord c in
  ((9 <=? n) && (n <=? 13) || (28 <=? n) && (n <=? 32)
   || (n =? 133) || (n =? 160))%N.

(** [str.isdigit]: decimal digits and the superscript digits. *)
Definition isdigit (c : ascii) : bool :=
  let n := ord c in
  ((48 <=? n) && (n <=? 57) || (n =? 178) || (n =? 179) || (n =? 185))%N.

Definition isalpha (c : ascii) : bool :=
  let n := ord c in
  ((65 <=? n) && (n <=? 90) || (97 <=? n) && (n <=? 122)
   || (n =? 170) || (n =? 181) || (n =? 186)
   || (192 <=? n) && (n <=? 214) || (216 <=? n) && (n <=? 246)
   || (248 <=? n) && (n <=? 255))%N.

Definition isnumeric (c : ascii) : bool :=
  let n := ord c in
  (isdigit c || (188 <=? n) && (n <=? 190))%N.

(** [str.isalnum]. *)
Definition isalnum (c : ascii) : bool := isalpha c || isnumeric c.

(** Regex [\w], which is also the identifier test
    [c.isalnum() or c in '_'] of the expression parser. *)
Definition isword (c : ascii) : bool := isalnum c || Ascii.eqb c "_".

Definition len (s : string) : nat := String.length s.

(** The double-quote and newline characters. *)
Definition dquote : ascii := "034"%char.
Definition newline : ascii := "010"%char.

(** [s[i]] when [i < len(s)]. *)
Definition at_ (s : string) (i : nat) : option ascii := String.get i s.

(** [s[i:j]] for non-negative [i], [j]. *)
Definition slice (s : string) (i j : nat) : string :=
  String.substring i (j - i) s.

Fixpoint lstrip (s : string) : string :=
  match s with
  | EmptyString => EmptyString
  | String c s' => if isspace c then lstrip s' else s
  end.

Fixpoint rstrip (s : string) : string :=
  match s with
  | EmptyString => EmptyString
  | String c s' =>
      match rstrip s' with
      | EmptyString => if isspace c then EmptyString else String c EmptyString
      | r => String c r
      end
  end.

(** [s.strip()]. *)
Definition strip (s : string) : string := rstrip (lstrip s).

(** [sep.join(parts)]. *)
Definition join (sep : string) (parts : list string) : string :=
  String.concat sep parts.

(** [s.split(sep)] for a one-character separator. *)
Fixpoint split (sep : ascii) (s : string) : list string :=
  match s with
  | EmptyString => [EmptyString]
  | String c s' =>
      if Ascii.eqb c sep then EmptyString :: split sep s'
      else match split sep s' with
           | h :: t => String c h :: t
           | [] => [String c EmptyString]
           end
  end.

(** Truthiness of a string. *)
Definition truthy (s : string) : bool := negb (String.eqb s "").

(** [sub in s]. *)
Fixpoint contains (sub s : string) : bool :=
  String.prefix sub s
  || match s with
     | EmptyString => false
     | String _ s' => contains sub s'
     end.

(** The scanning loop
    [while i < len(s) and p(s[i]): i += 1], returning the final [i].
    The counter starts at [len s - i], so it reaches zero only when the
    loop condition is already false. *)
Fixpoint scan_from (p : ascii -> bool) (s : string) (n i : nat) : nat :=
  match n with
  | 0 => i
  | S n' =>
      match at_ s i with
      | Some c => if p c then scan_from p s n' (S i) else i
      | None => i
      end
  end.

Definition scan (p : ascii -> bool) (s : string) (i : nat) : nat :=
  scan_from p s (len s - i) i.

(** [sorted(l, key=key, reverse=True)]: a stable sort by decreasing key. *)
Fixpoint insert_desc {A} (key : A -> nat) (x : A) (l : list A) : list A :=
  match l with
  | [] => [x]
  | y :: l' => if key y <=? key x then x :: l else y :: insert_desc key x l'
  end.

Definition sorted_desc {A} (key : A -> nat) (l : list A) : list A :=
  foldr (insert_desc key) [] l.

(** [l.sort(key=key)]: a stable sort by increasing key. *)
Fixpoint insert_asc {A} (key : A -> nat) (x : A) (l : list A) : list A :=
  match l with
  | [] => [x]
  | y :: l' => if key x <=? key y then x :: l else y :: insert_asc key x l'
  end.

Definition sort_asc {A} (key : A -> nat) (l : list A) : list A :=
  foldr (insert_asc key) [] l.

End Py.

(** ** Diagnostics *)

Record Position := mkPosition { line : nat; character : nat }.

Record Range := mkRange { start : Position; end_ : Position }.

Record Diagnostic := mkDiagnostic {
range : Range;
severity : nat;  (* 1=Error, 2=Warning, 3=Information, 4=Hint *)
message : string;
code : option string
}.

(** ** The expression parser *)

Module ExpressionParser.

Definition BUILT_IN_FUNCTIONS : list string :=
  ["pageTitle"; "currentTime"; "formatDate"; "isNull"; "isNotNull"; "isNumber";
   "number"; "string"; "divide"; "setScale"; "length"; "substring"; "indexOf";
   "contains"; "startsWith"; "endsWith"; "toUpperCase"; "toLowerCase"; "trim";
   "replace"; "split"; "join"; "round"; "floor"; "ceil"; "abs"; "min"; "max";
   "unsplit"; "generatePrice"; "generateBenefit"; "generateBakuage"].

Definition OPERATORS : list string :=
  ["=="; "!="; "<"; "<="; ">"; ">="; "&&"; "||"; "!"; "+"; "-"; "*"; "/"; "%"].

(** Functions that can only be called on single elements (not lists). *)
Definition SINGLE_ELEMENT_FUNCTIONS : gset string :=
  {[ "selectedValue"; "selectedName"; "selected" ]}.

(** The parser object: the attributes set by [__init__]. *)
Record t := mk {
  expression : string;
  pos : nat;
  list_elements : gset string;
  loop_variables : gset string;
  errors : list (nat * string)   (* (position, error_message) *)
}.

Definition __init__ (expression : string)
    (list_elements loop_variables : gset string) : t :=
  {| expression := Py.strip expression;
     pos := 0;
     list_elements := list_elements;
     loop_variables := loop_variables;
     errors := [] |}.

Definition set_pos (p : nat) (s : t) : t :=
  {| expression := expression s; pos := p;
     list_elements := list_elements s;
     loop_variables := loop_variables s;
     errors := errors s |}.

Definition add_error (e : nat * string) (s : t) : t :=
  {| expression := expression s; pos := pos s;
     list_elements := list_elements s;
     loop_variables := loop_variables s;
     errors := errors s ++ [e] |}.

(** A method call either returns, raises [ValueError], or exhausts the
    recursion budget of the model. *)
Inductive outcome (A : Type) : Type :=
| Return (a : A) (s : t)
| Raise (msg : string) (s : t)
| Diverge.
Arguments Return {A} a s.
Arguments Raise {A} msg s.
Arguments Diverge {A}.

Definition M (A : Type) : Type := t -> outcome A.

Definition ret {A} (a : A) : M A := fun s => Return a s.
Definition raise {A} (msg : string) : M A := fun s => Raise msg s.
Definition diverge {A} : M A := fun _ => Diverge.
Definition bind {A B} (m : M A) (k : A -> M B) : M B :=
  fun s => match m s with
           | Return a s' => k a s'
           | Raise msg s' => Raise msg s'
           | Diverge => Diverge
           end.
Definition get : M t := fun s => Return s s.
Definition modify (f : t -> t) : M unit := fun s => Return tt (f s).

Declare Scope parser_scope.
Delimit Scope parser_scope with parser.
Notation "x <- m ;; k" := (bind m (fun x => k))
  (at level 100, m at next level, right associativity) : parser_scope.
Notation "m ;; k" := (bind m (fun _ => k))
  (at level 100, right associativity) : parser_scope.
Local Open Scope parser_scope.

(** [while cond(): body()]; the counter bounds the number of iterations. *)
Fixpoint while (n : nat) (cond : M bool) (body : M unit) : M unit :=
  match n with
  | 0 => diverge
  | S n' => b <- cond ;; if b then body ;; while n' cond body else ret tt
  end.

Definition _skip_whitespace : M unit :=
  modify (fun s => set_pos (Py.scan Py.isspace (expression s) (pos s)) s).

Definition _match (ch : ascii) : M bool :=
  _skip_whitespace ;;
  s <- get ;;
  match Py.at_ (expression s) (pos s) with
  | Some c =>
      if Ascii.eqb c ch
      then modify (set_pos (pos s + 1)) ;; ret true
      else ret false
  | None => ret false
  end.

Definition _match_operator (op : string) : M bool :=
  _skip_whitespace ;;
  s <- get ;;
  if (pos s <? Py.len (expression s))
     && String.eqb (Py.slice (expression s) (pos s) (pos s + Py.len op)) op
  then modify (set_pos (pos s + Py.len op)) ;; ret true
  else ret false.

Fixpoint first_matching (ops : list string) : M bool :=
  match ops with
  | [] => ret false
  | op :: ops' =>
      b <- _match_operator op ;; if b then ret true else first_matching ops'
  end.

Definition _match_any_operator (ops : list string) : M bool :=
  first_matching (Py.sorted_desc Py.len ops).   (* Match longest first *)

Definition _expect (ch : ascii) : M unit :=
  _skip_whitespace ;;
  s <- get ;;
  match Py.at_ (expression s) (pos s) with
  | Some c =>
      if Ascii.eqb c ch then modify (set_pos (pos s + 1))
      else raise ("Expected '" +:+ String ch "" +:+ "' at position "
                  +:+ pretty (pos s))
  | None =>
      raise ("Expected '" +:+ String ch "" +:+ "' at position "
             +:+ pretty (pos s))
  end.

Definition _parse_identifier : M string :=
  _skip_whitespace ;;
  s <- get ;;
  match Py.at_ (expression s) (pos s) with
  | Some c =>
      if Py.isword c then
        let start := pos s in
        let stop := Py.scan Py.isword (expression s) start in
        modify (set_pos stop) ;; ret (Py.slice (expression s) start stop)
      else raise ("Expected identifier at position " +:+ pretty (pos s))
  | None => raise ("Expected identifier at position " +:+ pretty (pos s))
  end.

(** The body loop of [_parse_string_literal]: a backslash that is not the
    last character skips two characters, anything else one. *)
Fixpoint string_body (e : string) (n i : nat) : nat :=
  match n with
  | 0 => i
  | S n' =>
      match Py.at_ e i with
      | Some c =>
          if Ascii.eqb c Py.dquote then i
          else if Ascii.eqb c "\" && (i + 1 <? Py.len e)
               then string_body e n' (i + 2)
               else string_body e n' (i + 1)
      | None => i
      end
  end.

Definition _parse_string_literal : M unit :=
  _expect Py.dquote ;;
  modify (fun s =>
    set_pos (string_body (expression s)
               (Py.len (expression s) - pos s) (pos s)) s) ;;
  _expect Py.dquote.

Definition _parse_number_literal : M unit :=
  modify (fun s =>
    set_pos (Py.scan (fun c => Py.isdigit c || Ascii.eqb c ".")
               (expression s) (pos s)) s).

(** The prefixes [parts[:i+1]] joined by dots, for [i] in
    [range(len(parts))]. *)
Definition prefixes (parts : list string) : list string :=
  map (fun i => Py.join "." (take (i + 1) parts)) (seq 0 (length parts)).

Definition _check_list_function_call (element_path func_name : string)
  : M unit :=
  s <- get ;;
  if bool_decide (element_path ∈ list_elements s) then
    modify (add_error
      (pos s,
       "Cannot call '" +:+ func_name +:+ "()' on list element '"
       +:+ element_path +:+ "'. " +:+ "Use a loop variable instead."))
  else
    match List.find (fun prefix => bool_decide (prefix ∈ list_elements s))
            (prefixes (Py.split "." element_path)) with
    | Some prefix =>
        modify (add_error
          (pos s,
           "Cannot call '" +:+ func_name +:+ "()' on list element '"
           +:+ prefix +:+ "'. "
           +:+ "Use a loop variable to iterate over the list first."))
    | None => ret tt
    end.

(** The check made in [_parse_postfix_expression] once the closing
    parenthesis of a call has been consumed: [Some path] when
    [_check_list_function_call] is invoked, with its first argument. *)
Definition call_receiver (element_chain : list string) : option string :=
  match last element_chain with
  | Some func_name =>
      if Py.truthy func_name
         && bool_decide (func_name ∈ SINGLE_ELEMENT_FUNCTIONS)
      then if 1 <? length element_chain
           then Some (Py.join "." (removelast element_chain))
           else None
      else None
  | None => None
  end.

Definition check_call (element_chain : list string) : M unit :=
  match call_receiver element_chain, last element_chain with
  | Some element_path, Some func_name =>
      _check_list_function_call element_path func_name
  | _, _ => ret tt
  end.

Fixpoint _parse_expression (fuel : nat) : M unit :=
  match fuel with
  | 0 => diverge
  | S f => _parse_or_expression f
  end

with _parse_or_expression (fuel : nat) : M unit :=
  match fuel with
  | 0 => diverge
  | S f =>
      _parse_and_expression f ;;
      while f (_match_operator "||") (_parse_and_expression f)
  end

with _parse_and_expression (fuel : nat) : M unit :=
  match fuel with
  | 0 => diverge
  | S f =>
      _parse_comparison_expression f ;;
      while f (_match_operator "&&") (_parse_comparison_expression f)
  end

with _parse_comparison_expression (fuel : nat) : M unit :=
  match fuel with
  | 0 => diverge
  | S f =>
      _parse_additive_expression f ;;
      while f (_match_any_operator ["=="; "!="; "<"; "<="; ">"; ">="])
        (_parse_additive_expression f)
  end

with _parse_additive_expression (fuel : nat) : M unit :=
  match fuel with
  | 0 => diverge
  | S f =>
      _parse_multiplicative_expression f ;;
      while f (_match_any_operator ["+"; "-"])
        (_parse_multiplicative_expression f)
  end

with _parse_multiplicative_expression (fuel : nat) : M unit :=
  match fuel with
  | 0 => diverge
  | S f =>
      _parse_unary_expression f ;;
      while f (_match_any_operator ["*"; "/"; "%"])
        (_parse_unary_expression f)
  end

with _parse_unary_expression (fuel : nat) : M unit :=
  match fuel with
  | 0 => diverge
  | S f =>
      b <- _match_operator "!" ;;
      if b then _parse_unary_expression f
      else _parse_postfix_expression f ;; ret tt
  end

with _parse_postfix_expression (fuel : nat) : M (list string) :=
  match fuel with
  | 0 => diverge
  | S f =>
      base_element <- _parse_primary_expression f ;;
      postfix_loop f
        match base_element with
        | Some b => if Py.truthy b then [b] else []
        | None => []
        end
  end

(** The [while True] loop of [_parse_postfix_expression]. *)
with postfix_loop (fuel : nat) (element_chain : list string)
  : M (list string) :=
  match fuel with
  | 0 => diverge
  | S f =>
      call <- _match "(" ;;
      if call then
        (* Function call *)
        _parse_function_arguments f ;;
        _expect ")" ;;
        check_call element_chain ;;
        postfix_loop f []   (* Reset after function call *)
      else
        index <- _match "[" ;;
        if index then
          (* Array access *)
          _parse_expression f ;;
          _expect "]" ;;
          postfix_loop f []
        else
          dot <- _match "." ;;
          if dot then
            (* Member access *)
            member <- _parse_identifier ;;
            postfix_loop f
              (if Py.truthy member then element_chain ++ [member]
               else element_chain)
          else ret element_chain
  end

with _parse_primary_expression (fuel : nat) : M (option string) :=
  match fuel with
  | 0 => diverge
  | S f =>
      _skip_whitespace ;;
      s <- get ;;
      match Py.at_ (expression s) (pos s) with
      | None => raise "Unexpected end of expression"
      | Some c =>
          if Ascii.eqb c Py.dquote then _parse_string_literal ;; ret None
          else if Py.isdigit c then _parse_number_literal ;; ret None
          else if Ascii.eqb c "(" then
            _match "(" ;; _parse_expression f ;; _expect ")" ;; ret None
          else id <- _parse_identifier ;; ret (Some id)
      end
  end

with _parse_function_arguments (fuel : nat) : M unit :=
  match fuel with
  | 0 => diverge
  | S f =>
      _skip_whitespace ;;
      s <- get ;;
      match Py.at_ (expression s) (pos s) with
      | Some c =>
          if negb (Ascii.eqb c ")") then
            _parse_expression f ;;
            while f (_match ",") (_parse_expression f)
          else ret tt
      | None => ret tt
      end
  end.

(** A recursion budget that no expression exhausts (see
    [parse_expression_returns] below). *)
Definition budget (e : string) : nat := 20 * Py.len e + 20.

(** [parse]: [(is_valid, error_message)] together with the parser object
    as the call leaves it; [None] only if the budget was exhausted. *)
Definition parse (p : t) : option (bool * option string * t) :=
  if negb (Py.truthy (expression p)) then Some (true, None, p)
  else
    match _parse_expression (budget (expression p)) p with
    | Return _ p' =>
        match errors p' with
        | e :: _ => Some (false, Some (snd e), p')
        | [] => Some (true, None, p')
        end
    | Raise msg p' => Some (false, Some msg, p')
    | Diverge => None
    end.

Definition get_errors (p : t) : list (nat * string) := errors p.

End ExpressionParser.

(** ** The regular expressions of the template parser

  Each pattern of the source is rendered as a function that tries to match
  at one offset.  None of the patterns needs backtracking: every greedy
  run is followed by a character outside the class of the run, so the
  first attempt at an offset decides the match. *)

Module Re.

(** A match object: [start()], [end()] and, for each group, where it
    starts and what it captured ([None] if it did not take part). *)
Record Match := mkMatch {
  m_start : nat;
  m_end : nat;
  m_groups : list (option (nat * string))
}.

(** [m.group(k)], [k >= 1]. *)
Definition group (m : Match) (k : nat) : option string :=
  match m_groups m !! (k - 1) with
  | Some (Some (_, g)) => Some g
  | _ => None
  end.

(** [m.group(k)] for a group that takes part in every match. *)
Definition group_str (m : Match) (k : nat) : string :=
  default EmptyString (group m k).

(** [m.start(k)], which is [-1] for a group that did not take part. *)
Definition start_of (m : Match) (k : nat) : Z :=
  match m_groups m !! (k - 1) with
  | Some (Some (i, _)) => Z.of_nat i
  | _ => (-1)%Z
  end.

Definition pattern : Type := string -> nat -> option Match.

(** A literal at offset [i]. *)
Definition lit_at (lit s : string) (i : nat) : bool :=
  String.eqb (Py.slice s i (i + Py.len lit)) lit.

Definition is_char (c : ascii) (s : string) (i : nat) : bool :=
  match Py.at_ s i with
  | Some x => Ascii.eqb x c
  | None => false
  end.

Definition other_than (c : ascii) : ascii -> bool :=
  fun x => negb (Ascii.eqb x c).

Definition is_quote (x : ascii) : bool :=
  Ascii.eqb x "'" || Ascii.eqb x Py.dquote.

(** [re.finditer]: leftmost matches, each search resuming where the
    previous match ended.  Every pattern below consumes at least two
    characters, so the counter [len s + 1 - i] is never the reason for
    stopping. *)
Fixpoint finditer_from (p : pattern) (s : string) (n i : nat) : list Match :=
  match n with
  | 0 => []
  | S n' =>
      match p s i with
      | Some m => m :: finditer_from p s n' (m_end m)
      | None => finditer_from p s n' (S i)
      end
  end.

Definition finditer (p : pattern) (s : string) : list Match :=
  finditer_from p s (Py.len s + 1) 0.

(** [re.search]: the leftmost match, if any. *)
Fixpoint search_from (p : pattern) (s : string) (n i : nat) : option Match :=
  match n with
  | 0 => None
  | S n' =>
      match p s i with
      | Some m => Some m
      | None => search_from p s n' (S i)
      end
  end.

Definition search (p : pattern) (s : string) : option Match :=
  search_from p s (Py.len s + 1) 0.

(** The pattern of [_collect_list_elements]: [<wr-for], one or more
    whitespace characters, group 1 (a run of characters other than [>]),
    then [>]. *)
Definition wr_for_tag : pattern := fun s i =>
  if lit_at "<wr-for" s i then
    let a := i + 7 in
    let b := Py.scan Py.isspace s a in
    if a <? b then
      let c := Py.scan (other_than ">") s b in
      if is_char ">" s c
      then Some (mkMatch i (c + 1) [Some (b, Py.slice s b c)])
      else None
    else None
  else None.

(** The attribute searches of [_collect_list_elements]: [name=], a quote
    character (single or double), group 1 (one or more characters that are
    not quotes), and a quote character again; [name] is [list] or
    [variable]. *)
Definition quoted_attr (name : string) : pattern := fun s i =>
  if lit_at (name +:+ "=") s i then
    let q := i + Py.len name + 1 in
    match Py.at_ s q with
    | Some x =>
        if is_quote x then
          let a := q + 1 in
          let b := Py.scan (fun c => negb (is_quote c)) s a in
          if a <? b then
            match Py.at_ s b with
            | Some y =>
                if is_quote y
                then Some (mkMatch i (b + 1) [Some (a, Py.slice s a b)])
                else None
            | None => None
            end
          else None
        else None
    | None => None
    end
  else None.

(** The pattern of [_validate_expressions]: [%], group 1 (a run of
    characters other than [%]), then [%]. *)
Definition percent_span : pattern := fun s i =>
  if is_char "%" s i then
    let a := i + 1 in
    let b := Py.scan (other_than "%") s a in
    if is_char "%" s b
    then Some (mkMatch i (b + 1) [Some (a, Py.slice s a b)])
    else None
  else None.

(** The pattern of [_validate_tags]: [<wr-], group 1 (one or more word
    characters), group 2 (a run of characters other than [>]), then [>]. *)
Definition wr_tag : pattern := fun s i =>
  if lit_at "<wr-" s i then
    let a := i + 4 in
    let b := Py.scan Py.isword s a in
    if a <? b then
      let c := Py.scan (other_than ">") s b in
      if is_char ">" s c
      then Some (mkMatch i (c + 1)
                   [Some (a, Py.slice s a b); Some (b, Py.slice s b c)])
      else None
    else None
  else None.

(** One alternative of the attribute pattern: a group of one or more word
    characters, [=], the quote [q], a group of characters other than [q],
    and [q] again. *)
Definition attr_with (q : ascii) (s : string) (i : nat)
  : option (nat * (nat * string) * (nat * string)) :=
  let a := Py.scan Py.isword s i in
  if (i <? a) && is_char "=" s a && is_char q s (a + 1) then
    let b := Py.scan (other_than q) s (a + 2) in
    if is_char q s b
    then Some (b + 1, (i, Py.slice s i a), (a + 2, Py.slice s (a + 2) b))
    else None
  else None.

(** The attribute pattern: the alternative with single quotes (groups 1
    and 2), then the one with double quotes (groups 3 and 4). *)
Definition attr : pattern := fun s i =>
  match attr_with "'" s i with
  | Some (e, name, value) =>
      Some (mkMatch i e [Some name; Some value; None; None])
  | None =>
      match attr_with Py.dquote s i with
      | Some (e, name, value) =>
          Some (mkMatch i e [None; None; Some name; Some value])
      | None => None
      end
  end.

(** The opening pattern of [_validate_tag_closures]: [<wr-], group 1 (one
    or more word characters), then a whitespace character or [>]. *)
Definition wr_open : pattern := fun s i =>
  if lit_at "<wr-" s i then
    let a := i + 4 in
    let b := Py.scan Py.isword s a in
    if a <? b then
      match Py.at_ s b with
      | Some x =>
          if Py.isspace x || Ascii.eqb x ">"
          then Some (mkMatch i (b + 1) [Some (a, Py.slice s a b)])
          else None
      | None => None
      end
    else None
  else None.

(** The closing pattern of [_validate_tag_closures]: [</wr-], group 1
    (one or more word characters), then [>]. *)
Definition wr_close : pattern := fun s i =>
  if lit_at "</wr-" s i then
    let a := i + 5 in
    let b := Py.scan Py.isword s a in
    if (a <? b) && is_char ">" s b
    then Some (mkMatch i (b + 1) [Some (a, Py.slice s a b)])
    else None
  else None.

End Re.

(** ** The template parser *)

Module TemplateParser.

(** Valid WebRelease tags. *)
Definition VALID_TAGS : gset string :=
  {[ "wr-if"; "wr-then"; "wr-else"; "wr-switch"; "wr-case"; "wr-default";
     "wr-for"; "wr-break"; "wr-variable"; "wr-append"; "wr-clear";
     "wr-return"; "wr-error"; "wr-conditional"; "wr-cond"; "wr-comment" ]}.

(** Tag attributes. *)
Definition TAG_ATTRIBUTES : gmap string (list string) :=
  list_to_map
    [ ("wr-if", ["condition"]);
      ("wr-then", []);
      ("wr-else", []);
      ("wr-switch", ["value"]);
      ("wr-case", ["value"]);
      ("wr-default", []);
      ("wr-for", ["list"; "string"; "times"; "variable"; "count"; "index"]);
      ("wr-break", ["condition"]);
      ("wr-variable", ["name"; "value"]);
      ("wr-append", ["name"; "value"]);
      ("wr-clear", ["name"]);
      ("wr-return", ["value"]);
      ("wr-error", ["condition"; "message"]);
      ("wr-conditional", ["condition"]);
      ("wr-cond", ["condition"]);
      ("wr-comment", []) ].

(** Tags that don't require closing tags (or have optional closing). *)
Definition NO_CLOSE_TAGS : gset string :=
  {[ "wr-then"; "wr-else"; "wr-case"; "wr-default"; "wr-variable";
     "wr-append"; "wr-clear"; "wr-break"; "wr-return"; "wr-error";
     "wr-cond" ]}.

(** The parser object. *)
Record t := mk {
  content : string;
  diagnostics : list Diagnostic;
  list_elements : gset string;
  loop_variables : gmap string string
}.

Definition __init__ (content : string) : t :=
  {| content := content; diagnostics := [];
     list_elements := ∅; loop_variables := ∅ |}.

(** [self.diagnostics.append(d)] *)
Definition append (d : Diagnostic) (self : t) : t :=
  {| content := content self;
     diagnostics := diagnostics self ++ [d];
     list_elements := list_elements self;
     loop_variables := loop_variables self |}.

Definition add_list_element (e : string) (self : t) : t :=
  {| content := content self;
     diagnostics := diagnostics self;
     list_elements := {[ e ]} ∪ list_elements self;
     loop_variables := loop_variables self |}.

Definition set_loop_variable (v e : string) (self : t) : t :=
  {| content := content self;
     diagnostics := diagnostics self;
     list_elements := list_elements self;
     loop_variables := <[ v := e ]> (loop_variables self) |}.

(** A [for] loop whose body may fail to return. *)
Fixpoint for_each {A S : Type} (body : S -> A -> option S) (l : list A)
    (s : S) : option S :=
  match l with
  | [] => Some s
  | x :: l' => s' ← body s x; for_each body l' s'
  end.

(** Line and column of an offset; an offset beyond the document is
    clamped and a negative one counts no character. *)
Definition _get_line_column (self : t) (pos : Z) : nat * nat :=
  fold_left
    (fun '(line, column) c =>
       if Ascii.eqb c Py.newline then (line + 1, 0) else (line, column + 1))
    (take (Z.to_nat (Z.min pos (Z.of_nat (Py.len (content self)))))
       (list_ascii_of_string (content self)))
    (0, 0).

(** The diagnostic built at every site of the source: it starts at the
    line and column of [pos] and spans [width] columns. *)
Definition diagnostic_at (self : t) (pos : Z) (width severity : nat)
    (message code : string) : Diagnostic :=
  let '(line, column) := _get_line_column self pos in
  {| range := {| start := mkPosition line column;
                 end_ := mkPosition line (column + width) |};
     severity := severity;
     message := message;
     code := Some code |}.

(** Collect all list elements from wr-for tags. *)
Definition _collect_list_elements (self : t) : t :=
  fold_left
    (fun self m =>
       let attributes_str := Re.group_str m 1 in
       (* Extract list attribute *)
       let list_match := Re.search (Re.quoted_attr "list") attributes_str in
       let self :=
         match list_match with
         | Some lm => add_list_element (Re.group_str lm 1) self
         | None => self
         end in
       (* Extract variable attribute (loop variable) *)
       let var_match :=
         Re.search (Re.quoted_attr "variable") attributes_str in
       match var_match, list_match with
       | Some vm, Some lm =>
           set_loop_variable (Re.group_str vm 1) (Re.group_str lm 1) self
       | _, _ => self
       end)
    (Re.finditer Re.wr_for_tag (content self)) self.

(** [f"...{error_msg}"] for an optional message. *)
Definition fmt (error_msg : option string) : string :=
  default "None" error_msg.

(** The body of the loop of [_validate_expressions]. *)
Definition validate_expression (self : t) (m : Re.Match) : option t :=
  let expression := Re.group_str m 1 in
  let start_pos := Z.of_nat (Re.m_start m) in
  (* Skip %% (escaped percent) *)
  if String.eqb expression "" then Some self
  else
    let parser :=
      ExpressionParser.__init__ expression (list_elements self)
        (dom (loop_variables self)) in
    '(is_valid, error_msg, parser) ← ExpressionParser.parse parser;
    let self :=
      if negb is_valid
      then append (diagnostic_at self start_pos (Py.len expression + 2) 1
                     ("Expression error: " +:+ fmt error_msg)
                     "expr-error") self
      else self in
    (* Check for additional errors from the parser *)
    Some (fold_left
            (fun self '(error_pos, error_msg) =>
               append (diagnostic_at self start_pos (Py.len expression + 2) 1
                         error_msg "list-function-error") self)
            (ExpressionParser.get_errors parser) self).

(** Validate all expressions in the template. *)
Definition _validate_expressions (self : t) : option t :=
  for_each validate_expression
    (Re.finditer Re.percent_span (content self)) self.

(** [(attr_name, attr_value)] of an attribute match: groups 1 and 2 if
    group 1 is truthy (the single quote pattern matched), else groups 3
    and 4. *)
Definition attribute_of (m : Re.Match) : string * string :=
  if match Re.group m 1 with Some g => Py.truthy g | None => false end
  then (Re.group_str m 1, Re.group_str m 2)
  else (Re.group_str m 3, Re.group_str m 4).

(** The body of the loop of [_validate_tag_attributes].  (The source also
    keeps a set [found_attrs] that it never reads.) *)
Definition validate_attribute (tag_name : string) (start_pos : nat)
    (self : t) (m : Re.Match) : option t :=
  let '(attr_name, attr_value) := attribute_of m in
  (* Check if attribute is valid for this tag *)
  let valid_attrs := default [] (TAG_ATTRIBUTES !! tag_name) in
  let self :=
    if bool_decide (attr_name ∈ valid_attrs) then self
    else append (diagnostic_at self
                   (Z.of_nat start_pos + Z.of_nat (Re.m_start m))
                   (Py.len attr_name) 2
                   ("Unknown attribute '" +:+ attr_name +:+ "' for tag '"
                    +:+ tag_name +:+ "'")
                   "unknown-attribute") self in
  (* Validate attribute value (if it's a condition or expression) *)
  if String.eqb attr_name "condition" && Py.truthy attr_value then
    let parser :=
      ExpressionParser.__init__ attr_value (list_elements self)
        (dom (loop_variables self)) in
    '(is_valid, error_msg, parser) ← ExpressionParser.parse parser;
    let value_pos := (Z.of_nat start_pos + Re.start_of m 2)%Z in
    let self :=
      if negb is_valid
      then append (diagnostic_at self value_pos (Py.len attr_value) 1
                     ("Condition syntax error: " +:+ fmt error_msg)
                     "condition-syntax-error") self
      else self in
    (* Check for list function errors *)
    Some (fold_left
            (fun self '(error_pos, error_msg) =>
               append (diagnostic_at self value_pos (Py.len attr_value) 1
                         error_msg "list-function-error") self)
            (ExpressionParser.get_errors parser) self)
  else Some self.

(** Validate tag attributes. *)
Definition _validate_tag_attributes (self : t) (tag_name : string)
    (attributes_str : string) (start_pos : nat) : option t :=
  for_each (validate_attribute tag_name start_pos)
    (Re.finditer Re.attr attributes_str) self.

(** The body of the loop of [_validate_tags]. *)
Definition validate_tag (self : t) (m : Re.Match) : option t :=
  let tag_name := "wr-" +:+ Re.group_str m 1 in
  let attributes_str := Re.group_str m 2 in
  let start_pos := Re.m_start m in
  if bool_decide (tag_name ∈ VALID_TAGS) then
    (* Validate attributes *)
    _validate_tag_attributes self tag_name attributes_str start_pos
  else
    Some (append (diagnostic_at self (Z.of_nat start_pos)
                    (Py.len tag_name + 2) 1
                    ("Unknown tag: " +:+ tag_name) "unknown-tag") self).

(** Validate all WebRelease tags. *)
Definition _validate_tags (self : t) : option t :=
  for_each validate_tag (Re.finditer Re.wr_tag (content self)) self.

Inductive event_type := open | close.

Definition event : Type := event_type * string * nat.

(** Collect all tag events (open and close), sorted by position. *)
Definition tag_events (self : t) : list event :=
  Py.sort_asc (fun e : event => e.2)
    (map (fun m => (open, "wr-" +:+ Re.group_str m 1, Re.m_start m))
       (Re.finditer Re.wr_open (content self))
     ++ map (fun m => (close, "wr-" +:+ Re.group_str m 1, Re.m_start m))
         (Re.finditer Re.wr_close (content self))).

(** [for i in range(n - 1, -1, -1): if tag_stack[i][0] == tag_name: ...]:
    the index at which the search from the top stops. *)
Fixpoint find_from_top (tag_name : string) (tag_stack : list (string * nat))
    (n : nat) : option nat :=
  match n with
  | 0 => None
  | S i =>
      match tag_stack !! i with
      | Some (name, _) =>
          if String.eqb name tag_name then Some i
          else find_from_top tag_name tag_stack i
      | None => find_from_top tag_name tag_stack i
      end
  end.

(** One iteration of the stack-based validation. *)
Definition closure_step (st : list (string * nat) * t) (e : event)
  : list (string * nat) * t :=
  let '(tag_stack, self) := st in
  let '(event_type, tag_name, pos) := e in
  match event_type with
  | open =>
      (* Don't push tags that don't need closing *)
      if bool_decide (tag_name ∈ NO_CLOSE_TAGS) then (tag_stack, self)
      else (tag_stack ++ [(tag_name, pos)], self)
  | close =>
      (* Skip closing tags that don't need opening *)
      if bool_decide (tag_name ∈ NO_CLOSE_TAGS) then (tag_stack, self)
      else
        (* Find matching opening tag in stack (search from top) *)
        match find_from_top tag_name tag_stack (length tag_stack) with
        | Some i => (delete i tag_stack, self)
        | None =>
            (tag_stack,
             append (diagnostic_at self (Z.of_nat pos)
                       (Py.len tag_name + 3) 1
                       ("Closing tag '" +:+ tag_name
                        +:+ "' without matching opening tag")
                       "unmatched-closing-tag") self)
        end
  end.

(** Check for unclosed tags. *)
Definition report_unclosed (tag_stack : list (string * nat)) (self : t) : t :=
  fold_left
    (fun self '(tag_name, start_pos) =>
       append (diagnostic_at self (Z.of_nat start_pos)
                 (Py.len tag_name + 2) 1
                 ("Unclosed tag '" +:+ tag_name +:+ "'")
                 "unclosed-tag") self)
    tag_stack self.

(** Validate that tags are properly closed. *)
Definition _validate_tag_closures (self : t) : t :=
  let '(tag_stack, self) :=
    fold_left closure_step (tag_events self) ([], self) in
  report_unclosed tag_stack self.

(** Parse the template and return diagnostics (with the parser object as
    the call leaves it). *)
Definition parse (self : t) : option (list Diagnostic * t) :=
  let self :=
    {| content := content self; diagnostics := [];
       list_elements := ∅; loop_variables := ∅ |} in
  (* First pass: collect list elements from wr-for tags *)
  let self := _collect_list_elements self in
  (* Find all expressions with list element validation *)
  self ← _validate_expressions self;
  (* Find all tags *)
  self ← _validate_tags self;
  (* Find all tag closures *)
  let self := _validate_tag_closures self in
  Some (diagnostics self, self).

End TemplateParser.

(** * Properties *)

(** ** Every expression parse returns *)

Section Termination.
Import ExpressionParser.
Local Open Scope parser_scope.

(** Characters left to read. *)
Definition remaining (p : t) : nat := Py.len (expression p) - pos p.

(** The parser only moves forward over a fixed expression. *)
Definition extends (p p' : t) : Prop :=
  expression p' = expression p ∧ pos p ≤ pos p'.

Lemma extends_refl p : extends p p.
Proof. split; [reflexivity | lia]. Qed.

Lemma extends_trans p q r : extends p q → extends q r → extends p r.
Proof. intros [E1 L1] [E2 L2]. split; [congruence | lia]. Qed.

Lemma extends_remaining p p' : extends p p' → remaining p' ≤ remaining p.
Proof. intros [E L]. unfold remaining. rewrite E. lia. Qed.

Lemma scan_from_ge f s n i : i ≤ Py.scan_from f s n i.
Proof.
  revert i. induction n as [|n IH]; intros i; simpl; [lia|].
  destruct (Py.at_ s i); [|lia].
  destruct (f a); [|lia]. specialize (IH (S i)). lia.
Qed.

Lemma scan_ge f s i : i ≤ Py.scan f s i.
Proof. apply scan_from_ge. Qed.

Lemma string_body_ge e n i : i ≤ string_body e n i.
Proof.
  revert i. induction n as [|n IH]; intros i; simpl; [lia|].
  destruct (Py.at_ e i); [|lia].
  destruct (Ascii.eqb a Py.dquote); [lia|].
  destruct (_ && _); [specialize (IH (i + 2)) | specialize (IH (i + 1))]; lia.
Qed.

Lemma at_Some_lt s i c : Py.at_ s i = Some c → i < Py.len s.
Proof.
  unfold Py.at_, Py.len. revert i.
  induction s as [|a s IH]; intros [|i]; simpl; try discriminate; try lia.
  intros H. apply IH in H. lia.
Qed.

(** A method that never exhausts the budget and only moves forward. *)
Definition steady {A} (m : M A) : Prop :=
  ∀ p, match m p with
       | Return _ p' => extends p p'
       | Raise _ _ => True
       | Diverge => False
       end.

(** A loop condition: it returns, and consumes input when it holds. *)
Definition consuming (m : M bool) : Prop :=
  ∀ p, match m p with
       | Return b p' =>
           extends p p' ∧ (b = true → remaining p' < remaining p)
       | _ => False
       end.

Lemma steady_ret {A} (a : A) : steady (ret a).
Proof. intros p. apply extends_refl. Qed.

Lemma steady_raise {A} msg : steady (@raise A msg).
Proof. intros p. exact I. Qed.

Lemma steady_bind {A B} (m : M A) (k : A → M B) :
  steady m → (∀ a, steady (k a)) → steady (bind m k).
Proof.
  intros Hm Hk p. unfold bind. specialize (Hm p).
  destruct (m p) as [a p'| |]; [|exact I|exact Hm].
  specialize (Hk a p'). destruct (k a p'); [|exact I|exact Hk].
  eapply extends_trans; eassumption.
Qed.

Lemma steady_set_pos (f : t → nat) :
  (∀ p, pos p ≤ f p) → steady (modify (fun s => set_pos (f s) s)).
Proof. intros H p. split; [reflexivity | apply H]. Qed.

Lemma steady_skip_whitespace : steady _skip_whitespace.
Proof. apply steady_set_pos. intros p. apply scan_ge. Qed.

Lemma steady_consuming m : consuming m → steady m.
Proof. intros H p. specialize (H p). destruct (m p); tauto. Qed.

Lemma consuming_match ch : consuming (_match ch).
Proof.
  intros p. unfold _match, _skip_whitespace, bind, modify, get, ret.
  pose proof (scan_ge Py.isspace (expression p) (pos p)) as Hq.
  cbn [expression pos set_pos].
  destruct (Py.at_ _ _) as [c|] eqn:E;
    [destruct (Ascii.eqb c ch)|]; unfold extends, remaining; simpl;
    try (split; [split; [reflexivity | lia] | try discriminate]).
  intros _. apply at_Some_lt in E. lia.
Qed.

(** A character seen at the cursor is matched without moving first. *)
Lemma match_current p c :
  Py.at_ (expression p) (pos p) = Some c → Py.isspace c = false →
  _match c p = Return true (set_pos (pos p + 1) p).
Proof.
  intros Hat Hsp. unfold _match, _skip_whitespace, bind, modify, get, ret.
  assert (Py.scan Py.isspace (expression p) (pos p) = pos p) as ->.
  { unfold Py.scan. destruct (Py.len _ - _); simpl; [reflexivity|].
    rewrite Hat, Hsp. reflexivity. }
  cbn [expression pos set_pos]. rewrite Hat, Ascii.eqb_refl.
  destruct p; reflexivity.
Qed.

Lemma consuming_match_operator op :
  0 < Py.len op → consuming (_match_operator op).
Proof.
  intros Hop p. unfold _match_operator, _skip_whitespace, bind, modify, get, ret.
  pose proof (scan_ge Py.isspace (expression p) (pos p)) as Hq.
  cbn [expression pos set_pos].
  destruct (_ <? _) eqn:E; simpl;
    [destruct (String.eqb _ _)|]; unfold extends, remaining; simpl;
    try (split; [split; [reflexivity | lia] | try discriminate]).
  intros _. apply Nat.ltb_lt in E. lia.
Qed.

Lemma consuming_first_matching ops :
  Forall (fun op => 0 < Py.len op) ops → consuming (first_matching ops).
Proof.
  induction 1 as [|op ops Hop _ IH]; intros p; simpl.
  - split; [apply extends_refl | discriminate].
  - unfold bind. pose proof (consuming_match_operator op Hop p) as H.
    destruct (_match_operator op p) as [b p'| |]; try exact H.
    destruct H as [He Hb]. destruct b; [exact (conj He Hb)|].
    specialize (IH p'). destruct (first_matching ops p') as [b p''| |];
      try exact IH.
    destruct IH as [He' Hb']. split; [eapply extends_trans; eassumption|].
    intros Hb''. specialize (Hb' Hb''). apply extends_remaining in He. lia.
Qed.

Lemma Forall_insert_desc {A} (P : A → Prop) key x l :
  P x → Forall P l → Forall P (Py.insert_desc key x l).
Proof.
  intros Hx. induction 1 as [|y l Hy Hl IH]; simpl.
  - repeat constructor; assumption.
  - destruct (_ <=? _); repeat constructor; assumption.
Qed.

Lemma Forall_sorted_desc {A} (P : A → Prop) key l :
  Forall P l → Forall P (Py.sorted_desc key l).
Proof.
  induction 1; simpl; [constructor | apply Forall_insert_desc; assumption].
Qed.

Lemma consuming_match_any_operator ops :
  Forall (fun op => 0 < Py.len op) ops → consuming (_match_any_operator ops).
Proof.
  intros H. apply consuming_first_matching, Forall_sorted_desc, H.
Qed.

Lemma steady_expect ch : steady (_expect ch).
Proof.
  unfold _expect. apply steady_bind; [apply steady_skip_whitespace|].
  intros _ p. unfold bind, get.
  destruct (Py.at_ _ _); [|exact I].
  destruct (Ascii.eqb _ _); [|exact I]. split; simpl; [reflexivity | lia].
Qed.

Lemma steady_parse_identifier : steady _parse_identifier.
Proof.
  unfold _parse_identifier. apply steady_bind; [apply steady_skip_whitespace|].
  intros _ p. unfold bind, get.
  destruct (Py.at_ _ _); [|exact I].
  destruct (Py.isword _); [|exact I]. split; simpl; [reflexivity | apply scan_ge].
Qed.

Lemma steady_parse_string_literal : steady _parse_string_literal.
Proof.
  unfold _parse_string_literal.
  apply steady_bind; [apply steady_expect|]. intros _.
  apply steady_bind; [|intros _; apply steady_expect].
  apply steady_set_pos. intros p. apply string_body_ge.
Qed.

Lemma steady_parse_number_literal : steady _parse_number_literal.
Proof. apply steady_set_pos. intros p. apply scan_ge. Qed.

Lemma steady_add_error e : steady (modify (add_error e)).
Proof. intros p. split; [reflexivity | simpl; lia]. Qed.

Lemma steady_check_list_function_call element_path func_name :
  steady (_check_list_function_call element_path func_name).
Proof.
  intros p. unfold _check_list_function_call, bind, get.
  destruct (bool_decide _); [apply steady_add_error|].
  destruct (find _ _); [apply steady_add_error | apply extends_refl].
Qed.

Lemma steady_check_call chain : steady (check_call chain).
Proof.
  unfold check_call. destruct (call_receiver chain), (last chain);
    try apply steady_ret. apply steady_check_list_function_call.
Qed.

(** [within P p o]: from state [p], the outcome [o] moves forward, and the
    budget is exhausted only if [P] fails. *)
Definition within {A} (P : Prop) (p : t) (o : outcome A) : Prop :=
  match o with
  | Return _ p' => extends p p'
  | Raise _ _ => True
  | Diverge => ¬ P
  end.

Lemma within_steady {A} (m : M A) P p : steady m → within P p (m p).
Proof. intros H. specialize (H p). destruct (m p); simpl; tauto. Qed.

Lemma within_from {A} (P Q : Prop) p p' (o : outcome A) :
  extends p p' → (P → Q) → within Q p' o → within P p o.
Proof.
  intros He HPQ. destruct o; simpl; [|trivial|tauto].
  intros H. eapply extends_trans; eassumption.
Qed.

Lemma within_bind {A B} (P : Prop) p (m : M A) (k : A → M B) :
  within P p (m p) →
  (∀ a p', m p = Return a p' → extends p p' → within P p' (k a p')) →
  within P p (bind m k p).
Proof.
  intros Hm Hk. unfold bind. destruct (m p) as [a p'| |]; [|exact I|exact Hm].
  eapply within_from; [exact Hm | exact (fun H => H) | apply Hk; auto].
Qed.

Lemma within_while (P : Prop) cond body n p :
  consuming cond →
  (∀ p', extends p p' → within P p' (body p')) →
  (P → remaining p < n) →
  within P p (while n cond body p).
Proof.
  intros Hc. revert p. induction n as [|n IH]; intros p Hb Hn.
  - simpl. intros HP. apply Hn in HP. lia.
  - simpl. unfold bind at 1. specialize (Hc p) as Hcp.
    destruct (cond p) as [b p1| |]; try contradiction.
    destruct Hcp as [He Hadv]. destruct b; [|exact He].
    eapply within_from; [exact He | exact (fun H => H) |].
    apply within_bind; [apply Hb, He|].
    intros _ p2 _ He2. apply IH.
    + intros p' He'. apply Hb.
      eapply extends_trans; [exact He|]. eapply extends_trans; eassumption.
    + intros HP. specialize (Hn HP). specialize (Hadv eq_refl).
      apply extends_remaining in He2. lia.
Qed.

(** The budget a method needs with [remaining p] characters left. *)
Definition need (k : nat) (p : t) (fuel : nat) : Prop :=
  k + 20 * remaining p ≤ fuel.

Definition all_within (fuel : nat) : Prop :=
  (∀ p, within (need 9 p fuel) p (_parse_expression fuel p))
  ∧ (∀ p, within (need 8 p fuel) p (_parse_or_expression fuel p))
  ∧ (∀ p, within (need 7 p fuel) p (_parse_and_expression fuel p))
  ∧ (∀ p, within (need 6 p fuel) p (_parse_comparison_expression fuel p))
  ∧ (∀ p, within (need 5 p fuel) p (_parse_additive_expression fuel p))
  ∧ (∀ p, within (need 4 p fuel) p (_parse_multiplicative_expression fuel p))
  ∧ (∀ p, within (need 3 p fuel) p (_parse_unary_expression fuel p))
  ∧ (∀ p, within (need 2 p fuel) p (_parse_postfix_expression fuel p))
  ∧ (∀ chain p, within (need 1 p fuel) p (postfix_loop fuel chain p))
  ∧ (∀ p, within (need 1 p fuel) p (_parse_primary_expression fuel p))
  ∧ (∀ p, within (need 10 p fuel) p (_parse_function_arguments fuel p)).

(** A callee run on a smaller budget from a later state. *)
Ltac callee IH :=
  eapply within_from; [apply extends_refl | | apply IH];
  unfold need;
  repeat match goal with
         | H : extends _ _ |- _ => apply extends_remaining in H
         end; lia.

(** A binary tier: one operand, then operands while an operator matches. *)
Lemma tier_within k f (lower : nat → M unit) cond p :
  0 < k →
  (∀ q, within (need k q f) q (lower f q)) →
  consuming cond →
  within (need (S k) p (S f)) p
    ((lower f ;; while f cond (lower f)) p).
Proof.
  intros Hk IH Hc. apply within_bind.
  - callee IH.
  - intros _ p1 _ He. apply within_while; [exact Hc| |].
    + intros p2 He2.
      eapply within_from; [apply extends_refl | | apply IH].
      unfold need. apply extends_remaining in He, He2. lia.
    + unfold need. apply extends_remaining in He. lia.
Qed.

Lemma all_within_holds fuel : all_within fuel.
Proof.
  induction fuel as [|f IH].
  - unfold all_within, within, need, diverge; simpl.
    repeat apply conj; intros; lia.
  - destruct IH as (IHe & IHor & IHand & IHcmp & IHadd & IHmul & IHun
                    & IHpost & IHloop & IHprim & IHargs).
    repeat apply conj.
    + (* _parse_expression *)
      intros p. simpl. callee IHor.
    + intros p. apply (tier_within 7); [lia | exact IHand |].
      apply consuming_match_operator. simpl. lia.
    + intros p. apply (tier_within 6); [lia | exact IHcmp |].
      apply consuming_match_operator. simpl. lia.
    + intros p. apply (tier_within 5); [lia | exact IHadd |].
      apply consuming_match_any_operator. repeat constructor.
    + intros p. apply (tier_within 4); [lia | exact IHmul |].
      apply consuming_match_any_operator. repeat constructor.
    + intros p. apply (tier_within 3); [lia | exact IHun |].
      apply consuming_match_any_operator. repeat constructor.
    + (* _parse_unary_expression *)
      intros p. simpl. unfold bind at 1.
      pose proof (consuming_match_operator "!" ltac:(simpl; lia) p) as Hc.
      destruct (_match_operator "!" p) as [b p1| |]; try contradiction.
      destruct Hc as [He Hadv]. destruct b.
      * specialize (Hadv eq_refl).
        eapply within_from; [exact He | | apply IHun]. unfold need. lia.
      * eapply within_from; [exact He | exact (fun H => H) |].
        apply within_bind; [callee IHpost|].
        intros; apply extends_refl.
    + (* _parse_postfix_expression *)
      intros p. simpl. apply within_bind.
      * callee IHprim.
      * intros base p1 _ He.
        eapply within_from; [apply extends_refl | | apply IHloop].
        unfold need. apply extends_remaining in He. lia.
    + (* postfix_loop *)
      intros chain p. simpl. unfold bind at 1.
      pose proof (consuming_match "(" p) as Hc.
      destruct (_match "(" p) as [b p1| |]; try contradiction.
      destruct Hc as [He Hadv]. destruct b.
      { specialize (Hadv eq_refl).
        eapply within_from; [exact He | exact (fun H => H) |].
        apply within_bind.
        { eapply within_from; [apply extends_refl | | apply IHargs].
          unfold need. apply extends_remaining in He. lia. }
        intros _ p2 _ He2. apply within_bind.
        { apply within_steady, steady_expect. }
        intros _ p3 _ He3. apply within_bind.
        { apply within_steady, steady_check_call. }
        intros _ p4 _ He4.
        eapply within_from; [apply extends_refl | | apply IHloop].
        unfold need. apply extends_remaining in He, He2, He3, He4. lia. }
      eapply within_from; [exact He | exact (fun H => H) |].
      unfold bind at 1.
      pose proof (consuming_match "[" p1) as Hc.
      destruct (_match "[" p1) as [b p2| |]; try contradiction.
      destruct Hc as [He2 Hadv2]. destruct b.
      { specialize (Hadv2 eq_refl).
        eapply within_from; [exact He2 | exact (fun H => H) |].
        apply within_bind.
        { eapply within_from; [apply extends_refl | | apply IHe].
          unfold need. apply extends_remaining in He, He2. lia. }
        intros _ p3 _ He3. apply within_bind.
        { apply within_steady, steady_expect. }
        intros _ p4 _ He4.
        eapply within_from; [apply extends_refl | | apply IHloop].
        unfold need. apply extends_remaining in He, He2, He3, He4. lia. }
      eapply within_from; [exact He2 | exact (fun H => H) |].
      unfold bind at 1.
      pose proof (consuming_match "." p2) as Hc.
      destruct (_match "." p2) as [b p3| |]; try contradiction.
      destruct Hc as [He3 Hadv3]. destruct b; [|exact He3].
      specialize (Hadv3 eq_refl).
      eapply within_from; [exact He3 | exact (fun H => H) |].
      apply within_bind.
      { apply within_steady, steady_parse_identifier. }
      intros member p4 _ He4.
      eapply within_from; [apply extends_refl | | apply IHloop].
      unfold need. apply extends_remaining in He, He2, He3, He4. lia.
    + (* _parse_primary_expression *)
      intros p. simpl. apply within_bind.
      { apply within_steady, steady_skip_whitespace. }
      intros _ p1 _ He. unfold bind at 1, get.
      destruct (Py.at_ _ _) as [c|] eqn:Hat; [|exact I].
      destruct (Ascii.eqb c Py.dquote).
      { apply within_steady, steady_bind;
          [apply steady_parse_string_literal | intros; apply steady_ret]. }
      destruct (Py.isdigit c).
      { apply within_steady, steady_bind;
          [apply steady_parse_number_literal | intros; apply steady_ret]. }
      destruct (Ascii.eqb c "(") eqn:Hc.
      2:{ apply within_steady, steady_bind;
            [apply steady_parse_identifier | intros; apply steady_ret]. }
      apply Ascii.eqb_eq in Hc. subst c.
      unfold bind at 1. rewrite (match_current _ _ Hat eq_refl).
      assert (He2 : extends p1 (set_pos (pos p1 + 1) p1)).
      { split; simpl; [reflexivity | lia]. }
      assert (Hadv : remaining (set_pos (pos p1 + 1) p1) < remaining p1).
      { apply at_Some_lt in Hat. unfold remaining. simpl. lia. }
      eapply within_from; [exact He2 | exact (fun H => H) |].
      apply within_bind.
      { eapply within_from; [apply extends_refl | | apply IHe].
        unfold need. apply extends_remaining in He. lia. }
      intros _ p3 _ He3. apply within_steady, steady_bind;
        [apply steady_expect | intros; apply steady_ret].
    + (* _parse_function_arguments *)
      intros p. simpl. apply within_bind.
      { apply within_steady, steady_skip_whitespace. }
      intros _ p1 _ He. unfold bind at 1, get.
      destruct (Py.at_ _ _) as [c|]; [|apply extends_refl].
      destruct (negb _); [|apply extends_refl].
      apply within_bind.
      { eapply within_from; [apply extends_refl | | apply IHe].
        unfold need. apply extends_remaining in He. lia. }
      intros _ p2 _ He2. apply within_while.
      * apply consuming_match.
      * intros p3 He3.
        eapply within_from; [apply extends_refl | | apply IHe].
        unfold need. apply extends_remaining in He, He2, He3. lia.
      * unfold need. apply extends_remaining in He, He2. lia.
Qed.

Lemma parse_expression_returns p :
  _parse_expression (budget (expression p)) p ≠ Diverge.
Proof.
  pose proof (all_within_holds (budget (expression p))) as [H _].
  specialize (H p). intros E. rewrite E in H. apply H.
  unfold need, budget, remaining. lia.
Qed.

(** [ExpressionParser.parse] always returns. *)
Lemma parse_returns p : is_Some (parse p).
Proof.
  unfold parse. destruct (negb _); [eexists; reflexivity|].
  pose proof (parse_expression_returns p) as H.
  destruct (_parse_expression _ p) as [[] p'|msg p'|];
    [destruct (errors p') | | contradiction]; eexists; reflexivity.
Qed.

End Termination.

(** ** The passes only append diagnostics *)

Section Passes.
Import TemplateParser.

(** Everything a pass reads stays as it was. *)
Definition same_context (s s' : t) : Prop :=
  content s' = content s
  ∧ list_elements s' = list_elements s
  ∧ loop_variables s' = loop_variables s.

(** [s'] is [s] with further diagnostics, each satisfying [P]. *)
Definition emits (P : Diagnostic → Prop) (s s' : t) : Prop :=
  same_context s s'
  ∧ ∃ ds, diagnostics s' = diagnostics s ++ ds ∧ Forall P ds.

Lemma emits_refl P s : emits P s s.
Proof.
  split; [repeat split|]. exists []. split; [symmetry; apply app_nil_r | constructor].
Qed.

Lemma emits_trans P s1 s2 s3 : emits P s1 s2 → emits P s2 s3 → emits P s1 s3.
Proof.
  intros [(C1 & L1 & V1) (ds1 & D1 & F1)] [(C2 & L2 & V2) (ds2 & D2 & F2)].
  split; [repeat split; congruence|].
  exists (ds1 ++ ds2). split; [|apply Forall_app; auto].
  rewrite D2, D1. symmetry. apply app_assoc.
Qed.

Lemma emits_append (P : Diagnostic → Prop) d s : P d → emits P s (append d s).
Proof.
  intros Hd. split; [repeat split|]. exists [d]. split; [reflexivity|].
  repeat constructor. exact Hd.
Qed.

Lemma emits_weaken (P Q : Diagnostic → Prop) s s' :
  (∀ d, P d → Q d) → emits P s s' → emits Q s s'.
Proof.
  intros HPQ [Hc (ds & D & F)]. split; [exact Hc|]. exists ds. split; [exact D|].
  eapply Forall_impl; eassumption.
Qed.

Lemma emits_fold_left {A} P (f : t → A → t) l s :
  (∀ s x, emits P s (f s x)) → emits P s (fold_left f l s).
Proof.
  intros Hf. revert s. induction l as [|x l IH]; intros s; simpl.
  - apply emits_refl.
  - eapply emits_trans; [apply Hf | apply IH].
Qed.

(** A loop body that always returns and only emits. *)
Definition emitting {A} (P : Diagnostic → Prop) (body : t → A → option t)
  : Prop :=
  ∀ s x, ∃ s', body s x = Some s' ∧ emits P s s'.

Lemma emits_for_each {A} P (body : t → A → option t) l s :
  emitting P body → ∃ s', for_each body l s = Some s' ∧ emits P s s'.
Proof.
  intros Hb. revert s. induction l as [|x l IH]; intros s; simpl.
  - exists s. split; [reflexivity | apply emits_refl].
  - destruct (Hb s x) as (s1 & E1 & H1). rewrite E1. simpl.
    destruct (IH s1) as (s2 & E2 & H2). exists s2. split; [exact E2|].
    eapply emits_trans; eassumption.
Qed.

Lemma severity_diagnostic_at self pos width sev msg c :
  severity (diagnostic_at self pos width sev msg c) = sev.
Proof. unfold diagnostic_at. destruct (_get_line_column _ _). reflexivity. Qed.

Lemma code_diagnostic_at self pos width sev msg c :
  code (diagnostic_at self pos width sev msg c) = Some c.
Proof. unfold diagnostic_at. destruct (_get_line_column _ _). reflexivity. Qed.

Lemma message_diagnostic_at self pos width sev msg c :
  message (diagnostic_at self pos width sev msg c) = msg.
Proof. unfold diagnostic_at. destruct (_get_line_column _ _). reflexivity. Qed.

(** A diagnostic of the given severity and code. *)
Definition coded (sev : nat) (c : string) (d : Diagnostic) : Prop :=
  severity d = sev ∧ code d = Some c.

Lemma coded_diagnostic_at self pos width sev msg c :
  coded sev c (diagnostic_at self pos width sev msg c).
Proof.
  split; [apply severity_diagnostic_at | apply code_diagnostic_at].
Qed.

(** What one validated expression, in a span or in a [condition]
    attribute, adds to the diagnostics. *)
Definition expression_diagnostic (failure : string) (d : Diagnostic) : Prop :=
  coded 1 failure d ∨ coded 1 "list-function-error" d.

Lemma validate_expression_emits :
  emitting (expression_diagnostic "expr-error") validate_expression.
Proof.
  intros s m. unfold validate_expression.
  destruct (String.eqb _ _).
  { exists s. split; [reflexivity | apply emits_refl]. }
  destruct (parse_returns
              (ExpressionParser.__init__ (Re.group_str m 1)
                 (list_elements s) (dom (loop_variables s))))
    as [[[is_valid error_msg] parser] E].
  rewrite E. simpl. eexists. split; [reflexivity|].
  eapply emits_trans; [|apply emits_fold_left].
  - destruct is_valid; simpl; [apply emits_refl|].
    apply emits_append. left. apply coded_diagnostic_at.
  - intros s' [error_pos msg].
    apply emits_append. right. apply coded_diagnostic_at.
Qed.

(** What one attribute adds. *)
Definition attribute_diagnostic (d : Diagnostic) : Prop :=
  coded 2 "unknown-attribute" d
  ∨ expression_diagnostic "condition-syntax-error" d.

Lemma validate_attribute_emits tag_name start_pos :
  emitting attribute_diagnostic (validate_attribute tag_name start_pos).
Proof.
  intros s m. unfold validate_attribute.
  destruct (attribute_of m) as [attr_name attr_value].
  set (s1 := if bool_decide _ then s else _).
  assert (H1 : emits attribute_diagnostic s s1).
  { subst s1. destruct (bool_decide _); [apply emits_refl|].
    apply emits_append. left. apply coded_diagnostic_at. }
  destruct (_ && _).
  2:{ exists s1. split; [reflexivity | exact H1]. }
  destruct (parse_returns
              (ExpressionParser.__init__ attr_value
                 (list_elements s1) (dom (loop_variables s1))))
    as [[[is_valid error_msg] parser] E].
  rewrite E. simpl. eexists. split; [reflexivity|].
  eapply emits_trans; [exact H1|].
  eapply emits_trans; [|apply emits_fold_left].
  - destruct is_valid; simpl; [apply emits_refl|].
    apply emits_append. right. left. apply coded_diagnostic_at.
  - intros s' [error_pos msg].
    apply emits_append. right. right. apply coded_diagnostic_at.
Qed.

(** What one opening tag adds. *)
Definition tag_diagnostic (d : Diagnostic) : Prop :=
  coded 1 "unknown-tag" d ∨ attribute_diagnostic d.

Lemma validate_tag_emits : emitting tag_diagnostic validate_tag.
Proof.
  intros s m. unfold validate_tag. destruct (bool_decide _).
  - destruct (emits_for_each attribute_diagnostic
                (validate_attribute ("wr-" +:+ Re.group_str m 1) (Re.m_start m))
                (Re.finditer Re.attr (Re.group_str m 2)) s
                (validate_attribute_emits _ _)) as (s' & E & H).
    exists s'. split; [exact E|].
    eapply emits_weaken; [|exact H]. intros d Hd. right. exact Hd.
  - eexists. split; [reflexivity|].
    apply emits_append. left. apply coded_diagnostic_at.
Qed.

(** What the closure pass adds. *)
Definition closure_diagnostic (d : Diagnostic) : Prop :=
  coded 1 "unmatched-closing-tag" d ∨ coded 1 "unclosed-tag" d.

Lemma closure_step_emits st e :
  emits closure_diagnostic st.2 (closure_step st e).2.
Proof.
  destruct st as [tag_stack s], e as [[[] tag_name] pos]; simpl.
  - destruct (bool_decide _); apply emits_refl.
  - destruct (bool_decide _); [apply emits_refl|].
    destruct (find_from_top _ _ _); [apply emits_refl|].
    apply emits_append. left. apply coded_diagnostic_at.
Qed.

Lemma report_unclosed_emits tag_stack s :
  emits closure_diagnostic s (report_unclosed tag_stack s).
Proof.
  apply emits_fold_left. intros s' [tag_name start_pos].
  apply emits_append. right. apply coded_diagnostic_at.
Qed.

Lemma validate_tag_closures_emits s :
  emits closure_diagnostic s (_validate_tag_closures s).
Proof.
  unfold _validate_tag_closures.
  assert (H : ∀ l st, emits closure_diagnostic st.2
                        (fold_left closure_step l st).2).
  { induction l as [|e l IH]; intros st; simpl; [apply emits_refl|].
    eapply emits_trans; [apply closure_step_emits | apply IH]. }
  specialize (H (tag_events s) ([], s)).
  destruct (fold_left closure_step (tag_events s) ([], s)) as [tag_stack s1].
  eapply emits_trans; [exact H | apply report_unclosed_emits].
Qed.

Lemma collect_list_elements_keeps s :
  content (_collect_list_elements s) = content s
  ∧ diagnostics (_collect_list_elements s) = diagnostics s.
Proof.
  unfold _collect_list_elements.
  generalize (Re.finditer Re.wr_for_tag (content s)).
  intros l. revert s. induction l as [|m l IH]; intros s; simpl; [auto|].
  match goal with |- context [fold_left _ l ?s1] => destruct (IH s1) as [C D] end.
  rewrite C, D.
  destruct (Re.search (Re.quoted_attr "list") _),
           (Re.search (Re.quoted_attr "variable") _); auto.
Qed.

(** Any diagnostic the validator can emit. *)
Definition emitted (d : Diagnostic) : Prop :=
  expression_diagnostic "expr-error" d ∨ tag_diagnostic d
  ∨ closure_diagnostic d.

(** [parse] returns, whatever the parser object held before; the result
    is the list it leaves in [diagnostics]. *)
Lemma parse_emits self :
  ∃ ds self', parse self = Some (ds, self')
              ∧ content self' = content self
              ∧ diagnostics self' = ds
              ∧ Forall emitted ds.
Proof.
  unfold parse.
  set (s0 := {| content := content self; diagnostics := [];
                list_elements := ∅; loop_variables := ∅ |}).
  destruct (collect_list_elements_keeps s0) as [C1 D1].
  set (s1 := _collect_list_elements s0) in *.
  destruct (emits_for_each _ validate_expression
              (Re.finditer Re.percent_span (content s1)) s1
              validate_expression_emits) as (s2 & E2 & H2).
  unfold _validate_expressions. rewrite E2. simpl.
  destruct (emits_for_each _ validate_tag
              (Re.finditer Re.wr_tag (content s2)) s2
              validate_tag_emits) as (s3 & E3 & H3).
  unfold _validate_tags. rewrite E3. simpl.
  pose proof (validate_tag_closures_emits s3) as H4.
  eexists _, _. split; [reflexivity|].
  assert (H : emits emitted s1 (_validate_tag_closures s3)).
  { eapply emits_trans; [|eapply emits_trans].
    - eapply emits_weaken; [|exact H2]. intros d Hd. left. exact Hd.
    - eapply emits_weaken; [|exact H3]. intros d Hd. right. left. exact Hd.
    - eapply emits_weaken; [|exact H4]. intros d Hd. right. right. exact Hd. }
  destruct H as [(C & _ & _) (ds & D & F)].
  split; [rewrite C, C1; reflexivity|]. split; [reflexivity|].
  rewrite D, D1. exact F.
Qed.

(** The result of [parse] depends on the document only. *)
Lemma parse_content s1 s2 : content s1 = content s2 → parse s1 = parse s2.
Proof. intros E. unfold parse. rewrite E. reflexivity. Qed.

End Passes.

(** ** Running the parser on a given expression *)

Section Running.
Import ExpressionParser.
Local Open Scope parser_scope.

Lemma bind_step {A B} (m : M A) (k : A → M B) p a p' r :
  m p = Return a p' → k a p' = r → bind m k p = r.
Proof. intros Hm Hk. unfold bind. rewrite Hm. exact Hk. Qed.

Lemma parse_expression_S f :
  _parse_expression (S f) = _parse_or_expression f.
Proof. reflexivity. Qed.

Lemma parse_or_expression_S f :
  _parse_or_expression (S f) =
  (_parse_and_expression f ;;
   while f (_match_operator "||") (_parse_and_expression f)).
Proof. reflexivity. Qed.

Lemma parse_and_expression_S f :
  _parse_and_expression (S f) =
  (_parse_comparison_expression f ;;
   while f (_match_operator "&&") (_parse_comparison_expression f)).
Proof. reflexivity. Qed.

Lemma parse_comparison_expression_S f :
  _parse_comparison_expression (S f) =
  (_parse_additive_expression f ;;
   while f (_match_any_operator ["=="; "!="; "<"; "<="; ">"; ">="])
     (_parse_additive_expression f)).
Proof. reflexivity. Qed.

Lemma parse_additive_expression_S f :
  _parse_additive_expression (S f) =
  (_parse_multiplicative_expression f ;;
   while f (_match_any_operator ["+"; "-"])
     (_parse_multiplicative_expression f)).
Proof. reflexivity. Qed.

Lemma parse_multiplicative_expression_S f :
  _parse_multiplicative_expression (S f) =
  (_parse_unary_expression f ;;
   while f (_match_any_operator ["*"; "/"; "%"])
     (_parse_unary_expression f)).
Proof. reflexivity. Qed.

Lemma parse_unary_expression_S f :
  _parse_unary_expression (S f) =
  (b <- _match_operator "!" ;;
   if b then _parse_unary_expression f
   else _parse_postfix_expression f ;; ret tt).
Proof. reflexivity. Qed.

Lemma parse_postfix_expression_S f :
  _parse_postfix_expression (S f) =
  (base_element <- _parse_primary_expression f ;;
   postfix_loop f
     match base_element with
     | Some b => if Py.truthy b then [b] else []
     | None => []
     end).
Proof. reflexivity. Qed.

Lemma postfix_loop_S f element_chain :
  postfix_loop (S f) element_chain =
  (call <- _match "(" ;;
   if call then
     _parse_function_arguments f ;;
     _expect ")" ;;
     check_call element_chain ;;
     postfix_loop f []
   else
     index <- _match "[" ;;
     if index then
       _parse_expression f ;;
       _expect "]" ;;
       postfix_loop f []
     else
       dot <- _match "." ;;
       if dot then
         member <- _parse_identifier ;;
         postfix_loop f
           (if Py.truthy member then element_chain ++ [member]
            else element_chain)
       else ret element_chain).
Proof. reflexivity. Qed.

(** The two messages of [_check_list_function_call]. *)
Definition on_list_message (func_name element_path : string) : string :=
  "Cannot call '" +:+ func_name +:+ "()' on list element '"
  +:+ element_path +:+ "'. " +:+ "Use a loop variable instead.".

Definition on_list_prefix_message (func_name prefix : string) : string :=
  "Cannot call '" +:+ func_name +:+ "()' on list element '"
  +:+ prefix +:+ "'. "
  +:+ "Use a loop variable to iterate over the list first.".

Lemma check_list_function_call_member element_path func_name p :
  element_path ∈ list_elements p →
  _check_list_function_call element_path func_name p =
  Return tt (add_error (pos p, on_list_message func_name element_path) p).
Proof.
  intros H. unfold _check_list_function_call, bind, get, modify.
  rewrite bool_decide_eq_true_2 by exact H. reflexivity.
Qed.

Lemma check_call_applied element_chain element_path func_name :
  call_receiver element_chain = Some element_path →
  last element_chain = Some func_name →
  check_call element_chain =
  _check_list_function_call element_path func_name.
Proof. intros H1 H2. unfold check_call. rewrite H1, H2. reflexivity. Qed.

(** Evaluate a closed left-hand side. *)
Ltac by_computation :=
  lazymatch goal with
  | |- ?lhs = _ =>
      let r := eval vm_compute in lhs in
      exact (@eq_refl _ r <: lhs = r)
  end.

(** Follow the parser down to the calls of [_check_list_function_call],
    whose membership test is decided by a hypothesis; everything else is
    computed. *)
Ltac run :=
  cbv beta iota;
  lazymatch goal with
  | |- bind _ _ _ = _ => eapply bind_step; [run | run]
  | |- _check_list_function_call _ _ _ = _ =>
      etransitivity;
      [apply check_list_function_call_member; vm_compute; assumption
      | by_computation]
  | |- check_call _ _ = _ =>
      erewrite check_call_applied by (vm_compute; reflexivity); run
  | |- _parse_expression (S _) _ = _ => rewrite parse_expression_S; run
  | |- _parse_or_expression (S _) _ = _ => rewrite parse_or_expression_S; run
  | |- _parse_and_expression (S _) _ = _ =>
      rewrite parse_and_expression_S; run
  | |- _parse_comparison_expression (S _) _ = _ =>
      rewrite parse_comparison_expression_S; run
  | |- _parse_additive_expression (S _) _ = _ =>
      rewrite parse_additive_expression_S; run
  | |- _parse_multiplicative_expression (S _) _ = _ =>
      rewrite parse_multiplicative_expression_S; run
  | |- _parse_unary_expression (S _) _ = _ =>
      rewrite parse_unary_expression_S; run
  | |- _parse_postfix_expression (S _) _ = _ =>
      rewrite parse_postfix_expression_S; run
  | |- postfix_loop (S _) _ _ = _ => rewrite postfix_loop_S; run
  | |- _ => by_computation
  end.

Lemma parse_items_selectedValue le lv :
  "items" ∈ le →
  parse (__init__ "items.selectedValue()" le lv) =
  Some (false, Some (on_list_message "selectedValue" "items"),
        {| expression := "items.selectedValue()"; pos := 21;
           list_elements := le; loop_variables := lv;
           errors := [(21, on_list_message "selectedValue" "items")] |}).
Proof.
  intros H. unfold parse.
  change (negb (Py.truthy
            (expression (__init__ "items.selectedValue()" le lv))))
    with false.
  cbv iota.
  assert (E : _parse_expression 440
                {| expression := "items.selectedValue()"; pos := 0;
                   list_elements := le; loop_variables := lv;
                   errors := [] |} =
              Return tt
                {| expression := "items.selectedValue()"; pos := 21;
                   list_elements := le; loop_variables := lv;
                   errors := [(21, on_list_message "selectedValue" "items")] |}).
  { run. }
  change (budget (expression (__init__ "items.selectedValue()" le lv)))
    with 440.
  change (__init__ "items.selectedValue()" le lv)
    with {| expression := "items.selectedValue()"; pos := 0;
            list_elements := le; loop_variables := lv; errors := [] |}.
  rewrite E. reflexivity.
Qed.

End Running.

(** ** The list-misuse report of a span *)

Section ListMisuse.
Import TemplateParser.




End ListMisuse.

(** ** The fixed vocabularies *)

Section Vocabulary.
Import TemplateParser.

(** C2, as the spec states it, fails: the no-close set does not have ten
    members. *)
Lemma no_close_tags_not_ten :
  ¬ (size VALID_TAGS = 16 ∧ size NO_CLOSE_TAGS = 10
     ∧ NO_CLOSE_TAGS ⊆ VALID_TAGS).
Proof.
  intros (_ & H & _). vm_compute in H. discriminate H.
Qed.

(** C2, amended: the tag vocabulary has exactly 16 names, each with its
    entry in the attribute table, and the no-close set has exactly 11 of
    those 16 names (so 5 tags require a closing tag). *)
Theorem tag_vocabulary_sizes :
  size VALID_TAGS = 16
  ∧ size NO_CLOSE_TAGS = 11
  ∧ NO_CLOSE_TAGS ⊆ VALID_TAGS
  ∧ size (VALID_TAGS ∖ NO_CLOSE_TAGS) = 5
  ∧ dom TAG_ATTRIBUTES = VALID_TAGS.
Proof.
  split; [vm_compute; reflexivity|].
  split; [vm_compute; reflexivity|].
  split; [apply (bool_decide_unpack _); vm_compute; exact I|].
  split; [vm_compute; reflexivity|].
  apply (bool_decide_unpack _). vm_compute. exact I.
Qed.

End Vocabulary.

(** ** When the list-misuse rule is applied *)

Section CallReceiver.
Import ExpressionParser.

Lemma single_element_function_cases f :
  f ∈ SINGLE_ELEMENT_FUNCTIONS →
  f = "selectedValue" ∨ f = "selectedName" ∨ f = "selected".
Proof.
  unfold SINGLE_ELEMENT_FUNCTIONS.
  rewrite !elem_of_union, !elem_of_singleton. tauto.
Qed.

Lemma single_element_function_truthy f :
  f ∈ SINGLE_ELEMENT_FUNCTIONS → Py.truthy f = true.
Proof.
  intros H. apply single_element_function_cases in H as [->|[->| ->]];
    reflexivity.
Qed.

Lemma length_removelast {A} (l : list A) :
  length (removelast l) = length l - 1.
Proof.
  induction l as [|a [|b l] IH]; simpl in *; [reflexivity..|].
  rewrite IH. lia.
Qed.

End CallReceiver.

(** ** Closure validation *)

Section Closures.
Import TemplateParser.

Lemma find_from_top_none tag_name tag_stack n :
  Forall (fun e => e.1 ≠ tag_name) tag_stack →
  find_from_top tag_name tag_stack n = None.
Proof.
  intros H. induction n as [|i IH]; simpl; [reflexivity|].
  destruct (tag_stack !! i) as [[name p]|] eqn:E; [|exact IH].
  rewrite Forall_forall in H.
  assert (Hne : name ≠ tag_name).
  { apply (H (name, p)). eapply list_elem_of_lookup_2. exact E. }
  apply String.eqb_neq in Hne. rewrite Hne. exact IH.
Qed.

Lemma find_from_top_nearest tag_name opened below above n :
  Forall (fun e => e.1 ≠ tag_name) above →
  length below < n →
  n ≤ length (below ++ (tag_name, opened) :: above) →
  find_from_top tag_name (below ++ (tag_name, opened) :: above) n
  = Some (length below).
Proof.
  intros Ha. induction n as [|i IH]; intros Hlo Hhi; [lia|]. simpl.
  destruct (decide (i = length below)) as [->|Hne].
  - rewrite list_lookup_middle by reflexivity. rewrite String.eqb_refl.
    reflexivity.
  - rewrite length_app in Hhi. simpl in Hhi.
    assert (Hi : (below ++ (tag_name, opened) :: above) !! i
                 = above !! (i - S (length below))).
    { rewrite lookup_app_r by lia.
      replace (i - length below) with (S (i - S (length below))) by lia.
      reflexivity. }
    rewrite Hi.
    destruct (above !! (i - S (length below))) as [[name p]|] eqn:E.
    + rewrite Forall_forall in Ha.
      assert (Hn : name ≠ tag_name).
      { apply (Ha (name, p)). eapply list_elem_of_lookup_2. exact E. }
      apply String.eqb_neq in Hn. rewrite Hn.
      apply IH; [lia | rewrite length_app; simpl; lia].
    + apply IH; [lia | rewrite length_app; simpl; lia].
Qed.

Lemma diagnostic_at_content s1 s2 pos width sev msg c :
  content s1 = content s2 →
  diagnostic_at s1 pos width sev msg c = diagnostic_at s2 pos width sev msg c.
Proof.
  intros E. unfold diagnostic_at, _get_line_column. rewrite E. reflexivity.
Qed.

(** The diagnostic reported for a stack entry left open. *)
Definition unclosed_diagnostic (self : t) (e : string * nat) : Diagnostic :=
  diagnostic_at self (Z.of_nat e.2) (Py.len e.1 + 2) 1
    ("Unclosed tag '" +:+ e.1 +:+ "'") "unclosed-tag".

Lemma report_unclosed_map tag_stack self :
  report_unclosed tag_stack self =
  {| content := content self;
     diagnostics := diagnostics self
                    ++ map (unclosed_diagnostic self) tag_stack;
     list_elements := list_elements self;
     loop_variables := loop_variables self |}.
Proof.
  unfold report_unclosed. revert self.
  induction tag_stack as [|[name p] l IH]; intros self; simpl.
  - rewrite app_nil_r. destruct self; reflexivity.
  - rewrite IH. simpl. rewrite <- app_assoc. reflexivity.
Qed.

(** C5: a closing event of a tag outside the no-close set removes the
    nearest entry of that name, searching from the most recently opened
    entry backward and leaving the entries above it on the stack; if no
    entry has that name, the stack is unchanged and exactly one
    [unmatched-closing-tag] Error is appended; and once all events are
    processed every entry left on the stack yields exactly one
    [unclosed-tag] Error, in stack order. *)
Theorem closure_validation :
  (∀ below above tag_name opened pos self,
     tag_name ∉ NO_CLOSE_TAGS →
     Forall (fun e => e.1 ≠ tag_name) above →
     closure_step (below ++ (tag_name, opened) :: above, self)
       (close, tag_name, pos)
     = (below ++ above, self))
  ∧ (∀ tag_stack tag_name pos self,
       tag_name ∉ NO_CLOSE_TAGS →
       Forall (fun e => e.1 ≠ tag_name) tag_stack →
       ∃ d, closure_step (tag_stack, self) (close, tag_name, pos)
            = (tag_stack, append d self)
            ∧ severity d = 1 ∧ code d = Some "unmatched-closing-tag")
  ∧ (∀ self,
       ∃ tag_stack self',
         fold_left closure_step (tag_events self) ([], self)
         = (tag_stack, self')
         ∧ diagnostics (_validate_tag_closures self)
           = diagnostics self' ++ map (unclosed_diagnostic self') tag_stack
         ∧ Forall (fun d => severity d = 1 ∧ code d = Some "unclosed-tag")
             (map (unclosed_diagnostic self') tag_stack)).
Proof.
  split; [|split].
  - intros below above tag_name opened pos self Hn Ha. simpl.
    rewrite bool_decide_eq_false_2 by exact Hn.
    rewrite find_from_top_nearest;
      [|exact Ha | rewrite length_app; simpl; lia | lia].
    rewrite delete_middle. reflexivity.
  - intros tag_stack tag_name pos self Hn Ha. simpl.
    rewrite bool_decide_eq_false_2 by exact Hn.
    rewrite find_from_top_none by exact Ha.
    eexists. split; [reflexivity|].
    split; [apply severity_diagnostic_at | apply code_diagnostic_at].
  - intros self. unfold _validate_tag_closures.
    destruct (fold_left closure_step (tag_events self) ([], self))
      as [tag_stack self'].
    exists tag_stack, self'. split; [reflexivity|].
    rewrite report_unclosed_map. split; [reflexivity|].
    apply Forall_map, Forall_forall. intros e _. simpl.
    split; [apply severity_diagnostic_at | apply code_diagnostic_at].
Qed.

Lemma closure_validation_witness :
  closure_step ([("wr-if", 0); ("wr-for", 7); ("wr-switch", 20)],
                __init__ "")
    (close, "wr-for", 30)
  = ([("wr-if", 0); ("wr-switch", 20)], __init__ "")
  ∧ ∃ d, closure_step ([("wr-if", 0)], __init__ "") (close, "wr-for", 9)
         = ([("wr-if", 0)], append d (__init__ ""))
         ∧ severity d = 1 ∧ code d = Some "unmatched-closing-tag".
Proof.
  destruct closure_validation as (H1 & H2 & _).
  assert (Hn : "wr-for" ∉ NO_CLOSE_TAGS).
  { apply (bool_decide_unpack _). vm_compute. exact I. }
  split.
  - apply (H1 [("wr-if", 0)] [("wr-switch", 20)] "wr-for" 7 30 _ Hn).
    repeat constructor. simpl. discriminate.
  - apply (H2 [("wr-if", 0)] "wr-for" 9 _ Hn).
    repeat constructor. simpl. discriminate.
Defined.

End Closures.

(** ** Tags, severities and repeated runs *)

Section Results.
Import TemplateParser.

(** The codes of the Error diagnostics. *)
Definition ERROR_CODES : list string :=
  ["unknown-tag"; "expr-error"; "condition-syntax-error";
   "list-function-error"; "unmatched-closing-tag"; "unclosed-tag"].

(** Severity against kind. *)
Definition severity_matches_kind (d : Diagnostic) : Prop :=
  (severity d = 1 ∨ severity d = 2)
  ∧ (severity d = 2 ↔ code d = Some "unknown-attribute")
  ∧ (severity d = 1 ↔ ∃ c, code d = Some c ∧ In c ERROR_CODES).

Lemma coded_error_matches_kind c d :
  In c ERROR_CODES → coded 1 c d → severity_matches_kind d.
Proof.
  intros Hc [Hs Hd]. unfold severity_matches_kind. rewrite Hs, Hd.
  split; [left; reflexivity|]. split.
  - split; [discriminate|]. intros [= ->]. simpl in Hc.
    repeat (destruct Hc as [Hc|Hc]; [discriminate Hc|]). destruct Hc.
  - split; [|reflexivity]. intros _. exists c. split; [reflexivity|exact Hc].
Qed.

Lemma coded_warning_matches_kind d :
  coded 2 "unknown-attribute" d → severity_matches_kind d.
Proof.
  intros [Hs Hd]. unfold severity_matches_kind. rewrite Hs, Hd.
  split; [right; reflexivity|]. split.
  - split; reflexivity.
  - split; [discriminate|]. intros (c & [= <-] & Hc). simpl in Hc.
    repeat (destruct Hc as [Hc|Hc]; [discriminate Hc|]). destruct Hc.
Qed.

Lemma emitted_matches_kind d : emitted d → severity_matches_kind d.
Proof.
  unfold emitted, expression_diagnostic, tag_diagnostic,
    attribute_diagnostic, expression_diagnostic, closure_diagnostic.
  intros H.
  repeat match type of H with _ ∨ _ => destruct H as [H|H] end;
    first [ apply coded_warning_matches_kind; exact H
          | eapply coded_error_matches_kind; [|exact H]; simpl; tauto ].
Qed.

(** C8: every diagnostic of a parse result has severity 1 or 2; it has
    severity 2 exactly when its code is [unknown-attribute], and severity
    1 exactly when its code is one of the six Error codes. *)
Theorem severity_by_kind (self : t) :
  ∃ ds self',
    parse self = Some (ds, self') ∧ Forall severity_matches_kind ds.
Proof.
  destruct (parse_emits self) as (ds & self' & E & _ & _ & F).
  exists ds, self'. split; [exact E|].
  eapply Forall_impl; [exact F|]. apply emitted_matches_kind.
Qed.

(** C9: running [parse] again on the parser object that a run leaves
    behind gives the same diagnostics, in the same order; the result
    depends on the document only, not on what the object held. *)
Theorem parse_twice (self : t) :
  ∃ ds self',
    parse self = Some (ds, self')
    ∧ parse self' = Some (ds, self')
    ∧ parse (__init__ (content self)) = Some (ds, self').
Proof.
  destruct (parse_emits self) as (ds & self' & E & C & _ & _).
  exists ds, self'. split; [exact E|]. split.
  - rewrite (parse_content self' self C). exact E.
  - rewrite (parse_content (__init__ (content self)) self eq_refl). exact E.
Qed.

End Results.

(** ** Scanning and matching *)

Section Scanning.

(** The character [c] does not occur in [s]. *)
Definition absent (c : ascii) (s : string) : Prop :=
  ∀ k, Py.at_ s k ≠ Some c.

Lemma at_ge_None s i : Py.len s ≤ i → Py.at_ s i = None.
Proof.
  unfold Py.at_, Py.len. revert i.
  induction s as [|a s IH]; intros i H; simpl in *.
  - destruct i; reflexivity.
  - destruct i as [|i]; [lia|]. apply IH. lia.
Qed.

(** Every character passed over by a scan satisfies the test. *)
Lemma scan_from_passed f s n i k :
  i ≤ k < Py.scan_from f s n i →
  ∃ c, Py.at_ s k = Some c ∧ f c = true.
Proof.
  revert i. induction n as [|n IH]; intros i Hk; simpl in Hk; [lia|].
  destruct (Py.at_ s i) as [c|] eqn:E; [|lia].
  destruct (f c) eqn:Hf; [|lia].
  destruct (decide (k = i)) as [->|Hne]; [exists c; auto|].
  apply (IH (S i)). lia.
Qed.

Lemma scan_passed f s i k :
  i ≤ k < Py.scan f s i → ∃ c, Py.at_ s k = Some c ∧ f c = true.
Proof. apply scan_from_passed. Qed.



Lemma scan_from_fixed f s n i :
  match Py.at_ s i with Some c => f c = false | None => True end →
  Py.scan_from f s n i = i.
Proof.
  intros H. destruct n; simpl; [reflexivity|].
  destruct (Py.at_ s i); [rewrite H|]; reflexivity.
Qed.


Lemma at_slice s a b k c :
  Py.at_ (Py.slice s a b) k = Some c →
  a ≤ k + a < b ∧ Py.at_ s (k + a) = Some c.
Proof.
  unfold Py.at_, Py.slice. intros H.
  destruct (Nat.lt_ge_cases k (b - a)) as [Hlt|Hge].
  - rewrite substring_correct1 in H by exact Hlt. split; [lia | exact H].
  - rewrite substring_correct2 in H by exact Hge. discriminate H.
Qed.

Lemma absent_slice_scan c s a :
  absent c (Py.slice s a (Py.scan (Re.other_than c) s a)).
Proof.
  intros k H. apply at_slice in H as [Hk H].
  destruct (scan_passed (Re.other_than c) s a (k + a) Hk) as (x & Hx & Hf).
  rewrite H in Hx. injection Hx as <-.
  unfold Re.other_than in Hf. rewrite Ascii.eqb_refl in Hf. discriminate Hf.
Qed.

Lemma absent_tail c a s : absent c (String a s) → absent c s.
Proof. intros H k. apply (H (S k)). Qed.

Lemma absent_head c a s : absent c (String a s) → a ≠ c.
Proof. intros H ->. apply (H 0). reflexivity. Qed.

Lemma absent_cons c a s : a ≠ c → absent c s → absent c (String a s).
Proof.
  intros Ha Hs [|k]; simpl.
  - intros [= E]. exact (Ha E).
  - apply Hs.
Qed.

Lemma absent_empty c : absent c EmptyString.
Proof. intros [|k]; discriminate. Qed.

Lemma absent_lstrip c s : absent c s → absent c (Py.lstrip s).
Proof.
  induction s as [|a s IH]; intros H; simpl; [exact H|].
  destruct (Py.isspace a); [apply IH, (absent_tail _ _ _ H) | exact H].
Qed.

Lemma absent_rstrip c s : absent c s → absent c (Py.rstrip s).
Proof.
  induction s as [|a s IH]; intros H; simpl; [exact H|].
  pose proof (IH (absent_tail _ _ _ H)) as IH'.
  pose proof (absent_head _ _ _ H) as Ha.
  destruct (Py.rstrip s) as [|b r].
  - destruct (Py.isspace a);
      [apply absent_empty | apply absent_cons; [exact Ha | apply absent_empty]].
  - apply absent_cons; assumption.
Qed.

Lemma absent_strip c s : absent c s → absent c (Py.strip s).
Proof. intros H. apply absent_rstrip, absent_lstrip, H. Qed.

(** [c in s] is false when [c] does not occur in [s]. *)
Lemma absent_contains c s :
  absent c s → Py.contains (String c EmptyString) s = false.
Proof.
  induction s as [|a s IH]; intros H; [reflexivity|].
  simpl. rewrite (IH (absent_tail _ _ _ H)).
  pose proof (absent_head _ _ _ H) as Ha.
  destruct (ascii_dec c a) as [->|Hne]; [contradiction|].
  destruct s; reflexivity.
Qed.

(** A one-character slice that equals [c] shows [c] at that offset. *)
Lemma slice_one s i c :
  Py.slice s i (i + 1) = String c EmptyString → Py.at_ s i = Some c.
Proof.
  unfold Py.slice, Py.at_. replace (i + 1 - i) with 1 by lia. revert i.
  induction s as [|a s IH]; intros i; simpl.
  - destruct i; discriminate.
  - destruct i as [|i]; simpl.
    + destruct s; intros [= ->]; reflexivity.
    + apply IH.
Qed.

(** Every match reported by [finditer] is a match of the pattern at some
    offset. *)
Lemma finditer_from_matches p s n i m :
  In m (Re.finditer_from p s n i) → ∃ j, p s j = Some m.
Proof.
  revert i. induction n as [|n IH]; intros i H; simpl in H; [destruct H|].
  destruct (p s i) as [m'|] eqn:E.
  - destruct H as [<-|H]; [exists i; exact E | exact (IH _ H)].
  - exact (IH _ H).
Qed.

Lemma finditer_matches p s m :
  In m (Re.finditer p s) → ∃ j, p s j = Some m.
Proof. apply finditer_from_matches. Qed.

Lemma percent_span_group s j m :
  Re.percent_span s j = Some m →
  Re.group_str m 1
  = Py.slice s (j + 1) (Py.scan (Re.other_than "%") s (j + 1))
  ∧ Re.m_start m = j
  ∧ Py.at_ s j = Some "%"%char
  ∧ Py.at_ s (Re.m_end m - 1) = Some "%"%char
  ∧ j + 2 ≤ Re.m_end m.
Proof.
  unfold Re.percent_span, Re.is_char.
  destruct (Py.at_ s j) as [x|] eqn:E1; [|discriminate].
  destruct (Ascii.eqb x "%") eqn:Hx; [|discriminate].
  apply Ascii.eqb_eq in Hx. subst x.
  destruct (Py.at_ s (Py.scan _ s (j + 1))) as [y|] eqn:E2; [|discriminate].
  destruct (Ascii.eqb y "%") eqn:Hy; [|discriminate].
  apply Ascii.eqb_eq in Hy. subst y.
  intros [= <-]. simpl.
  pose proof (scan_ge (Re.other_than "%") s (j + 1)) as Hge.
  replace (Py.scan (Re.other_than "%") s (j + 1) + 1 - 1)
    with (Py.scan (Re.other_than "%") s (j + 1)) by lia.
  repeat split; auto. lia.
Qed.

End Scanning.

(** ** Percent signs and the modulo operator *)

Section Percent.
Import ExpressionParser.

Lemma match_operator_absent c p :
  absent c (expression p) →
  ∃ p', _match_operator (String c EmptyString) p = Return false p'.
Proof.
  intros H. unfold _match_operator, _skip_whitespace, bind, modify, get, ret.
  cbn [expression pos set_pos].
  destruct (_ <? _); simpl; [|eexists; reflexivity].
  destruct (String.eqb _ _) eqn:E; [|eexists; reflexivity].
  apply String.eqb_eq in E. change (Py.len (String c "")) with 1 in E.
  apply slice_one in E. destruct (H _ E).
Qed.

(** C10: the expression of every [%...%] span found in a document
    contains no [%], before and after stripping; so in any state of the
    parser working on it the modulo operator [%] fails to match. *)
Theorem span_expression_has_no_percent (doc : string) (m : Re.Match) :
  In m (Re.finditer Re.percent_span doc) →
  Py.contains "%" (Re.group_str m 1) = false
  ∧ Py.contains "%" (Py.strip (Re.group_str m 1)) = false
  ∧ ∀ p, expression p = Py.strip (Re.group_str m 1) →
         ∃ p', _match_operator "%" p = Return false p'.
Proof.
  intros H. apply finditer_matches in H as [j H].
  apply percent_span_group in H as (-> & _).
  pose proof (absent_slice_scan "%" doc (j + 1)) as Ha.
  split; [apply absent_contains, Ha|].
  split; [apply absent_contains, absent_strip, Ha|].
  intros p Hp. apply match_operator_absent. rewrite Hp.
  apply absent_strip, Ha.
Qed.

Lemma span_expression_has_no_percent_witness :
  Py.contains "%" " a * b " = false
  ∧ ∃ p', _match_operator "%" (__init__ " a * b " ∅ ∅) = Return false p'.
Proof.
  destruct (span_expression_has_no_percent "x% a * b %y"
              (Re.mkMatch 1 10 [Some (2, " a * b ")])) as (H1 & _ & H3).
  - vm_compute. left. reflexivity.
  - split; [exact H1 | apply H3; reflexivity].
Defined.

End Percent.

(** ** Longest operator first *)

Section Operators.
Import ExpressionParser.
Local Open Scope parser_scope.















End Operators.

(** ** Structural failures become diagnostics *)

Section Failures.
Import TemplateParser.

(** [self] with the diagnostics [ds] appended. *)
Definition with_diagnostics (ds : list Diagnostic) (self : t) : t :=
  {| content := content self;
     diagnostics := diagnostics self ++ ds;
     list_elements := list_elements self;
     loop_variables := loop_variables self |}.

(** The diagnostics reported for the list-misuse findings of a parser. *)
Definition list_function_diagnostics (self : t) (pos : Z) (width : nat)
    (errors : list (nat * string)) : list Diagnostic :=
  map (fun e => diagnostic_at self pos width 1 e.2 "list-function-error")
    errors.

Lemma with_diagnostics_nil self : with_diagnostics [] self = self.
Proof.
  unfold with_diagnostics. rewrite app_nil_r. destruct self; reflexivity.
Qed.

Lemma with_diagnostics_app ds1 ds2 self :
  with_diagnostics ds2 (with_diagnostics ds1 self)
  = with_diagnostics (ds1 ++ ds2) self.
Proof. unfold with_diagnostics. simpl. rewrite app_assoc. reflexivity. Qed.

Lemma append_with_diagnostics d self :
  append d self = with_diagnostics [d] self.
Proof. reflexivity. Qed.

Lemma report_list_function_errors self0 pos width errors self :
  content self = content self0 →
  fold_left
    (fun self '(error_pos, error_msg) =>
       append (diagnostic_at self pos width 1 error_msg
                 "list-function-error") self)
    errors self
  = with_diagnostics (list_function_diagnostics self0 pos width errors) self.
Proof.
  revert self. induction errors as [|[error_pos error_msg] errors IH];
    intros self Hc; simpl.
  - symmetry. apply with_diagnostics_nil.
  - rewrite IH by exact Hc. rewrite append_with_diagnostics.
    rewrite with_diagnostics_app. simpl.
    rewrite (diagnostic_at_content self self0) by exact Hc. reflexivity.
Qed.

Lemma strip_nonempty e : Py.strip e ≠ "" → e ≠ "".
Proof. intros H ->. apply H. reflexivity. Qed.

Lemma truthy_nonempty e : e ≠ "" → Py.truthy e = true.
Proof.
  intros H. unfold Py.truthy. apply negb_true_iff, String.eqb_neq, H.
Qed.

Lemma parse_raise parser msg p' :
  ExpressionParser.expression parser ≠ "" →
  ExpressionParser._parse_expression
    (ExpressionParser.budget (ExpressionParser.expression parser)) parser
  = ExpressionParser.Raise msg p' →
  ExpressionParser.parse parser = Some (false, Some msg, p').
Proof.
  intros Hne E. unfold ExpressionParser.parse.
  rewrite (truthy_nonempty _ Hne). simpl. rewrite E. reflexivity.
Qed.

End Failures.

(** ** What the expression parser leaves untouched *)

Section Frame.
Import ExpressionParser.
Local Open Scope parser_scope.

(** A list-misuse finding: it names a single-element function and a
    declared list element, in one of the two wordings of
    [_check_list_function_call]. *)
Definition list_misuse_message (le : gset string) (msg : string) : Prop :=
  ∃ func_name element,
    element ∈ le
    ∧ (msg = on_list_message func_name element
       ∨ msg = on_list_prefix_message func_name element).

(** One or more steps of the parser: the expression and the context stay,
    the cursor moves forward and stays within the expression if it was, and
    the errors grow by list-misuse findings located between the two
    cursors. *)
Definition advances (p p' : t) : Prop :=
  expression p' = expression p
  ∧ list_elements p' = list_elements p
  ∧ loop_variables p' = loop_variables p
  ∧ pos p ≤ pos p'
  ∧ (pos p ≤ Py.len (expression p) → pos p' ≤ Py.len (expression p))
  ∧ ∃ found,
      errors p' = errors p ++ found
      ∧ Forall (fun e => pos p ≤ e.1 ≤ pos p'
                         ∧ list_misuse_message (list_elements p) e.2) found.

(** A method all of whose outcomes are reached by [advances]. *)
Definition sound {A} (m : M A) : Prop :=
  ∀ p, match m p with
       | Return _ p' => advances p p'
       | Raise _ p' => advances p p'
       | Diverge => True
       end.

Lemma advances_refl p : advances p p.
Proof.
  repeat split; try lia. exists []. split; [symmetry; apply app_nil_r|].
  constructor.
Qed.

Lemma advances_trans p q r : advances p q → advances q r → advances p r.
Proof.
  intros (E1 & L1 & V1 & P1 & B1 & f1 & F1 & H1)
         (E2 & L2 & V2 & P2 & B2 & f2 & F2 & H2).
  repeat split; try congruence; try lia.
  - intros H. rewrite E1 in B2. auto.
  - exists (f1 ++ f2). split; [rewrite F2, F1; symmetry; apply app_assoc|].
    apply Forall_app. split.
    + eapply Forall_impl; [exact H1|]. simpl. intros e [He Hm]. split; [lia|exact Hm].
    + eapply Forall_impl; [exact H2|]. simpl. intros e [He Hm]. split; [lia|].
      rewrite <- L1. exact Hm.
Qed.

Lemma advances_set_pos p q :
  pos p ≤ q → (pos p ≤ Py.len (expression p) → q ≤ Py.len (expression p)) →
  advances p (set_pos q p).
Proof.
  intros H1 H2. repeat split; simpl; try lia; try exact H2.
  exists []. split; [symmetry; apply app_nil_r | constructor].
Qed.

Lemma sound_ret {A} (a : A) : sound (ret a).
Proof. intros p. apply advances_refl. Qed.

Lemma sound_raise {A} msg : sound (@raise A msg).
Proof. intros p. apply advances_refl. Qed.

Lemma sound_get : sound get.
Proof. intros p. apply advances_refl. Qed.

Lemma sound_bind {A B} (m : M A) (k : A → M B) :
  sound m → (∀ a, sound (k a)) → sound (bind m k).
Proof.
  intros Hm Hk p. unfold bind. specialize (Hm p).
  destruct (m p) as [a p'| |]; [|exact Hm|exact I].
  specialize (Hk a p'). destruct (k a p'); [| |exact I];
    eapply advances_trans; eassumption.
Qed.

Lemma sound_while n cond body :
  sound cond → sound body → sound (while n cond body).
Proof.
  intros Hc Hb. induction n as [|n IH]; simpl; [intros p; exact I|].
  apply sound_bind; [exact Hc|]. intros [|]; [|apply sound_ret].
  apply sound_bind; [exact Hb | intros _; exact IH].
Qed.

Lemma scan_from_le f s n i : Py.scan_from f s n i ≤ i + n.
Proof.
  revert i. induction n as [|n IH]; intros i; simpl; [lia|].
  destruct (Py.at_ s i); [|lia]. destruct (f a); [|lia].
  specialize (IH (S i)). lia.
Qed.

(** A scan that starts within the string ends within it. *)
Lemma scan_le f s i : i ≤ Py.len s → Py.scan f s i ≤ Py.len s.
Proof.
  intros H. unfold Py.scan.
  pose proof (scan_from_le f s (Py.len s - i) i). lia.
Qed.

Lemma string_body_le e n i : i ≤ Py.len e → string_body e n i ≤ Py.len e.
Proof.
  revert i. induction n as [|n IH]; intros i H; simpl; [exact H|].
  destruct (Py.at_ e i) as [c|] eqn:E; [|exact H].
  apply at_Some_lt in E.
  destruct (Ascii.eqb c Py.dquote); [exact H|].
  destruct (_ && _) eqn:Hb.
  - apply andb_true_iff in Hb as [_ Hb]. apply Nat.ltb_lt in Hb.
    apply IH. lia.
  - apply IH. lia.
Qed.

Lemma sound_skip_whitespace : sound _skip_whitespace.
Proof.
  intros p. apply advances_set_pos; [apply scan_ge | apply scan_le].
Qed.

Lemma sound_with_state {B} (k : t → M B) :
  (∀ p, match k p p with
        | Return _ p' => advances p p'
        | Raise _ p' => advances p p'
        | Diverge => True
        end) →
  sound (s <- get ;; k s).
Proof. intros H p. unfold bind, get. apply H. Qed.

Lemma sound_modify_pos (f : t → nat) :
  (∀ p, pos p ≤ f p) →
  (∀ p, pos p ≤ Py.len (expression p) → f p ≤ Py.len (expression p)) →
  sound (modify (fun s => set_pos (f s) s)).
Proof. intros H1 H2 p. apply advances_set_pos; [apply H1 | apply H2]. Qed.

Lemma sound_match ch : sound (_match ch).
Proof.
  unfold _match. apply sound_bind; [apply sound_skip_whitespace|].
  intros _. apply sound_with_state. intros p.
  destruct (Py.at_ (expression p) (pos p)) as [c|] eqn:E;
    [|apply advances_refl].
  destruct (Ascii.eqb c ch); [|apply advances_refl].
  apply at_Some_lt in E. unfold bind, modify, ret.
  apply advances_set_pos; lia.
Qed.

Lemma slice_full_length s i n op :
  Py.slice s i (i + n) = op → Py.len op = n → i + n ≤ Py.len s ∨ n = 0.
Proof.
  unfold Py.slice, Py.len. replace (i + n - i) with n by lia.
  intros <-. revert i n. induction s as [|a s IH]; intros i n H.
  - destruct i, n; simpl in H; try (right; reflexivity); discriminate H.
  - destruct i as [|i].
    + destruct n as [|n]; [right; reflexivity|]. simpl in H.
      injection H as H. destruct (IH 0 n) as [Hl| ->].
      * destruct n; simpl in *; exact H.
      * left. simpl in *. lia.
      * left. simpl. lia.
    + simpl in H. destruct (IH i n H) as [Hl|Hn]; [left; simpl; lia|right; exact Hn].
Qed.

Lemma sound_match_operator op : sound (_match_operator op).
Proof.
  unfold _match_operator. apply sound_bind; [apply sound_skip_whitespace|].
  intros _. apply sound_with_state. intros p.
  destruct (_ <? _) eqn:E1; simpl; [|apply advances_refl].
  destruct (String.eqb _ _) eqn:E2; [|apply advances_refl].
  apply String.eqb_eq in E2. apply Nat.ltb_lt in E1.
  unfold bind, modify, ret.
  apply advances_set_pos; [lia|]. intros _.
  destruct (slice_full_length _ _ _ _ E2 eq_refl) as [H|H]; lia.
Qed.

Lemma sound_first_matching ops : sound (first_matching ops).
Proof.
  induction ops as [|op ops IH]; simpl; [apply sound_ret|].
  apply sound_bind; [apply sound_match_operator|].
  intros [|]; [apply sound_ret | exact IH].
Qed.

Lemma sound_match_any_operator ops : sound (_match_any_operator ops).
Proof. apply sound_first_matching. Qed.

Lemma sound_expect ch : sound (_expect ch).
Proof.
  unfold _expect. apply sound_bind; [apply sound_skip_whitespace|].
  intros _. apply sound_with_state. intros p.
  destruct (Py.at_ (expression p) (pos p)) as [c|] eqn:E;
    [|apply advances_refl].
  destruct (Ascii.eqb c ch); [|apply advances_refl].
  apply at_Some_lt in E. apply advances_set_pos; lia.
Qed.

Lemma sound_parse_identifier : sound _parse_identifier.
Proof.
  unfold _parse_identifier. apply sound_bind; [apply sound_skip_whitespace|].
  intros _. apply sound_with_state. intros p.
  destruct (Py.at_ (expression p) (pos p)) as [c|] eqn:E;
    [|apply advances_refl].
  destruct (Py.isword c); [|apply advances_refl].
  unfold bind, modify, ret.
  apply advances_set_pos; [apply scan_ge | apply scan_le].
Qed.

Lemma sound_parse_string_literal : sound _parse_string_literal.
Proof.
  unfold _parse_string_literal.
  apply sound_bind; [apply sound_expect|]. intros _.
  apply sound_bind; [|intros _; apply sound_expect].
  apply sound_modify_pos; intros p.
  - apply string_body_ge.
  - apply string_body_le.
Qed.

Lemma sound_parse_number_literal : sound _parse_number_literal.
Proof.
  apply sound_modify_pos; intros p; [apply scan_ge | apply scan_le].
Qed.

Lemma advances_add_error p msg :
  list_misuse_message (list_elements p) msg →
  advances p (add_error (pos p, msg) p).
Proof.
  intros H. repeat split; simpl; try lia.
  exists [(pos p, msg)]. split; [reflexivity|].
  constructor; [|constructor]. simpl. split; [lia | exact H].
Qed.

Lemma sound_check_list_function_call element_path func_name :
  sound (_check_list_function_call element_path func_name).
Proof.
  unfold _check_list_function_call. apply sound_with_state. intros p.
  destruct (bool_decide _) eqn:E.
  - apply bool_decide_eq_true_1 in E. apply advances_add_error.
    exists func_name, element_path. split; [exact E | left; reflexivity].
  - destruct (List.find _ _) as [prefix|] eqn:F; [|apply advances_refl].
    apply List.find_some in F as [_ F]. apply bool_decide_eq_true_1 in F.
    apply advances_add_error.
    exists func_name, prefix. split; [exact F | right; reflexivity].
Qed.

Lemma sound_check_call chain : sound (check_call chain).
Proof.
  unfold check_call. destruct (call_receiver chain), (last chain);
    try apply sound_ret. apply sound_check_list_function_call.
Qed.

Definition all_sound (fuel : nat) : Prop :=
  sound (_parse_expression fuel)
  ∧ sound (_parse_or_expression fuel)
  ∧ sound (_parse_and_expression fuel)
  ∧ sound (_parse_comparison_expression fuel)
  ∧ sound (_parse_additive_expression fuel)
  ∧ sound (_parse_multiplicative_expression fuel)
  ∧ sound (_parse_unary_expression fuel)
  ∧ sound (_parse_postfix_expression fuel)
  ∧ (∀ chain, sound (postfix_loop fuel chain))
  ∧ sound (_parse_primary_expression fuel)
  ∧ sound (_parse_function_arguments fuel).

Lemma sound_diverge {A} : sound (@diverge A).
Proof. intros p. exact I. Qed.

Lemma all_sound_holds fuel : all_sound fuel.
Proof.
  induction fuel as [|f IH].
  - repeat split; try intros chain; apply sound_diverge.
  - destruct IH as (IHe & IHor & IHand & IHcmp & IHadd & IHmul & IHun
                    & IHpost & IHloop & IHprim & IHargs).
    repeat apply conj.
    + exact IHor.
    + rewrite parse_or_expression_S.
      apply sound_bind; [exact IHand|]. intros _.
      apply sound_while; [apply sound_match_operator | exact IHand].
    + rewrite parse_and_expression_S.
      apply sound_bind; [exact IHcmp|]. intros _.
      apply sound_while; [apply sound_match_operator | exact IHcmp].
    + rewrite parse_comparison_expression_S.
      apply sound_bind; [exact IHadd|]. intros _.
      apply sound_while; [apply sound_match_any_operator | exact IHadd].
    + rewrite parse_additive_expression_S.
      apply sound_bind; [exact IHmul|]. intros _.
      apply sound_while; [apply sound_match_any_operator | exact IHmul].
    + rewrite parse_multiplicative_expression_S.
      apply sound_bind; [exact IHun|]. intros _.
      apply sound_while; [apply sound_match_any_operator | exact IHun].
    + rewrite parse_unary_expression_S.
      apply sound_bind; [apply sound_match_operator|]. intros [|];
        [exact IHun|].
      apply sound_bind; [exact IHpost | intros _; apply sound_ret].
    + rewrite parse_postfix_expression_S.
      apply sound_bind; [exact IHprim | intros base; apply IHloop].
    + intros chain. rewrite postfix_loop_S.
      apply sound_bind; [apply sound_match|]. intros [|].
      { apply sound_bind; [exact IHargs|]. intros _.
        apply sound_bind; [apply sound_expect|]. intros _.
        apply sound_bind; [apply sound_check_call|]. intros _. apply IHloop. }
      apply sound_bind; [apply sound_match|]. intros [|].
      { apply sound_bind; [exact IHe|]. intros _.
        apply sound_bind; [apply sound_expect|]. intros _. apply IHloop. }
      apply sound_bind; [apply sound_match|]. intros [|]; [|apply sound_ret].
      apply sound_bind; [apply sound_parse_identifier|]. intros member.
      apply IHloop.
    + simpl. apply sound_bind; [apply sound_skip_whitespace|]. intros _.
      apply sound_with_state. intros p.
      destruct (Py.at_ _ _) as [c|]; [|apply advances_refl].
      destruct (Ascii.eqb c Py.dquote).
      { apply (sound_bind _ _ sound_parse_string_literal).
        intros _. apply sound_ret. }
      destruct (Py.isdigit c).
      { apply (sound_bind _ _ sound_parse_number_literal).
        intros _. apply sound_ret. }
      destruct (Ascii.eqb c "(").
      * apply (sound_bind _ _ (sound_match "(")). intros _.
        apply sound_bind; [exact IHe|]. intros _.
        apply sound_bind; [apply sound_expect|]. intros _. apply sound_ret.
      * apply (sound_bind _ _ sound_parse_identifier). intros id.
        apply sound_ret.
    + simpl. apply sound_bind; [apply sound_skip_whitespace|]. intros _.
      apply sound_with_state. intros p.
      destruct (Py.at_ _ _) as [c|]; [|apply advances_refl].
      destruct (negb _); [|apply advances_refl].
      apply (sound_bind _ _ IHe). intros _.
      apply sound_while; [apply sound_match | exact IHe].
Qed.

(** Where [ExpressionParser.parse] leaves the parser object: the stripped
    expression and the context are as [__init__] set them, the cursor is
    within the expression, and every recorded error is a list-misuse
    finding about a declared list element, located at or before the
    cursor. *)
Theorem parse_frame expression0 le lv is_valid error_msg p' :
  parse (__init__ expression0 le lv) = Some (is_valid, error_msg, p') →
  expression p' = Py.strip expression0
  ∧ list_elements p' = le
  ∧ loop_variables p' = lv
  ∧ pos p' ≤ Py.len (Py.strip expression0)
  ∧ Forall (fun e => e.1 ≤ pos p' ∧ list_misuse_message le e.2) (errors p').
Proof.
  unfold parse. destruct (negb _).
  - intros [= _ _ <-]. simpl. repeat split; try lia. constructor.
  - pose proof (all_sound_holds (budget (expression (__init__ expression0 le lv))))
      as (H & _).
    specialize (H (__init__ expression0 le lv)).
    assert (Hadv : ∀ q, advances (__init__ expression0 le lv) q →
      expression q = Py.strip expression0 ∧ list_elements q = le
      ∧ loop_variables q = lv ∧ pos q ≤ Py.len (Py.strip expression0)
      ∧ Forall (fun e => e.1 ≤ pos q ∧ list_misuse_message le e.2) (errors q)).
    { intros q (E & L & V & P & B & found & F & Hf). simpl in *.
      repeat split; auto; [apply B; lia|].
      rewrite F. simpl. eapply Forall_impl; [exact Hf|]. simpl.
      intros e [He Hm]. split; [lia | exact Hm]. }
    destruct (_parse_expression _ _) as [[] q|msg q|]; [| |discriminate].
    + destruct (errors q) eqn:Eq; intros [= _ _ <-]; apply Hadv, H.
    + intros [= _ _ <-]. apply Hadv, H.
Qed.

Lemma parse_frame_witness :
  ∃ p', parse (__init__ " items.selectedValue() + " {["items"]} ∅)
        = Some (false, Some "Unexpected end of expression", p')
        ∧ expression p' = "items.selectedValue() +"
        ∧ pos p' ≤ 23
        ∧ length (errors p') = 1.
Proof.
  assert (E : ∃ p', parse (__init__ " items.selectedValue() + " {["items"]} ∅)
                    = Some (false, Some "Unexpected end of expression", p')
                    ∧ length (errors p') = 1).
  { vm_compute. eexists. split; reflexivity. }
  destruct E as (p' & E & L).
  destruct (parse_frame _ _ _ _ _ _ E) as (He & _ & _ & Hp & _).
  exists p'. repeat split; assumption.
Defined.

(** With no list element declared the parser records no error at all, so
    [parse] fails on structural grounds only. *)
Theorem parse_without_lists expression0 lv is_valid error_msg p' :
  parse (__init__ expression0 ∅ lv) = Some (is_valid, error_msg, p') →
  errors p' = [].
Proof.
  intros H. apply parse_frame in H as (_ & _ & _ & _ & H).
  destruct (errors p') as [|e l]; [reflexivity|].
  apply Forall_inv in H as [_ (f & x & Hx & _)].
  apply not_elem_of_empty in Hx. destruct Hx.
Qed.

Lemma parse_without_lists_witness :
  ∃ p', parse (__init__ "items.selectedValue()" ∅ ∅) = Some (true, None, p')
        ∧ errors p' = [].
Proof.
  assert (E : ∃ p', parse (__init__ "items.selectedValue()" ∅ ∅)
                    = Some (true, None, p')).
  { vm_compute. eexists. reflexivity. }
  destruct E as (p' & E). exists p'. split; [exact E|].
  exact (parse_without_lists _ _ _ _ _ E).
Defined.

End Frame.

(** ** How [finditer] walks a string *)

Section Finditer.

(** A pattern that reports where it was tried, consumes at least one
    character and stays within the string. *)
Definition anchored (p : Re.pattern) : Prop :=
  ∀ s j m, p s j = Some m →
           Re.m_start m = j ∧ j < Re.m_end m ∧ Re.m_end m ≤ Py.len s.

(** Matches in increasing order, none starting before [i] and none
    overlapping the one before it. *)
Fixpoint separated (i : nat) (l : list Re.Match) : Prop :=
  match l with
  | [] => True
  | m :: l' =>
      i ≤ Re.m_start m ∧ Re.m_start m < Re.m_end m
      ∧ separated (Re.m_end m) l'
  end.

Lemma is_char_lt c s i : Re.is_char c s i = true → i < Py.len s.
Proof.
  unfold Re.is_char. destruct (Py.at_ s i) eqn:E; [|discriminate].
  intros _. eapply at_Some_lt, E.
Qed.

Lemma anchored_percent_span : anchored Re.percent_span.
Proof.
  intros s j m. unfold Re.percent_span.
  destruct (Re.is_char "%" s j); [|discriminate].
  destruct (Re.is_char "%" s (Py.scan _ s (j + 1))) eqn:E; [|discriminate].
  intros [= <-]. simpl. apply is_char_lt in E.
  pose proof (scan_ge (Re.other_than "%") s (j + 1)). lia.
Qed.

Lemma anchored_wr_tag : anchored Re.wr_tag.
Proof.
  intros s j m. unfold Re.wr_tag.
  destruct (Re.lit_at _ s j); [|discriminate].
  destruct (_ <? _); [|discriminate].
  destruct (Re.is_char ">" s _) eqn:E; [|discriminate].
  intros [= <-]. simpl. apply is_char_lt in E.
  pose proof (scan_ge Py.isword s (j + 4)).
  pose proof (scan_ge (Re.other_than ">") s (Py.scan Py.isword s (j + 4))).
  lia.
Qed.

Lemma anchored_wr_for_tag : anchored Re.wr_for_tag.
Proof.
  intros s j m. unfold Re.wr_for_tag.
  destruct (Re.lit_at _ s j); [|discriminate].
  destruct (_ <? _); [|discriminate].
  destruct (Re.is_char ">" s _) eqn:E; [|discriminate].
  intros [= <-]. simpl. apply is_char_lt in E.
  pose proof (scan_ge Py.isspace s (j + 7)).
  pose proof (scan_ge (Re.other_than ">") s (Py.scan Py.isspace s (j + 7))).
  lia.
Qed.

Lemma anchored_wr_open : anchored Re.wr_open.
Proof.
  intros s j m. unfold Re.wr_open.
  destruct (Re.lit_at _ s j); [|discriminate].
  destruct (_ <? _); [|discriminate].
  destruct (Py.at_ s _) as [x|] eqn:E; [|discriminate].
  destruct (_ || _); [|discriminate].
  intros [= <-]. simpl. apply at_Some_lt in E.
  pose proof (scan_ge Py.isword s (j + 4)). lia.
Qed.

Lemma anchored_wr_close : anchored Re.wr_close.
Proof.
  intros s j m. unfold Re.wr_close.
  destruct (Re.lit_at _ s j); [|discriminate].
  destruct (_ && _) eqn:E; [|discriminate].
  apply andb_true_iff in E as [_ E].
  intros [= <-]. simpl. apply is_char_lt in E.
  pose proof (scan_ge Py.isword s (j + 5)). lia.
Qed.

Lemma attr_with_bounds q s i e name value :
  Re.attr_with q s i = Some (e, name, value) → i < e ∧ e ≤ Py.len s.
Proof.
  unfold Re.attr_with. destruct (_ && _ && _); [|discriminate].
  destruct (Re.is_char q s (Py.scan _ s _)) eqn:E; [|discriminate].
  intros [= <- _ _]. apply is_char_lt in E.
  pose proof (scan_ge Py.isword s i).
  pose proof (scan_ge (Re.other_than q) s (Py.scan Py.isword s i + 2)). lia.
Qed.

Lemma anchored_attr : anchored Re.attr.
Proof.
  intros s j m. unfold Re.attr.
  destruct (Re.attr_with "'" s j) as [[[e name] value]|] eqn:E1.
  - intros [= <-]. simpl. apply attr_with_bounds in E1. lia.
  - destruct (Re.attr_with Py.dquote s j) as [[[e name] value]|] eqn:E2;
      [|discriminate].
    intros [= <-]. simpl. apply attr_with_bounds in E2. lia.
Qed.

Lemma anchored_quoted_attr name : anchored (Re.quoted_attr name).
Proof.
  intros s j m. unfold Re.quoted_attr.
  destruct (Re.lit_at _ s j); [|discriminate].
  destruct (Py.at_ s (j + Py.len name + 1)) as [x|]; [|discriminate].
  destruct (Re.is_quote x); [|discriminate].
  destruct (_ <? _); [|discriminate].
  destruct (Py.at_ s (Py.scan _ s _)) as [y|] eqn:E; [|discriminate].
  destruct (Re.is_quote y); [|discriminate].
  intros [= <-]. simpl. apply at_Some_lt in E.
  pose proof (scan_ge (fun c => negb (Re.is_quote c)) s (j + Py.len name + 1 + 1)).
  lia.
Qed.

Lemma finditer_from_separated p s n i :
  anchored p →
  separated i (Re.finditer_from p s n i)
  ∧ Forall (fun m => p s (Re.m_start m) = Some m ∧ Re.m_end m ≤ Py.len s)
      (Re.finditer_from p s n i).
Proof.
  intros Hp. revert i. induction n as [|n IH]; intros i; simpl.
  - split; [exact I | constructor].
  - destruct (p s i) as [m|] eqn:E.
    + destruct (Hp _ _ _ E) as (Hs & Hlt & Hle).
      destruct (IH (Re.m_end m)) as [IH1 IH2]. split.
      * simpl. repeat split; [lia | lia | exact IH1].
      * constructor; [|exact IH2]. rewrite Hs. split; [exact E | exact Hle].
    + destruct (IH (S i)) as [IH1 IH2]. split; [|exact IH2].
      destruct (Re.finditer_from p s n (S i)) as [|m l]; [exact I|].
      simpl in *. destruct IH1 as (H1 & H2 & H3). repeat split; [lia|lia|exact H3].
Qed.

Lemma finditer_from_covers p s n i j m :
  anchored p →
  Py.len s + 1 ≤ i + n → i ≤ j → p s j = Some m →
  ∃ m', In m' (Re.finditer_from p s n i)
        ∧ Re.m_start m' ≤ j < Re.m_end m'.
Proof.
  intros Hp. revert i. induction n as [|n IH]; intros i Hn Hj Hm.
  - destruct (Hp _ _ _ Hm) as (_ & H1 & H2). lia.
  - simpl. destruct (p s i) as [m0|] eqn:E.
    + destruct (Hp _ _ _ E) as (Hs & Hlt & Hle).
      destruct (Nat.lt_ge_cases j (Re.m_end m0)) as [Hin|Hout].
      * exists m0. split; [left; reflexivity | lia].
      * destruct (IH (Re.m_end m0)) as (m' & Hin' & Hc); [lia|lia|exact Hm|].
        exists m'. split; [right; exact Hin' | exact Hc].
    + assert (j ≠ i) by (intros ->; congruence).
      destruct (IH (S i)) as (m' & Hin' & Hc); [lia|lia|exact Hm|].
      exists m'. split; [exact Hin' | exact Hc].
Qed.

(** The seven patterns of the template parser are anchored.  For an
    anchored pattern, [finditer] reports matches of the pattern in
    increasing order, each within the string and none overlapping the one
    before; and every offset at which the pattern matches lies inside a
    reported match, so an occurrence is passed over only when it overlaps a
    reported one. *)
Theorem finditer_leftmost_non_overlapping :
  (anchored Re.percent_span ∧ anchored Re.wr_tag ∧ anchored Re.wr_for_tag
   ∧ anchored Re.wr_open ∧ anchored Re.wr_close ∧ anchored Re.attr
   ∧ ∀ name, anchored (Re.quoted_attr name))
  ∧ ∀ p s,
      anchored p →
      separated 0 (Re.finditer p s)
      ∧ Forall (fun m => p s (Re.m_start m) = Some m
                         ∧ Re.m_end m ≤ Py.len s) (Re.finditer p s)
      ∧ ∀ j m, p s j = Some m →
               ∃ m', In m' (Re.finditer p s)
                     ∧ Re.m_start m' ≤ j < Re.m_end m'.
Proof.
  split.
  - split; [apply anchored_percent_span|].
    split; [apply anchored_wr_tag|].
    split; [apply anchored_wr_for_tag|].
    split; [apply anchored_wr_open|].
    split; [apply anchored_wr_close|].
    split; [apply anchored_attr | apply anchored_quoted_attr].
  - intros p s Hp. unfold Re.finditer.
    destruct (finditer_from_separated p s (Py.len s + 1) 0 Hp) as [H1 H2].
    split; [exact H1|]. split; [exact H2|].
    intros j m Hm. eapply finditer_from_covers; [exact Hp|lia|lia|exact Hm].
Qed.

Lemma finditer_leftmost_non_overlapping_witness :
  separated 0 (Re.finditer Re.percent_span "%a%b%c%")
  ∧ ∃ m', In m' (Re.finditer Re.percent_span "%a%b%c%")
          ∧ Re.m_start m' ≤ 2 < Re.m_end m'.
Proof.
  destruct finditer_leftmost_non_overlapping as [(Hp & _) H].
  destruct (H Re.percent_span "%a%b%c%" Hp) as (H1 & _ & H3).
  split; [exact H1|].
  apply (H3 2 (Re.mkMatch 2 5 [Some (3, "b")])). vm_compute. reflexivity.
Defined.

End Finditer.

(** ** Documents and expressions with nothing to report *)

Section Nothing.
Import TemplateParser.

Lemma finditer_from_none p s n i :
  (∀ j, p s j = None) → Re.finditer_from p s n i = [].
Proof.
  intros H. revert i. induction n as [|n IH]; intros i; simpl; [reflexivity|].
  rewrite H. apply IH.
Qed.

Lemma finditer_none p s : (∀ j, p s j = None) → Re.finditer p s = [].
Proof. apply finditer_from_none. Qed.

(** A literal found at an offset shows its first character there. *)
Lemma lit_at_head c rest s j :
  Re.lit_at (String c rest) s j = true → Py.at_ s j = Some c.
Proof.
  unfold Re.lit_at, Py.slice, Py.at_. intros H. apply String.eqb_eq in H.
  replace (j + Py.len (String c rest) - j) with (S (Py.len rest)) in H
    by (simpl; lia).
  revert j H. induction s as [|a s IH]; intros j H.
  - destruct j; discriminate H.
  - destruct j as [|j]; simpl in *.
    + injection H as -> _. reflexivity.
    + apply IH, H.
Qed.

Lemma lit_at_absent c rest s j :
  absent c s → Re.lit_at (String c rest) s j = false.
Proof.
  intros H. destruct (Re.lit_at _ s j) eqn:E; [|reflexivity].
  apply lit_at_head in E. destruct (H _ E).
Qed.

Lemma is_char_absent c s j : absent c s → Re.is_char c s j = false.
Proof.
  intros H. unfold Re.is_char. destruct (Py.at_ s j) as [x|] eqn:E;
    [|reflexivity].
  destruct (Ascii.eqb x c) eqn:Hx; [|reflexivity].
  apply Ascii.eqb_eq in Hx. subst x. destruct (H _ E).
Qed.

(** [c in s] being false shows that [c] does not occur in [s]. *)
Lemma contains_absent c s :
  Py.contains (String c EmptyString) s = false → absent c s.
Proof.
  induction s as [|a s IH]; intros H; [apply absent_empty|].
  simpl in H. apply orb_false_iff in H as [H1 H2].
  apply absent_cons; [|apply IH, H2].
  intros ->. destruct (ascii_dec c c) as [_|Hne]; [|congruence].
  destruct s; discriminate H1.
Qed.

(** A document with no [%] and no [<] yields no diagnostics, and [parse]
    leaves the parser object as [__init__] made it. *)
Theorem plain_text_has_no_diagnostics (doc : string) :
  absent "%" doc → absent "<" doc →
  parse (__init__ doc) = Some ([], __init__ doc).
Proof.
  intros Hp Hl. unfold parse, _collect_list_elements, _validate_expressions,
    _validate_tags, _validate_tag_closures, tag_events.
  cbn [content __init__].
  rewrite (finditer_none Re.wr_for_tag doc)
    by (intros j; unfold Re.wr_for_tag; rewrite lit_at_absent by exact Hl;
        reflexivity).
  cbn [fold_left content].
  rewrite (finditer_none Re.percent_span doc)
    by (intros j; unfold Re.percent_span; rewrite is_char_absent by exact Hp;
        reflexivity).
  cbn [for_each mbind option_bind content].
  rewrite (finditer_none Re.wr_tag doc)
    by (intros j; unfold Re.wr_tag; rewrite lit_at_absent by exact Hl;
        reflexivity).
  cbn [for_each mbind option_bind content].
  rewrite (finditer_none Re.wr_open doc)
    by (intros j; unfold Re.wr_open; rewrite lit_at_absent by exact Hl;
        reflexivity).
  rewrite (finditer_none Re.wr_close doc)
    by (intros j; unfold Re.wr_close; rewrite lit_at_absent by exact Hl;
        reflexivity).
  reflexivity.
Qed.

Lemma plain_text_has_no_diagnostics_witness :
  parse (__init__ "Hello, world > 3") = Some ([], __init__ "Hello, world > 3").
Proof.
  apply plain_text_has_no_diagnostics;
    apply contains_absent; vm_compute; reflexivity.
Defined.

End Nothing.

(** ** Lines and columns *)

Section LineColumn.
Import TemplateParser.

(** One step of the loop of [_get_line_column]. *)
Definition line_column_step : nat * nat → ascii → nat * nat :=
  fun '(line, column) c =>
    if Ascii.eqb c Py.newline then (line + 1, 0) else (line, column + 1).

Lemma get_line_column_fold self pos :
  _get_line_column self pos
  = fold_left line_column_step
      (take (Z.to_nat (Z.min pos (Z.of_nat (Py.len (content self)))))
         (list_ascii_of_string (content self)))
      (0, 0).
Proof. reflexivity. Qed.

Lemma fold_line_column_no_newline l line column :
  ¬ In Py.newline l →
  fold_left line_column_step l (line, column) = (line, column + length l).
Proof.
  revert column. induction l as [|c l IH]; intros column H; simpl.
  - f_equal; lia.
  - destruct (Ascii.eqb c Py.newline) eqn:E.
    + apply Ascii.eqb_eq in E. subst c. destruct H. left. reflexivity.
    + rewrite IH by (intros Hin; apply H; right; exact Hin). f_equal; lia.
Qed.

Lemma fold_line_column_last_newline before after line column :
  ¬ In Py.newline after →
  fold_left line_column_step (before ++ Py.newline :: after) (line, column)
  = (line + S (count_occ ascii_dec before Py.newline), length after).
Proof.
  intros H. revert line column.
  induction before as [|c before IH]; intros line column; simpl.
  - rewrite fold_line_column_no_newline by exact H. f_equal; lia.
  - destruct (Ascii.eqb c Py.newline) eqn:E.
    + apply Ascii.eqb_eq in E. subst c. rewrite IH.
      destruct (ascii_dec Py.newline Py.newline) as [_|Hne]; [|congruence].
      f_equal; lia.
    + apply Ascii.eqb_neq in E. rewrite IH.
      destruct (ascii_dec c Py.newline) as [Heq|_]; [congruence|].
      reflexivity.
Qed.

Lemma fold_line_column_sum l line column :
  let '(line', column') := fold_left line_column_step l (line, column) in
  line' + column' ≤ line + column + length l.
Proof.
  revert line column. induction l as [|c l IH]; intros line column; simpl.
  - lia.
  - destruct (Ascii.eqb c Py.newline).
    + specialize (IH (line + 1) 0).
      destruct (fold_left _ l _) as [l' c']. lia.
    + specialize (IH line (column + 1)).
      destruct (fold_left _ l _) as [l' c']. lia.
Qed.

(** [_get_line_column] looks at the first [min(pos, len(content))]
    characters of the document (none when [pos] is negative).  If they hold
    no newline, the result is line 0 and as many columns as characters; if
    their last newline is preceded by [before] and followed by [after], the
    line is one more than the newlines of [before] and the column is the
    length of [after]. *)
Theorem get_line_column_characterised (self : t) (pos : Z) :
  let prefix :=
    take (Z.to_nat (Z.min pos (Z.of_nat (Py.len (content self)))))
      (list_ascii_of_string (content self)) in
  (¬ In Py.newline prefix →
   _get_line_column self pos = (0, length prefix))
  ∧ (∀ before after,
       prefix = before ++ Py.newline :: after →
       ¬ In Py.newline after →
       _get_line_column self pos
       = (S (count_occ ascii_dec before Py.newline), length after))
  ∧ ((pos ≤ 0)%Z → _get_line_column self pos = (0, 0))
  ∧ ((Z.of_nat (Py.len (content self)) ≤ pos)%Z →
     _get_line_column self pos
     = _get_line_column self (Z.of_nat (Py.len (content self)))).
Proof.
  intros prefix. rewrite get_line_column_fold. fold prefix.
  split; [|split; [|split]].
  - intros H. rewrite fold_line_column_no_newline by exact H. reflexivity.
  - intros before after E H. rewrite E.
    rewrite fold_line_column_last_newline by exact H. reflexivity.
  - intros H. subst prefix.
    replace (Z.to_nat _) with 0 by lia. reflexivity.
  - intros H. rewrite get_line_column_fold. subst prefix.
    do 2 f_equal; lia.
Qed.

Lemma get_line_column_characterised_witness :
  _get_line_column (__init__ "ab
cd
efg") 7 = (2, 1).
Proof.
  destruct (get_line_column_characterised (__init__ "ab
cd
efg") 7) as (_ & H & _).
  apply (H ["a"; "b"; Py.newline; "c"; "d"]%char ["e"]%char).
  - vm_compute. reflexivity.
  - vm_compute. intros [H1|[]]. discriminate H1.
Defined.

(** Line and column never add up to more than the document has
    characters. *)
Lemma get_line_column_within self pos :
  let '(line, column) := _get_line_column self pos in
  line + column ≤ Py.len (content self).
Proof.
  rewrite get_line_column_fold.
  pose proof (fold_line_column_sum
                (take (Z.to_nat (Z.min pos (Z.of_nat (Py.len (content self)))))
                   (list_ascii_of_string (content self))) 0 0) as H.
  destruct (fold_left _ _ _) as [l c].
  rewrite length_take in H.
  assert (length (list_ascii_of_string (content self)) = Py.len (content self)).
  { unfold Py.len. generalize (content self). intros s.
    induction s as [|a s IH]; simpl; [reflexivity | rewrite IH; reflexivity]. }
  lia.
Qed.

End LineColumn.

(** ** The result, pass by pass *)

Section PassOrder.
Import TemplateParser.

(** The result of [parse] is the diagnostics of the expression pass,
    followed by those of the tag pass, followed by those of the closure
    pass; it is not ordered by position in the document. *)
Theorem parse_in_pass_order (self : t) :
  ∃ of_expressions of_tags of_closures self',
    parse self = Some (of_expressions ++ of_tags ++ of_closures, self')
    ∧ Forall (expression_diagnostic "expr-error") of_expressions
    ∧ Forall tag_diagnostic of_tags
    ∧ Forall closure_diagnostic of_closures.
Proof.
  unfold parse.
  set (s0 := {| content := content self; diagnostics := [];
                list_elements := ∅; loop_variables := ∅ |}).
  destruct (collect_list_elements_keeps s0) as [C1 D1].
  set (s1 := _collect_list_elements s0) in *.
  destruct (emits_for_each _ validate_expression
              (Re.finditer Re.percent_span (content s1)) s1
              validate_expression_emits) as (s2 & E2 & _ & ds2 & D2 & F2).
  unfold _validate_expressions. rewrite E2. simpl.
  destruct (emits_for_each _ validate_tag
              (Re.finditer Re.wr_tag (content s2)) s2
              validate_tag_emits) as (s3 & E3 & _ & ds3 & D3 & F3).
  unfold _validate_tags. rewrite E3. simpl.
  destruct (validate_tag_closures_emits s3) as (_ & ds4 & D4 & F4).
  exists ds2, ds3, ds4, (_validate_tag_closures s3).
  split; [|auto]. rewrite D4, D3, D2, D1. simpl.
  rewrite <- app_assoc. reflexivity.
Qed.

Lemma parse_out_of_document_order :
  ∃ d1 d2 self',
    parse (__init__ "<wr-foo></wr-foo>%(%") = Some ([d1; d2], self')
    ∧ code d1 = Some "expr-error" ∧ character (start (range d1)) = 17
    ∧ code d2 = Some "unknown-tag" ∧ character (start (range d2)) = 0.
Proof. vm_compute. eexists _, _, _. repeat split. Qed.

End PassOrder.

(** ** Where diagnostics point *)

Section Ranges.
Import TemplateParser.

(** A diagnostic built by [diagnostic_at] over the document [doc]. *)
Definition built_over (doc : string) (d : Diagnostic) : Prop :=
  ∃ self pos width sev msg c,
    content self = doc ∧ d = diagnostic_at self pos width sev msg c.

Lemma built_diagnostic_at self pos width sev msg c :
  built_over (content self) (diagnostic_at self pos width sev msg c).
Proof. exists self, pos, width, sev, msg, c. split; reflexivity. Qed.

Lemma emits_built_append self d s :
  content s = content self → built_over (content s) d →
  emits (built_over (content self)) s (append d s).
Proof. intros E H. apply emits_append. rewrite <- E. exact H. Qed.

Lemma emits_content P s s' : emits P s s' → content s' = content s.
Proof. intros [(C & _) _]. exact C. Qed.

Lemma emits_report_errors doc pos width c (errors : list (nat * string)) s :
  content s = doc →
  emits (built_over doc) s
    (fold_left
       (fun self '(error_pos, error_msg) =>
          append (diagnostic_at self pos width 1 error_msg c) self)
       errors s).
Proof.
  revert s. induction errors as [|[p m] errors IH]; intros s Hs; simpl.
  - apply emits_refl.
  - eapply emits_trans; [|apply IH; exact Hs].
    apply emits_append. rewrite <- Hs. apply built_diagnostic_at.
Qed.

Lemma validate_expression_built doc s m :
  content s = doc →
  ∃ s', validate_expression s m = Some s' ∧ emits (built_over doc) s s'.
Proof.
  intros Hs. unfold validate_expression.
  destruct (String.eqb _ _).
  { exists s. split; [reflexivity | apply emits_refl]. }
  destruct (parse_returns
              (ExpressionParser.__init__ (Re.group_str m 1)
                 (list_elements s) (dom (loop_variables s))))
    as [[[is_valid error_msg] parser] E].
  rewrite E. simpl. eexists. split; [reflexivity|].
  eapply emits_trans; [|apply emits_report_errors].
  - destruct is_valid; simpl; [apply emits_refl|].
    apply emits_append. rewrite <- Hs. apply built_diagnostic_at.
  - destruct is_valid; exact Hs.
Qed.

Lemma validate_attribute_built doc tag_name start_pos s m :
  content s = doc →
  ∃ s', validate_attribute tag_name start_pos s m = Some s'
        ∧ emits (built_over doc) s s'.
Proof.
  intros Hs. unfold validate_attribute.
  destruct (attribute_of m) as [attr_name attr_value].
  set (s1 := if bool_decide _ then s else _).
  assert (H1 : emits (built_over doc) s s1).
  { subst s1. destruct (bool_decide _); [apply emits_refl|].
    apply emits_append. rewrite <- Hs. apply built_diagnostic_at. }
  assert (Hs1 : content s1 = doc).
  { rewrite (emits_content _ _ _ H1). exact Hs. }
  destruct (_ && _).
  2:{ exists s1. split; [reflexivity | exact H1]. }
  destruct (parse_returns
              (ExpressionParser.__init__ attr_value
                 (list_elements s1) (dom (loop_variables s1))))
    as [[[is_valid error_msg] parser] E].
  rewrite E. simpl. eexists. split; [reflexivity|].
  eapply emits_trans; [exact H1|].
  eapply emits_trans; [|apply emits_report_errors].
  - destruct is_valid; simpl; [apply emits_refl|].
    apply emits_append. rewrite <- Hs1. apply built_diagnostic_at.
  - destruct is_valid; exact Hs1.
Qed.

Lemma for_each_built {A} doc (body : t → A → option t) l s :
  (∀ s x, content s = doc →
          ∃ s', body s x = Some s' ∧ emits (built_over doc) s s') →
  content s = doc →
  ∃ s', for_each body l s = Some s' ∧ emits (built_over doc) s s'.
Proof.
  intros Hb. revert s. induction l as [|x l IH]; intros s Hs; simpl.
  - exists s. split; [reflexivity | apply emits_refl].
  - destruct (Hb s x Hs) as (s1 & E1 & H1). rewrite E1. simpl.
    destruct (IH s1) as (s2 & E2 & H2).
    { rewrite (emits_content _ _ _ H1). exact Hs. }
    exists s2. split; [exact E2 | eapply emits_trans; eassumption].
Qed.

Lemma validate_tag_built doc s m :
  content s = doc →
  ∃ s', validate_tag s m = Some s' ∧ emits (built_over doc) s s'.
Proof.
  intros Hs. unfold validate_tag. destruct (bool_decide _).
  - apply for_each_built; [|exact Hs].
    intros s' x Hs'. apply validate_attribute_built, Hs'.
  - eexists. split; [reflexivity|].
    apply emits_append. rewrite <- Hs. apply built_diagnostic_at.
Qed.

Lemma closure_step_built doc st e :
  content st.2 = doc → emits (built_over doc) st.2 (closure_step st e).2.
Proof.
  destruct st as [tag_stack s], e as [[[] tag_name] pos]; simpl; intros Hs.
  - destruct (bool_decide _); apply emits_refl.
  - destruct (bool_decide _); [apply emits_refl|].
    destruct (find_from_top _ _ _); [apply emits_refl|].
    apply emits_append. rewrite <- Hs. apply built_diagnostic_at.
Qed.

Lemma validate_tag_closures_built doc s :
  content s = doc → emits (built_over doc) s (_validate_tag_closures s).
Proof.
  intros Hs. unfold _validate_tag_closures.
  assert (H : ∀ l st, content st.2 = doc →
                      emits (built_over doc) st.2
                        (fold_left closure_step l st).2).
  { induction l as [|e l IH]; intros st Hst; simpl; [apply emits_refl|].
    pose proof (closure_step_built doc st e Hst) as H1.
    eapply emits_trans; [exact H1 | apply IH].
    rewrite (emits_content _ _ _ H1). exact Hst. }
  specialize (H (tag_events s) ([], s) Hs).
  destruct (fold_left closure_step (tag_events s) ([], s)) as [tag_stack s1].
  simpl in H. eapply emits_trans; [exact H|].
  rewrite report_unclosed_map. split; [repeat split|].
  eexists. split; [reflexivity|]. simpl.
  apply Forall_map, Forall_forall. intros e _. simpl.
  assert (Hc : content s1 = doc).
  { rewrite (emits_content _ _ _ H). exact Hs. }
  rewrite <- Hc. apply built_diagnostic_at.
Qed.

Lemma parse_built self :
  ∃ ds self', parse self = Some (ds, self')
              ∧ Forall (built_over (content self)) ds.
Proof.
  unfold parse.
  set (s0 := {| content := content self; diagnostics := [];
                list_elements := ∅; loop_variables := ∅ |}).
  destruct (collect_list_elements_keeps s0) as [C1 D1].
  set (s1 := _collect_list_elements s0) in *.
  assert (Hs1 : content s1 = content self) by exact C1.
  destruct (for_each_built (content self) validate_expression
              (Re.finditer Re.percent_span (content s1)) s1)
    as (s2 & E2 & H2); [intros; apply validate_expression_built; assumption
                       | exact Hs1 |].
  unfold _validate_expressions. rewrite E2. simpl.
  assert (Hs2 : content s2 = content self).
  { rewrite (emits_content _ _ _ H2). exact Hs1. }
  destruct (for_each_built (content self) validate_tag
              (Re.finditer Re.wr_tag (content s2)) s2)
    as (s3 & E3 & H3); [intros; apply validate_tag_built; assumption
                       | exact Hs2 |].
  unfold _validate_tags. rewrite E3. simpl.
  assert (Hs3 : content s3 = content self).
  { rewrite (emits_content _ _ _ H3). exact Hs2. }
  pose proof (validate_tag_closures_built (content self) s3 Hs3) as H4.
  eexists _, _. split; [reflexivity|].
  destruct (emits_trans _ _ _ _ (emits_trans _ _ _ _ H2 H3) H4)
    as (_ & ds & D & F).
  rewrite D, D1. exact F.
Qed.

(** The range of a diagnostic. *)
Definition well_ranged (doc : string) (d : Diagnostic) : Prop :=
  line (start (range d)) = line (end_ (range d))
  ∧ character (start (range d)) ≤ character (end_ (range d))
  ∧ line (start (range d)) + character (start (range d)) ≤ Py.len doc.

Lemma built_well_ranged doc d : built_over doc d → well_ranged doc d.
Proof.
  intros (self & pos & width & sev & msg & c & <- & ->).
  unfold well_ranged, diagnostic_at.
  pose proof (get_line_column_within self pos) as H.
  destruct (_get_line_column self pos) as [l k]. simpl.
  repeat split; [lia | exact H].
Qed.

(** Every diagnostic of a parse result starts and ends on the same line,
    does not end before it starts, and starts at a line and column that
    together do not exceed the length of the document. *)
Theorem diagnostics_well_ranged (self : t) :
  ∃ ds self', parse self = Some (ds, self')
              ∧ Forall (well_ranged (content self)) ds.
Proof.
  destruct (parse_built self) as (ds & self' & E & F).
  exists ds, self'. split; [exact E|].
  eapply Forall_impl; [exact F|]. apply built_well_ranged.
Qed.

End Ranges.

(** ** Blank expressions *)

Section Blank.
Import TemplateParser.

(** An expression that is empty once stripped is valid: the parser is not
    run on it, and a span or a [condition] holding only whitespace adds no
    diagnostic. *)
Theorem blank_expression_reports_nothing :
  (∀ e le lv,
     Py.strip e = "" →
     ExpressionParser.parse (ExpressionParser.__init__ e le lv)
     = Some (true, None, ExpressionParser.__init__ e le lv))
  ∧ (∀ self m,
       Py.strip (Re.group_str m 1) = "" →
       validate_expression self m = Some self).
Proof.
  assert (H : ∀ e le lv,
     Py.strip e = "" →
     ExpressionParser.parse (ExpressionParser.__init__ e le lv)
     = Some (true, None, ExpressionParser.__init__ e le lv)).
  { intros e le lv He. unfold ExpressionParser.parse.
    cbn [ExpressionParser.expression ExpressionParser.__init__].
    rewrite He. reflexivity. }
  split; [exact H|].
  intros self m He. unfold validate_expression.
  destruct (String.eqb _ _); [reflexivity|].
  rewrite H by exact He. reflexivity.
Qed.

Lemma blank_expression_reports_nothing_witness :
  validate_expression (__init__ "a%   %b") (Re.mkMatch 1 6 [Some (2, "   ")])
  = Some (__init__ "a%   %b").
Proof.
  destruct blank_expression_reports_nothing as [_ H].
  apply H. vm_compute. reflexivity.
Defined.

End Blank.

(** ** Counting unknown tags *)

Section UnknownTags.
Import TemplateParser.

(** The diagnostics of [ds] that carry the code [c]. *)
Definition with_code (c : string) (ds : list Diagnostic) : list Diagnostic :=
  List.filter
    (fun d => match code d with Some x => String.eqb x c | None => false end)
    ds.

(** The tag matches whose name is outside the vocabulary. *)
Definition unknown_tags (doc : string) : list Re.Match :=
  List.filter
    (fun m => negb (bool_decide ("wr-" +:+ Re.group_str m 1 ∈ VALID_TAGS)))
    (Re.finditer Re.wr_tag doc).

Lemma with_code_app c ds1 ds2 :
  with_code c (ds1 ++ ds2) = with_code c ds1 ++ with_code c ds2.
Proof. apply List.filter_app. Qed.

Lemma with_code_none (P : Diagnostic → Prop) c ds :
  (∀ d, P d → code d ≠ Some c) → Forall P ds → with_code c ds = [].
Proof.
  intros HP. induction 1 as [|d ds Hd _ IH]; [reflexivity|].
  simpl. rewrite IH. destruct (code d) as [x|] eqn:E; [|reflexivity].
  destruct (String.eqb x c) eqn:Hx; [|reflexivity].
  apply String.eqb_eq in Hx. subst x. destruct (HP d Hd E).
Qed.

Lemma coded_other sev c c' d : c ≠ c' → coded sev c d → code d ≠ Some c'.
Proof. intros Hne [_ Hc]. rewrite Hc. intros [= E]. exact (Hne E). Qed.

Lemma attribute_diagnostic_not_unknown_tag d :
  attribute_diagnostic d → code d ≠ Some "unknown-tag".
Proof.
  intros [H|[H|H]]; eapply coded_other; try exact H; discriminate.
Qed.

Lemma expression_diagnostic_not_unknown_tag d :
  expression_diagnostic "expr-error" d → code d ≠ Some "unknown-tag".
Proof. intros [H|H]; eapply coded_other; try exact H; discriminate. Qed.

Lemma closure_diagnostic_not_unknown_tag d :
  closure_diagnostic d → code d ≠ Some "unknown-tag".
Proof. intros [H|H]; eapply coded_other; try exact H; discriminate. Qed.

Lemma validate_tags_count l s :
  ∃ s' ds,
    for_each validate_tag l s = Some s'
    ∧ same_context s s'
    ∧ diagnostics s' = diagnostics s ++ ds
    ∧ length (with_code "unknown-tag" ds)
      = length (List.filter
                  (fun m => negb (bool_decide
                                    ("wr-" +:+ Re.group_str m 1 ∈ VALID_TAGS)))
                  l).
Proof.
  revert s. induction l as [|m l IH]; intros s.
  - exists s, []. rewrite app_nil_r. repeat split.
  - destruct (validate_tag_emits s m) as (s1 & E1 & C1 & ds1 & D1 & F1).
    cbn [for_each List.filter]. rewrite E1. cbn [mbind option_bind].
    destruct (IH s1) as (s2 & ds2 & E2 & C2 & D2 & N2).
    exists s2, (ds1 ++ ds2). split; [exact E2|]. split.
    { destruct C1 as (? & ? & ?), C2 as (? & ? & ?).
      repeat split; congruence. }
    split; [rewrite D2, D1; symmetry; apply app_assoc|].
    rewrite with_code_app, length_app, N2.
    unfold validate_tag, _validate_tag_attributes in E1.
    destruct (bool_decide _) eqn:Hv; cbn [negb length].
    + destruct (emits_for_each attribute_diagnostic
                  (validate_attribute ("wr-" +:+ Re.group_str m 1)
                     (Re.m_start m))
                  (Re.finditer Re.attr (Re.group_str m 2)) s
                  (validate_attribute_emits _ _))
        as (s1' & E1' & _ & ds1' & D1' & F1').
      rewrite E1' in E1. injection E1 as ->.
      rewrite D1' in D1. apply app_inv_head in D1. subst ds1'.
      rewrite (with_code_none _ _ _ attribute_diagnostic_not_unknown_tag F1').
      reflexivity.
    + injection E1 as <-. cbn [diagnostics append] in D1.
      apply app_inv_head in D1. subst ds1.
      unfold with_code. cbn [List.filter]. rewrite code_diagnostic_at.
      reflexivity.
Qed.

(** A parse result holds as many [unknown-tag] diagnostics as the document
    has opening tags with a name outside the vocabulary. *)
Theorem unknown_tags_counted (self : t) :
  ∃ ds self',
    parse self = Some (ds, self')
    ∧ length (with_code "unknown-tag" ds)
      = length (unknown_tags (content self)).
Proof.
  unfold parse.
  set (s0 := {| content := content self; diagnostics := [];
                list_elements := ∅; loop_variables := ∅ |}).
  destruct (collect_list_elements_keeps s0) as [C1 D1].
  set (s1 := _collect_list_elements s0) in *.
  destruct (emits_for_each _ validate_expression
              (Re.finditer Re.percent_span (content s1)) s1
              validate_expression_emits)
    as (s2 & E2 & (C2 & _) & ds2 & D2 & F2).
  unfold _validate_expressions. rewrite E2. cbn [mbind option_bind].
  destruct (validate_tags_count (Re.finditer Re.wr_tag (content s2)) s2)
    as (s3 & ds3 & E3 & _ & D3 & N3).
  unfold _validate_tags. rewrite E3. cbn [mbind option_bind].
  destruct (validate_tag_closures_emits s3) as (_ & ds4 & D4 & F4).
  eexists _, _. split; [reflexivity|].
  rewrite D4, D3, D2, D1. subst s0. cbn [diagnostics app].
  rewrite !with_code_app, !length_app.
  rewrite (with_code_none _ _ _ expression_diagnostic_not_unknown_tag F2).
  rewrite (with_code_none _ _ _ closure_diagnostic_not_unknown_tag F4).
  rewrite N3. unfold unknown_tags. rewrite C2, C1. cbn [content length].
  lia.
Qed.

End UnknownTags.

(** ** Well-nested tags and the balance of the closure pass *)

Section Nesting.
Import TemplateParser.

(** Events that are properly nested: events of no-close tags anywhere,
    and every other opening event paired with a closing event of the same
    name around properly nested events. *)
Inductive nested : list event → Prop :=
| nested_nil : nested []
| nested_no_close kind tag_name pos l :
    tag_name ∈ NO_CLOSE_TAGS → nested l →
    nested ((kind, tag_name, pos) :: l)
| nested_pair tag_name opened closed inner rest :
    tag_name ∉ NO_CLOSE_TAGS → nested inner → nested rest →
    nested ((open, tag_name, opened) :: inner
            ++ (close, tag_name, closed) :: rest).

Lemma closure_step_no_close st kind tag_name pos :
  tag_name ∈ NO_CLOSE_TAGS → closure_step st (kind, tag_name, pos) = st.
Proof.
  intros H. destruct st as [tag_stack s], kind; simpl;
    rewrite bool_decide_eq_true_2 by exact H; reflexivity.
Qed.

Lemma nested_keeps_stack l :
  nested l → ∀ st, fold_left closure_step l st = st.
Proof.
  induction 1 as [|kind tag_name pos l Hn _ IH
                  |tag_name opened closed inner rest Hn _ IHi _ IHr];
    intros st.
  - reflexivity.
  - simpl. rewrite closure_step_no_close by exact Hn. apply IH.
  - destruct st as [tag_stack s]. simpl.
    rewrite bool_decide_eq_false_2 by exact Hn.
    rewrite fold_left_app, IHi. simpl.
    rewrite bool_decide_eq_false_2 by exact Hn.
    rewrite (find_from_top_nearest tag_name opened tag_stack []);
      [|constructor | rewrite length_app; simpl; lia | lia].
    rewrite delete_middle, app_nil_r. apply IHr.
Qed.

(** A document whose tag events are properly nested gets no diagnostic
    from the closure pass. *)
Theorem nested_tags_pass_closure_validation (self : t) :
  nested (tag_events self) → _validate_tag_closures self = self.
Proof.
  intros H. unfold _validate_tag_closures.
  rewrite (nested_keeps_stack _ H). simpl. reflexivity.
Qed.

Lemma nested_tags_pass_closure_validation_witness :
  _validate_tag_closures
    (__init__ "<wr-if condition='a'><wr-then>x<wr-for list='l'>y</wr-for></wr-if>")
  = __init__ "<wr-if condition='a'><wr-then>x<wr-for list='l'>y</wr-for></wr-if>".
Proof.
  apply nested_tags_pass_closure_validation.
  assert (Hn : ∀ x, bool_decide (x ∈ NO_CLOSE_TAGS) = false →
                    x ∉ NO_CLOSE_TAGS).
  { intros x. apply bool_decide_eq_false_1. }
  assert (Hy : ∀ x, bool_decide (x ∈ NO_CLOSE_TAGS) = true →
                    x ∈ NO_CLOSE_TAGS).
  { intros x. apply bool_decide_eq_true_1. }
  assert (E : tag_events
    (__init__ "<wr-if condition='a'><wr-then>x<wr-for list='l'>y</wr-for></wr-if>")
    = (open, "wr-if", 0)
      :: [(open, "wr-then", 21); (open, "wr-for", 31); (close, "wr-for", 49)]
      ++ (close, "wr-if", 58) :: []).
  { vm_compute. reflexivity. }
  rewrite E.
  apply nested_pair; [apply Hn; vm_compute; reflexivity | | apply nested_nil].
  apply nested_no_close; [apply Hy; vm_compute; reflexivity|].
  apply (nested_pair "wr-for" 31 49 [] []);
    [apply Hn; vm_compute; reflexivity | apply nested_nil | apply nested_nil].
Defined.

(** An event of the given kind for a tag that requires closing. *)
Definition takes_part (kind : event_type) (e : event) : bool :=
  match e.1.1, kind with
  | open, open | close, close => negb (bool_decide (e.1.2 ∈ NO_CLOSE_TAGS))
  | _, _ => false
  end.

(** The number of such events. *)
Definition requiring (kind : event_type) (l : list event) : nat :=
  length (List.filter (takes_part kind) l).

Lemma find_from_top_found tag_name tag_stack n i :
  find_from_top tag_name tag_stack n = Some i → is_Some (tag_stack !! i).
Proof.
  induction n as [|k IH]; simpl; [discriminate|].
  destruct (tag_stack !! k) as [[name p]|] eqn:E; [|exact IH].
  destruct (String.eqb name tag_name); [|exact IH].
  intros [= <-]. rewrite E. eexists. reflexivity.
Qed.

Lemma requiring_cons kind e l :
  requiring kind (e :: l)
  = (if takes_part kind e then 1 else 0) + requiring kind l.
Proof.
  unfold requiring. simpl. destruct (takes_part kind e); reflexivity.
Qed.

Lemma closure_fold_balance l tag_stack s :
  ∃ tag_stack' s' unmatched,
    fold_left closure_step l (tag_stack, s) = (tag_stack', s')
    ∧ same_context s s'
    ∧ diagnostics s' = diagnostics s ++ unmatched
    ∧ Forall (coded 1 "unmatched-closing-tag") unmatched
    ∧ length tag_stack' + requiring close l
      = length tag_stack + requiring open l + length unmatched.
Proof.
  revert tag_stack s. induction l as [|[[kind tag_name] pos] l IH];
    intros tag_stack s.
  - exists tag_stack, s, []. split; [reflexivity|].
    split; [repeat split|]. split; [symmetry; apply app_nil_r|].
    split; [constructor|]. unfold requiring. simpl. lia.
  - rewrite !requiring_cons. simpl fold_left.
    unfold takes_part. cbn [fst snd].
    destruct kind; simpl closure_step;
      destruct (bool_decide (tag_name ∈ NO_CLOSE_TAGS)); cbn [negb].
    + destruct (IH tag_stack s) as (t' & s' & u & E & C & D & F & N).
      exists t', s', u. split; [exact E|]. split; [exact C|].
      split; [exact D|]. split; [exact F|]. lia.
    + destruct (IH (tag_stack ++ [(tag_name, pos)]) s)
        as (t' & s' & u & E & C & D & F & N).
      exists t', s', u. rewrite length_app in N. simpl in N.
      split; [exact E|]. split; [exact C|].
      split; [exact D|]. split; [exact F|]. lia.
    + destruct (IH tag_stack s) as (t' & s' & u & E & C & D & F & N).
      exists t', s', u. split; [exact E|]. split; [exact C|].
      split; [exact D|]. split; [exact F|]. lia.
    + destruct (find_from_top tag_name tag_stack (length tag_stack))
        as [i|] eqn:Ef.
      * apply find_from_top_found in Ef.
        destruct (IH (delete i tag_stack) s)
          as (t' & s' & u & E & C & D & F & N).
        exists t', s', u. rewrite length_delete in N by exact Ef.
        apply lookup_lt_is_Some in Ef.
        split; [exact E|]. split; [exact C|].
        split; [exact D|]. split; [exact F|]. lia.
      * destruct (IH tag_stack
                    (append (diagnostic_at s (Z.of_nat pos)
                               (Py.len tag_name + 3) 1
                               ("Closing tag '" +:+ tag_name
                                +:+ "' without matching opening tag")
                               "unmatched-closing-tag") s))
          as (t' & s' & u & E & C & D & F & N).
        eexists t', s', (_ :: u). split; [exact E|].
        split; [destruct C as (? & ? & ?); repeat split; assumption|].
        split; [rewrite D; simpl; rewrite <- app_assoc; reflexivity|].
        split; [constructor; [apply coded_diagnostic_at | exact F]|].
        simpl. lia.
Qed.

(** The closure pass appends the [unmatched-closing-tag] diagnostics and
    then the [unclosed-tag] diagnostics, and their numbers balance the
    events: unclosed tags plus closing events equal unmatched closing tags
    plus opening events, counting only events of tags that require
    closing. *)
Theorem closure_pass_balance (self : t) :
  ∃ unmatched unclosed,
    diagnostics (_validate_tag_closures self)
    = diagnostics self ++ unmatched ++ unclosed
    ∧ Forall (coded 1 "unmatched-closing-tag") unmatched
    ∧ Forall (coded 1 "unclosed-tag") unclosed
    ∧ length unclosed + requiring close (tag_events self)
      = length unmatched + requiring open (tag_events self).
Proof.
  unfold _validate_tag_closures.
  destruct (closure_fold_balance (tag_events self) [] self)
    as (t' & s' & u & E & C & D & F & N).
  rewrite E. rewrite report_unclosed_map. simpl.
  exists u, (map (unclosed_diagnostic s') t').
  split; [rewrite D; symmetry; apply app_assoc|].
  split; [exact F|]. split.
  - apply Forall_map, Forall_forall. intros e _. apply coded_diagnostic_at.
  - rewrite length_map. simpl in N. lia.
Qed.

End Nesting.

(** ** The recursion budget does not matter *)

Section Budget.
Import ExpressionParser.
Local Open Scope parser_scope.

(** [m'] does whatever [m] does, wherever [m] does not run out of
    budget. *)
Definition refines {A} (m m' : M A) : Prop :=
  ∀ p, m p ≠ Diverge → m' p = m p.

Lemma refines_refl {A} (m : M A) : refines m m.
Proof. intros p _. reflexivity. Qed.

Lemma refines_diverge {A} (m' : M A) : refines diverge m'.
Proof. intros p H. destruct H. reflexivity. Qed.

Lemma refines_bind {A B} (m m' : M A) (k k' : A → M B) :
  refines m m' → (∀ a, refines (k a) (k' a)) →
  refines (bind m k) (bind m' k').
Proof.
  intros Hm Hk p H. unfold bind in *.
  destruct (m p) as [a p1|msg p1|] eqn:E; [| |destruct H; reflexivity].
  - rewrite (Hm p) by (rewrite E; discriminate). rewrite E.
    apply Hk, H.
  - rewrite (Hm p) by (rewrite E; discriminate). rewrite E. reflexivity.
Qed.

Lemma refines_while n n' cond body body' :
  refines body body' → n ≤ n' →
  refines (while n cond body) (while n' cond body').
Proof.
  intros Hb. revert n'. induction n as [|n IH]; intros n' Hn.
  - apply refines_diverge.
  - destruct n' as [|n']; [lia|]. simpl.
    apply refines_bind; [apply refines_refl|]. intros [|];
      [|apply refines_refl].
    apply refines_bind; [exact Hb|]. intros _. apply IH. lia.
Qed.

Definition all_refine (f k : nat) : Prop :=
  refines (_parse_expression f) (_parse_expression (f + k))
  ∧ refines (_parse_or_expression f) (_parse_or_expression (f + k))
  ∧ refines (_parse_and_expression f) (_parse_and_expression (f + k))
  ∧ refines (_parse_comparison_expression f)
      (_parse_comparison_expression (f + k))
  ∧ refines (_parse_additive_expression f)
      (_parse_additive_expression (f + k))
  ∧ refines (_parse_multiplicative_expression f)
      (_parse_multiplicative_expression (f + k))
  ∧ refines (_parse_unary_expression f) (_parse_unary_expression (f + k))
  ∧ refines (_parse_postfix_expression f)
      (_parse_postfix_expression (f + k))
  ∧ (∀ chain, refines (postfix_loop f chain) (postfix_loop (f + k) chain))
  ∧ refines (_parse_primary_expression f)
      (_parse_primary_expression (f + k))
  ∧ refines (_parse_function_arguments f)
      (_parse_function_arguments (f + k)).

Lemma all_refine_holds f k : all_refine f k.
Proof.
  induction f as [|f IH].
  - repeat apply conj; try intros chain; apply refines_diverge.
  - destruct IH as (IHe & IHor & IHand & IHcmp & IHadd & IHmul & IHun
                    & IHpost & IHloop & IHprim & IHargs).
    change (S f + k) with (S (f + k)).
    repeat apply conj.
    + exact IHor.
    + rewrite !parse_or_expression_S.
      apply refines_bind; [exact IHand|]. intros _.
      apply refines_while; [exact IHand | apply Nat.le_add_r].
    + rewrite !parse_and_expression_S.
      apply refines_bind; [exact IHcmp|]. intros _.
      apply refines_while; [exact IHcmp | apply Nat.le_add_r].
    + rewrite !parse_comparison_expression_S.
      apply refines_bind; [exact IHadd|]. intros _.
      apply refines_while; [exact IHadd | apply Nat.le_add_r].
    + rewrite !parse_additive_expression_S.
      apply refines_bind; [exact IHmul|]. intros _.
      apply refines_while; [exact IHmul | apply Nat.le_add_r].
    + rewrite !parse_multiplicative_expression_S.
      apply refines_bind; [exact IHun|]. intros _.
      apply refines_while; [exact IHun | apply Nat.le_add_r].
    + rewrite !parse_unary_expression_S.
      apply refines_bind; [apply refines_refl|]. intros [|]; [exact IHun|].
      apply refines_bind; [exact IHpost | intros _; apply refines_refl].
    + rewrite !parse_postfix_expression_S.
      apply refines_bind; [exact IHprim | intros base; apply IHloop].
    + intros chain. rewrite !postfix_loop_S.
      apply refines_bind; [apply refines_refl|]. intros [|].
      { apply refines_bind; [exact IHargs|]. intros _.
        apply refines_bind; [apply refines_refl|]. intros _.
        apply refines_bind; [apply refines_refl|]. intros _. apply IHloop. }
      apply refines_bind; [apply refines_refl|]. intros [|].
      { apply refines_bind; [exact IHe|]. intros _.
        apply refines_bind; [apply refines_refl|]. intros _. apply IHloop. }
      apply refines_bind; [apply refines_refl|]. intros [|];
        [|apply refines_refl].
      apply refines_bind; [apply refines_refl|]. intros member. apply IHloop.
    + simpl. apply refines_bind; [apply refines_refl|]. intros _.
      apply refines_bind; [apply refines_refl|]. intros s.
      destruct (Py.at_ _ _) as [c|]; [|apply refines_refl].
      destruct (Ascii.eqb c Py.dquote); [apply refines_refl|].
      destruct (Py.isdigit c); [apply refines_refl|].
      destruct (Ascii.eqb c "("); [|apply refines_refl].
      apply refines_bind; [apply refines_refl|]. intros _.
      apply refines_bind; [exact IHe|]. intros _. apply refines_refl.
    + simpl. apply refines_bind; [apply refines_refl|]. intros _.
      apply refines_bind; [apply refines_refl|]. intros s.
      destruct (Py.at_ _ _) as [c|]; [|apply refines_refl].
      destruct (negb _); [|apply refines_refl].
      apply refines_bind; [exact IHe|]. intros _.
      apply refines_while; [exact IHe | apply Nat.le_add_r].
Qed.

(** Any recursion budget at least as large as the one [parse] uses gives
    the same outcome, which is never [Diverge]: the budget is a device of
    the model and has no influence on the result. *)
Theorem budget_is_immaterial (p : t) (fuel : nat) :
  budget (expression p) ≤ fuel →
  _parse_expression fuel p = _parse_expression (budget (expression p)) p
  ∧ _parse_expression fuel p ≠ Diverge.
Proof.
  intros H.
  destruct (all_refine_holds (budget (expression p))
              (fuel - budget (expression p))) as (Hr & _).
  replace (budget (expression p) + (fuel - budget (expression p)))
    with fuel in Hr by lia.
  pose proof (parse_expression_returns p) as Hd.
  rewrite (Hr p Hd). split; [reflexivity | exact Hd].
Qed.

Lemma budget_is_immaterial_witness :
  _parse_expression 1000 (__init__ "a + (b * 2)" ∅ ∅)
  = _parse_expression (budget "a + (b * 2)") (__init__ "a + (b * 2)" ∅ ∅).
Proof.
  apply (budget_is_immaterial (__init__ "a + (b * 2)" ∅ ∅) 1000).
  vm_compute. lia.
Defined.

End Budget.

(** ** What the collector gathers *)

Section Collector.
Import TemplateParser.

(** A name taken from a quoted attribute: not empty and free of quote
    characters. *)
Definition quote_free (e : string) : Prop :=
  e ≠ "" ∧ ∀ k c, Py.at_ e k = Some c → Re.is_quote c = false.

(** The collected context: list elements are quote-free names, and every
    loop variable is a quote-free name bound to a collected list
    element. *)
Definition collected (self : t) : Prop :=
  (∀ e, e ∈ list_elements self → quote_free e)
  ∧ (∀ v e, loop_variables self !! v = Some e →
            quote_free v ∧ e ∈ list_elements self).

Lemma search_from_matches p s n i m :
  Re.search_from p s n i = Some m → ∃ j, p s j = Some m.
Proof.
  revert i. induction n as [|n IH]; intros i; simpl; [discriminate|].
  destruct (p s i) as [m'|] eqn:E; [|apply IH].
  intros [= <-]. exists i. exact E.
Qed.

Lemma quoted_attr_group name s j m :
  Re.quoted_attr name s j = Some m → quote_free (Re.group_str m 1).
Proof.
  unfold Re.quoted_attr.
  destruct (Re.lit_at _ s j); [|discriminate].
  destruct (Py.at_ s (j + Py.len name + 1)) as [x|]; [|discriminate].
  destruct (Re.is_quote x); [|discriminate].
  destruct (_ <? _) eqn:Hlt; [|discriminate].
  destruct (Py.at_ s (Py.scan _ s _)) as [y|] eqn:E; [|discriminate].
  destruct (Re.is_quote y); [|discriminate].
  intros [= <-]. apply Nat.ltb_lt in Hlt.
  change (Re.group_str _ 1)
    with (Py.slice s (j + Py.len name + 1 + 1)
            (Py.scan (fun c => negb (Re.is_quote c)) s
               (j + Py.len name + 1 + 1))).
  set (a := j + Py.len name + 1 + 1) in *.
  set (b := Py.scan (fun c => negb (Re.is_quote c)) s a) in *.
  assert (Hin : ∀ k c, Py.at_ (Py.slice s a b) k = Some c →
                       Re.is_quote c = false).
  { intros k c H. apply at_slice in H as [Hk H].
    destruct (scan_passed (fun c => negb (Re.is_quote c)) s a (k + a))
      as (c' & Hc' & Hq); [fold b; lia|].
    rewrite H in Hc'. injection Hc' as <-.
    apply negb_true_iff in Hq. exact Hq. }
  split; [|exact Hin].
  destruct (scan_passed (fun c => negb (Re.is_quote c)) s a a)
    as (c & Hc & _); [fold b; lia|].
  intros Hempty.
  assert (Hget : Py.at_ (Py.slice s a b) 0 = Some c).
  { unfold Py.at_, Py.slice. rewrite substring_correct1 by lia. exact Hc. }
  rewrite Hempty in Hget. discriminate Hget.
Qed.

Lemma search_quoted_attr name s m :
  Re.search (Re.quoted_attr name) s = Some m →
  quote_free (Re.group_str m 1).
Proof.
  intros H. apply search_from_matches in H as [j H].
  eapply quoted_attr_group, H.
Qed.

Lemma collected_add_list_element e self :
  quote_free e → collected self → collected (add_list_element e self).
Proof.
  intros He [H1 H2]. split; simpl.
  - intros x Hx. apply elem_of_union in Hx as [Hx|Hx]; [|apply H1, Hx].
    apply elem_of_singleton in Hx. subst x. exact He.
  - intros v x Hv. destruct (H2 v x Hv) as [Hq Hx]. split; [exact Hq|].
    apply elem_of_union. right. exact Hx.
Qed.

Lemma collected_set_loop_variable v e self :
  quote_free v → e ∈ list_elements self → collected self →
  collected (set_loop_variable v e self).
Proof.
  intros Hv He [H1 H2]. split; simpl; [exact H1|].
  intros v' x Hx. destruct (decide (v = v')) as [<-|Hne].
  - rewrite lookup_insert_eq in Hx. injection Hx as <-. split; assumption.
  - rewrite lookup_insert_ne in Hx by exact Hne. apply H2, Hx.
Qed.

Lemma collect_list_elements_collected self :
  collected self → collected (_collect_list_elements self).
Proof.
  unfold _collect_list_elements.
  generalize (Re.finditer Re.wr_for_tag (content self)). intros l.
  revert self. induction l as [|m l IH]; intros self H; simpl; [exact H|].
  apply IH.
  destruct (Re.search (Re.quoted_attr "list") _) as [lm|] eqn:El.
  - pose proof (search_quoted_attr _ _ _ El) as Hl.
    pose proof (collected_add_list_element _ _ Hl H) as H'.
    destruct (Re.search (Re.quoted_attr "variable") _) as [vm|] eqn:Ev;
      [|exact H'].
    apply collected_set_loop_variable; [|simpl; set_solver|exact H'].
    eapply search_quoted_attr, Ev.
  - destruct (Re.search (Re.quoted_attr "variable") _); exact H.
Qed.

(** After [parse], the context kept in the parser object is the collected
    one: every list element is a non-empty name without quote characters,
    and every loop variable is such a name bound to one of the list
    elements (a [variable] attribute without a [list] attribute binds
    nothing). *)
Theorem parse_context_collected (self : t) :
  ∃ ds self', parse self = Some (ds, self') ∧ collected self'.
Proof.
  unfold parse.
  set (s0 := {| content := content self; diagnostics := [];
                list_elements := ∅; loop_variables := ∅ |}).
  assert (H0 : collected s0).
  { split; simpl.
    - intros e He. apply not_elem_of_empty in He. destruct He.
    - intros v e Hv. rewrite lookup_empty in Hv. discriminate Hv. }
  pose proof (collect_list_elements_collected s0 H0) as H1.
  set (s1 := _collect_list_elements s0) in *.
  destruct (emits_for_each _ validate_expression
              (Re.finditer Re.percent_span (content s1)) s1
              validate_expression_emits)
    as (s2 & E2 & (_ & L2 & V2) & _).
  unfold _validate_expressions. rewrite E2. simpl.
  destruct (emits_for_each _ validate_tag
              (Re.finditer Re.wr_tag (content s2)) s2
              validate_tag_emits)
    as (s3 & E3 & (_ & L3 & V3) & _).
  unfold _validate_tags. rewrite E3. simpl.
  destruct (validate_tag_closures_emits s3) as ((_ & L4 & V4) & _).
  eexists _, _. split; [reflexivity|].
  unfold collected. rewrite L4, L3, L2, V4, V3, V2. exact H1.
Qed.

End Collector.

(** ** The groups of an attribute match *)

Section AttributeGroups.
Import TemplateParser.

Lemma attr_with_name q s i e name value :
  Re.attr_with q s i = Some (e, name, value) →
  name = (i, Py.slice s i (Py.scan Py.isword s i))
  ∧ value.1 = Py.scan Py.isword s i + 2
  ∧ i < Py.scan Py.isword s i
  ∧ Re.is_char q s (Py.scan Py.isword s i + 1) = true.
Proof.
  unfold Re.attr_with. destruct (_ && _ && _) eqn:E; [|discriminate].
  destruct (Re.is_char q s (Py.scan _ s _)); [|discriminate].
  intros [= <- <- <-]. apply andb_true_iff in E as [E Hq].
  apply andb_true_iff in E as [E _]. apply Nat.ltb_lt in E. auto.
Qed.

Lemma slice_nonempty s a b : a < b → b ≤ Py.len s → Py.slice s a b ≠ "".
Proof.
  intros Hab Hb Hempty.
  assert (H : Py.at_ (Py.slice s a b) 0 = Py.at_ s a).
  { unfold Py.at_, Py.slice. rewrite substring_correct1 by lia. reflexivity. }
  rewrite Hempty in H. simpl in H.
  destruct (Py.at_ s a) eqn:E; [discriminate H|].
  assert (Py.len s ≤ a).
  { destruct (Nat.lt_ge_cases a (Py.len s)) as [Hlt|Hge]; [|exact Hge].
    unfold Py.at_, Py.len in *. clear -E Hlt. exfalso. revert a E Hlt.
    induction s as [|c s IH]; intros a E Hlt; simpl in *; [lia|].
    destruct a; [discriminate E|]. apply (IH a E). lia. }
  lia.
Qed.

(** An attribute match comes from one of the two alternatives.  With
    single quotes, groups 1 and 2 hold the name and the value and
    [start(2)] is the offset of the value.  With double quotes, groups 3
    and 4 hold them and [start(2)] is [-1], so that the offset
    [start_pos + match.start(2)] used for condition diagnostics is
    [start_pos - 1] whatever the place of the attribute. *)
Theorem attr_match_groups (s : string) (i : nat) (m : Re.Match) :
  Re.attr s i = Some m →
  (attribute_of m = (Re.group_str m 1, Re.group_str m 2)
   ∧ Re.group m 3 = None
   ∧ Re.is_char "'" s (Py.scan Py.isword s i + 1) = true
   ∧ Re.start_of m 2 = Z.of_nat (Py.scan Py.isword s i + 2))
  ∨ (attribute_of m = (Re.group_str m 3, Re.group_str m 4)
     ∧ Re.group m 1 = None
     ∧ Re.is_char Py.dquote s (Py.scan Py.isword s i + 1) = true
     ∧ Re.start_of m 2 = (-1)%Z).
Proof.
  unfold Re.attr.
  destruct (Re.attr_with "'" s i) as [[[e name] value]|] eqn:E1.
  - intros [= <-]. left.
    pose proof (attr_with_bounds _ _ _ _ _ _ E1) as [_ Hle].
    apply attr_with_name in E1 as (-> & Hv & Hlt & Hq).
    destruct value as [vpos vtext]. simpl in Hv. subst vpos.
    assert (Hne : Py.slice s i (Py.scan Py.isword s i) ≠ "").
    { apply slice_nonempty; [exact Hlt|].
      apply is_char_lt in Hq. lia. }
    unfold attribute_of. cbn [Re.group Re.m_groups lookup list_lookup].
    simpl. rewrite (truthy_nonempty _ Hne). repeat split. exact Hq.
  - destruct (Re.attr_with Py.dquote s i) as [[[e name] value]|] eqn:E2;
      [|discriminate].
    intros [= <-]. right.
    apply attr_with_name in E2 as (-> & _ & _ & Hq).
    unfold attribute_of. simpl. repeat split. exact Hq.
Qed.

Lemma attr_match_groups_witness :
  ∃ m, Re.attr "a='x' b" 0 = Some m ∧ Re.start_of m 2 = 3%Z.
Proof.
  assert (E : ∃ m, Re.attr "a='x' b" 0 = Some m).
  { vm_compute. eexists. reflexivity. }
  destruct E as [m E]. exists m. split; [exact E|].
  destruct (attr_match_groups _ _ _ E) as [(_ & _ & _ & H)|(_ & _ & H & _)].
  - rewrite H. vm_compute. reflexivity.
  - vm_compute in H. discriminate H.
Defined.

End AttributeGroups.

(** ** The list-misuse rule *)

Section ListMisuseRule.
Import ExpressionParser.

(** [q] is [path] or what precedes one of its dots. *)
Definition dotted_prefix (q path : string) : Prop :=
  q = path ∨ ∃ rest, path = q +:+ "." +:+ rest.

Lemma string_length_append a b :
  String.length (a +:+ b) = String.length a + String.length b.
Proof. induction a as [|c a IH]; simpl; [reflexivity | rewrite IH; reflexivity]. Qed.

Lemma prefixes_one x : prefixes [x] = [x].
Proof. reflexivity. Qed.

Lemma take_succ_nonempty {A} (i : nat) (l : list A) :
  l ≠ [] → ∃ y l', take (i + 1) l = y :: l'.
Proof.
  intros H. destruct l as [|y l]; [congruence|].
  rewrite Nat.add_1_r. simpl. eauto.
Qed.

Lemma prefixes_cons x rest :
  rest ≠ [] →
  prefixes (x :: rest)
  = x :: map (fun q => x +:+ "." +:+ q) (prefixes rest).
Proof.
  intros Hne. unfold prefixes. simpl length. simpl seq.
  rewrite <- (List.seq_shift (length rest) 0). simpl.
  rewrite !List.map_map. f_equal.
  apply List.map_ext. intros i.
  destruct (take_succ_nonempty i rest Hne) as (y & l' & E).
  replace (take (S i + 1) (x :: rest)) with (x :: take (i + 1) rest)
    by reflexivity.
  rewrite E. reflexivity.
Qed.

Lemma prefixes_head c h t :
  prefixes (String c h :: t) = map (String c) (prefixes (h :: t)).
Proof.
  destruct t as [|y t]; [reflexivity|].
  rewrite (prefixes_cons (String c h)), (prefixes_cons h) by discriminate.
  rewrite List.map_cons, List.map_map. reflexivity.
Qed.

Lemma split_nonempty sep s : Py.split sep s ≠ [].
Proof.
  destruct s as [|c s]; simpl; [discriminate|].
  destruct (Ascii.eqb c sep); [discriminate|].
  destruct (Py.split sep s); discriminate.
Qed.

(** The strings tried by the second loop of [_check_list_function_call]
    are the dotted prefixes of the path (the path itself included). *)
Lemma In_prefixes q path :
  In q (prefixes (Py.split "." path)) ↔ dotted_prefix q path.
Proof.
  revert q. induction path as [|c s IH]; intros q.
  - simpl. unfold dotted_prefix. split.
    + intros [<-|[]]. left. reflexivity.
    + intros [->|[rest H]]; [left; reflexivity|].
      destruct q; discriminate H.
  - simpl Py.split. destruct (Ascii.eqb c ".") eqn:Ec.
    + apply Ascii.eqb_eq in Ec. subst c.
      rewrite prefixes_cons by apply split_nonempty. simpl.
      rewrite List.in_map_iff. unfold dotted_prefix. split.
      * intros [<-|(q' & <- & Hq')].
        { right. exists s. reflexivity. }
        apply IH in Hq' as [->|[rest ->]]; [left; reflexivity|].
        right. exists rest. reflexivity.
      * intros [->|[rest H]].
        { right. exists s. split; [reflexivity|]. apply IH. left. reflexivity. }
        destruct q as [|c' q]; [left; reflexivity|].
        simpl in H. injection H as <- ->. right.
        exists q. split; [reflexivity|]. apply IH. right. exists rest.
        reflexivity.
    + destruct (Py.split "." s) as [|h t] eqn:Es.
      { destruct (split_nonempty "." s Es). }
      rewrite prefixes_head, List.in_map_iff. unfold dotted_prefix. split.
      * intros (q' & <- & Hq').
        apply IH in Hq' as [->|[rest ->]]; [left; reflexivity|].
        right. exists rest. reflexivity.
      * intros [->|[rest H]].
        { exists s. split; [reflexivity|]. apply IH. left. reflexivity. }
        destruct q as [|c' q].
        { simpl in H. injection H as -> _. rewrite Ascii.eqb_refl in Ec.
          discriminate Ec. }
        simpl in H. injection H as <- ->.
        exists q. split; [reflexivity|]. apply IH. right. exists rest.
        reflexivity.
Qed.

Lemma map_sorted_by_length (f : string → string) k l :
  (∀ q, String.length (f q) = k + String.length q) →
  StronglySorted (fun a b => String.length a ≤ String.length b) l →
  StronglySorted (fun a b => String.length a ≤ String.length b) (map f l).
Proof.
  intros Hf. induction 1 as [|x l Hs IH Hx]; simpl; constructor; [exact IH|].
  rewrite List.Forall_map. eapply List.Forall_impl; [|exact Hx].
  simpl. intros a Ha. rewrite !Hf. lia.
Qed.

(** The prefixes are tried from the shortest to the longest. *)
Lemma prefixes_sorted parts :
  StronglySorted (fun a b => String.length a ≤ String.length b)
    (prefixes parts).
Proof.
  induction parts as [|x rest IH]; [constructor|].
  destruct rest as [|y rest]; [repeat constructor|].
  rewrite prefixes_cons by discriminate. constructor.
  - apply (map_sorted_by_length _ (String.length x + 1)); [|exact IH].
    intros q. rewrite !string_length_append. simpl. lia.
  - rewrite List.Forall_map. apply List.Forall_forall. intros q _.
    rewrite !string_length_append. lia.
Qed.

Lemma find_first_sorted {A} (R : A → A → Prop) (P : A → bool) l x y :
  StronglySorted R l → List.find P l = Some x → In y l → P y = true →
  x = y ∨ R x y.
Proof.
  induction 1 as [|z l Hs IH Hz]; intros Hf Hy HP; [destruct Hy|].
  simpl in Hf. destruct (P z) eqn:E.
  - injection Hf as <-. destruct Hy as [->|Hy]; [left; reflexivity|].
    right. rewrite List.Forall_forall in Hz. apply Hz, Hy.
  - destruct Hy as [->|Hy]; [congruence|]. apply IH; assumption.
Qed.

(** The list-misuse rule.  If the receiver path is a declared list
    element, one error naming the path is recorded.  Otherwise, if some
    dotted prefix of the path is a declared list element, one error naming
    the shortest such prefix is recorded, in the second wording.  If neither
    the path nor any of its dotted prefixes is declared, nothing is
    recorded.  The cursor never moves and the error is located at it. *)
Theorem list_misuse_rule (element_path func_name : string) (p : t) :
  (element_path ∈ list_elements p →
   _check_list_function_call element_path func_name p
   = Return tt
       (add_error (pos p, on_list_message func_name element_path) p))
  ∧ (element_path ∉ list_elements p →
     (∃ q, dotted_prefix q element_path ∧ q ∈ list_elements p) →
     ∃ q, dotted_prefix q element_path
          ∧ q ∈ list_elements p
          ∧ (∀ q', dotted_prefix q' element_path → q' ∈ list_elements p →
                   String.length q ≤ String.length q')
          ∧ _check_list_function_call element_path func_name p
            = Return tt
                (add_error (pos p, on_list_prefix_message func_name q) p))
  ∧ ((∀ q, dotted_prefix q element_path → q ∉ list_elements p) →
     _check_list_function_call element_path func_name p = Return tt p).
Proof.
  split; [apply check_list_function_call_member|]. split.
  - intros Hn (q0 & Hq0 & Hin0).
    unfold _check_list_function_call, bind, get, modify, ret.
    rewrite bool_decide_eq_false_2 by exact Hn.
    destruct (List.find _ _) as [q|] eqn:F.
    + pose proof (List.find_some _ _ F) as [Hq Hin].
      apply bool_decide_eq_true_1 in Hin. apply In_prefixes in Hq.
      exists q. split; [exact Hq|]. split; [exact Hin|].
      split; [|reflexivity].
      intros q' Hq' Hin'.
      destruct (find_first_sorted _ _ _ q q' (prefixes_sorted _) F)
        as [->|Hle]; [apply In_prefixes, Hq'
                     | apply bool_decide_eq_true_2, Hin' | lia | exact Hle].
    + exfalso. apply In_prefixes in Hq0.
      pose proof (List.find_none _ _ F _ Hq0) as H.
      apply bool_decide_eq_false_1 in H. exact (H Hin0).
  - intros Hn.
    unfold _check_list_function_call, bind, get, modify, ret.
    rewrite bool_decide_eq_false_2 by (apply Hn; left; reflexivity).
    destruct (List.find _ _) as [q|] eqn:F; [|reflexivity].
    exfalso. pose proof (List.find_some _ _ F) as [Hq Hin].
    apply bool_decide_eq_true_1 in Hin. apply In_prefixes in Hq.
    exact (Hn q Hq Hin).
Qed.

Lemma list_misuse_rule_witness :
  ∃ q, dotted_prefix q "page.items.first"
       ∧ _check_list_function_call "page.items.first" "selected"
           (__init__ "x" {["page.items"]} ∅)
         = Return tt
             (add_error (0, on_list_prefix_message "selected" q)
                (__init__ "x" {["page.items"]} ∅)).
Proof.
  destruct (list_misuse_rule "page.items.first" "selected"
              (__init__ "x" {["page.items"]} ∅)) as (_ & H & _).
  destruct H as (q & Hq & _ & _ & E).
  - apply (bool_decide_unpack _). vm_compute. exact I.
  - exists "page.items". split; [right; exists "first"; reflexivity|].
    apply (bool_decide_unpack _). vm_compute. exact I.
  - exists q. split; [exact Hq | exact E].
Defined.

End ListMisuseRule.

(** ** Findings of a parse that returns *)

Section Findings.
Import TemplateParser.

(** When the parser returns from the expression of a span without a
    structural failure, the span adds nothing if no list-misuse finding was
    recorded; otherwise it adds one [expr-error] diagnostic repeating the
    first finding and then one [list-function-error] diagnostic per
    finding, so [n] findings give [n + 1] diagnostics. *)
Theorem span_findings_reported (self : t) (m : Re.Match)
    (p' : ExpressionParser.t) :
  Py.strip (Re.group_str m 1) ≠ "" →
  ExpressionParser._parse_expression
    (ExpressionParser.budget (Py.strip (Re.group_str m 1)))
    (ExpressionParser.__init__ (Re.group_str m 1)
       (list_elements self) (dom (loop_variables self)))
  = ExpressionParser.Return tt p' →
  validate_expression self m
  = Some (with_diagnostics
            (match ExpressionParser.errors p' with
             | [] => []
             | first :: _ =>
                 diagnostic_at self (Z.of_nat (Re.m_start m))
                   (Py.len (Re.group_str m 1) + 2) 1
                   ("Expression error: " +:+ first.2) "expr-error"
                 :: list_function_diagnostics self (Z.of_nat (Re.m_start m))
                      (Py.len (Re.group_str m 1) + 2)
                      (ExpressionParser.errors p')
             end)
            self).
Proof.
  intros Hne E. unfold validate_expression.
  rewrite (proj2 (String.eqb_neq _ _) (strip_nonempty _ Hne)).
  unfold ExpressionParser.parse.
  cbn [ExpressionParser.expression ExpressionParser.__init__].
  rewrite (truthy_nonempty _ Hne). cbn [negb].
  change (ExpressionParser._parse_expression
            (ExpressionParser.budget (Py.strip (Re.group_str m 1)))
            {| ExpressionParser.expression := Py.strip (Re.group_str m 1);
               ExpressionParser.pos := 0;
               ExpressionParser.list_elements := list_elements self;
               ExpressionParser.loop_variables := dom (loop_variables self);
               ExpressionParser.errors := [] |})
    with (ExpressionParser._parse_expression
            (ExpressionParser.budget (Py.strip (Re.group_str m 1)))
            (ExpressionParser.__init__ (Re.group_str m 1)
               (list_elements self) (dom (loop_variables self)))).
  rewrite E.
  destruct (ExpressionParser.errors p') as [|first rest] eqn:Ee.
  - simpl. unfold ExpressionParser.get_errors. rewrite Ee. simpl.
    rewrite with_diagnostics_nil. reflexivity.
  - cbn [mbind option_bind negb]. simpl negb. cbv iota.
    unfold ExpressionParser.get_errors. rewrite Ee.
    rewrite (report_list_function_errors self) by reflexivity.
    rewrite append_with_diagnostics, with_diagnostics_app. reflexivity.
Qed.

Lemma span_findings_reported_witness :
  ∃ d1 d2 d3,
    validate_expression
      (add_list_element "a" (__init__ "%a.selected() + a.selectedName()%"))
      (Re.mkMatch 0 34 [Some (1, "a.selected() + a.selectedName()")])
    = Some (with_diagnostics [d1; d2; d3]
              (add_list_element "a"
                 (__init__ "%a.selected() + a.selectedName()%"))).
Proof.
  pose (p' := {| ExpressionParser.expression :=
                   "a.selected() + a.selectedName()";
                 ExpressionParser.pos := 31;
                 ExpressionParser.list_elements := {["a"]} ∪ ∅;
                 ExpressionParser.loop_variables := dom (∅ : gmap string string);
                 ExpressionParser.errors :=
                   [(12, on_list_message "selected" "a");
                    (31, on_list_message "selectedName" "a")] |}).
  eexists _, _, _.
  rewrite (span_findings_reported _ _ p').
  - reflexivity.
  - vm_compute. discriminate.
  - vm_compute. reflexivity.
Defined.

End Findings.

(** ** Documents that declare no list *)

Section NoLists.
Import TemplateParser.

Lemma for_each_invariant {A} (Inv : t → Prop) P
    (body : t → A → option t) l s :
  (∀ s s', Inv s → emits P s s' → Inv s') →
  (∀ s x, Inv s → ∃ s', body s x = Some s' ∧ emits P s s') →
  Inv s → ∃ s', for_each body l s = Some s' ∧ emits P s s'.
Proof.
  intros Hi Hb. revert s. induction l as [|x l IH]; intros s Hs; simpl.
  - exists s. split; [reflexivity | apply emits_refl].
  - destruct (Hb s x Hs) as (s1 & E1 & H1). rewrite E1. simpl.
    destruct (IH s1 (Hi _ _ Hs H1)) as (s2 & E2 & H2).
    exists s2. split; [exact E2 | eapply emits_trans; eassumption].
Qed.

Lemma emits_keeps_no_lists P s s' :
  list_elements s = ∅ → emits P s s' → list_elements s' = ∅.
Proof. intros H [(_ & L & _) _]. rewrite L. exact H. Qed.

Lemma parse_no_errors_without_lists e lv :
  ∃ is_valid error_msg p',
    ExpressionParser.parse (ExpressionParser.__init__ e ∅ lv)
    = Some (is_valid, error_msg, p')
    ∧ ExpressionParser.get_errors p' = [].
Proof.
  destruct (parse_returns (ExpressionParser.__init__ e ∅ lv))
    as [[[is_valid error_msg] p'] E].
  exists is_valid, error_msg, p'. split; [exact E|].
  eapply parse_without_lists, E.
Qed.

Lemma validate_expression_without_lists s m :
  list_elements s = ∅ →
  ∃ s', validate_expression s m = Some s'
        ∧ emits (coded 1 "expr-error") s s'.
Proof.
  intros Hl. unfold validate_expression. rewrite Hl.
  destruct (String.eqb _ _).
  { exists s. split; [reflexivity | apply emits_refl]. }
  destruct (parse_no_errors_without_lists (Re.group_str m 1)
              (dom (loop_variables s)))
    as (is_valid & error_msg & p' & E & Hp').
  rewrite E. simpl. rewrite Hp'. simpl. eexists. split; [reflexivity|].
  destruct is_valid; simpl; [apply emits_refl|].
  apply emits_append, coded_diagnostic_at.
Qed.

(** What an attribute adds when no list is declared. *)
Definition plain_attribute_diagnostic (d : Diagnostic) : Prop :=
  coded 2 "unknown-attribute" d ∨ coded 1 "condition-syntax-error" d.

Lemma validate_attribute_without_lists tag_name start_pos s m :
  list_elements s = ∅ →
  ∃ s', validate_attribute tag_name start_pos s m = Some s'
        ∧ emits plain_attribute_diagnostic s s'.
Proof.
  intros Hl. unfold validate_attribute.
  destruct (attribute_of m) as [attr_name attr_value].
  set (s1 := if bool_decide _ then s else _).
  assert (H1 : emits plain_attribute_diagnostic s s1).
  { subst s1. destruct (bool_decide _); [apply emits_refl|].
    apply emits_append. left. apply coded_diagnostic_at. }
  assert (Hl1 : list_elements s1 = ∅).
  { eapply emits_keeps_no_lists; eassumption. }
  destruct (_ && _).
  2:{ exists s1. split; [reflexivity | exact H1]. }
  rewrite Hl1.
  destruct (parse_no_errors_without_lists attr_value
              (dom (loop_variables s1)))
    as (is_valid & error_msg & p' & E & Hp').
  rewrite E. simpl. rewrite Hp'. simpl. eexists. split; [reflexivity|].
  eapply emits_trans; [exact H1|].
  destruct is_valid; simpl; [apply emits_refl|].
  apply emits_append. right. apply coded_diagnostic_at.
Qed.

Lemma validate_tag_without_lists s m :
  list_elements s = ∅ →
  ∃ s', validate_tag s m = Some s'
        ∧ emits (fun d => coded 1 "unknown-tag" d
                          ∨ plain_attribute_diagnostic d) s s'.
Proof.
  intros Hl. unfold validate_tag, _validate_tag_attributes.
  destruct (bool_decide _).
  - destruct (for_each_invariant (fun s => list_elements s = ∅)
                plain_attribute_diagnostic
                (validate_attribute ("wr-" +:+ Re.group_str m 1)
                   (Re.m_start m))
                (Re.finditer Re.attr (Re.group_str m 2)) s)
      as (s' & E & H).
    + intros s1 s2. apply emits_keeps_no_lists.
    + intros s1 x. apply validate_attribute_without_lists.
    + exact Hl.
    + exists s'. split; [exact E|].
      eapply emits_weaken; [|exact H]. intros d Hd. right. exact Hd.
  - eexists. split; [reflexivity|].
    apply emits_append. left. apply coded_diagnostic_at.
Qed.

(** If collecting finds no list declaration in the document (no [wr-for]
    tag with a non-empty [list] attribute), [parse] returns a result that
    holds no [list-function-error] diagnostic. *)
Theorem no_lists_no_list_function_errors (self : t) :
  list_elements
    (_collect_list_elements
       {| content := content self; diagnostics := [];
          list_elements := ∅; loop_variables := ∅ |}) = ∅ →
  ∃ ds self',
    parse self = Some (ds, self')
    ∧ with_code "list-function-error" ds = [].
Proof.
  intros Hl. unfold parse.
  set (s0 := {| content := content self; diagnostics := [];
                list_elements := ∅; loop_variables := ∅ |}) in *.
  destruct (collect_list_elements_keeps s0) as [C1 D1].
  set (s1 := _collect_list_elements s0) in *.
  destruct (for_each_invariant (fun s => list_elements s = ∅)
              (coded 1 "expr-error") validate_expression
              (Re.finditer Re.percent_span (content s1)) s1)
    as (s2 & E2 & H2).
  { intros a b. apply emits_keeps_no_lists. }
  { intros a x. apply validate_expression_without_lists. }
  { exact Hl. }
  unfold _validate_expressions. rewrite E2. simpl.
  pose proof (emits_keeps_no_lists _ _ _ Hl H2) as Hl2.
  destruct (for_each_invariant (fun s => list_elements s = ∅)
              (fun d => coded 1 "unknown-tag" d
                        ∨ plain_attribute_diagnostic d) validate_tag
              (Re.finditer Re.wr_tag (content s2)) s2)
    as (s3 & E3 & H3).
  { intros a b. apply emits_keeps_no_lists. }
  { intros a x. apply validate_tag_without_lists. }
  { exact Hl2. }
  unfold _validate_tags. rewrite E3. simpl.
  destruct (validate_tag_closures_emits s3) as (_ & ds4 & D4 & F4).
  destruct H2 as (_ & ds2 & D2 & F2). destruct H3 as (_ & ds3 & D3 & F3).
  eexists _, _. split; [reflexivity|].
  assert (W2 : with_code "list-function-error" ds2 = []).
  { eapply with_code_none; [|exact F2].
    intros d Hd. eapply coded_other; [|exact Hd]. discriminate. }
  assert (W3 : with_code "list-function-error" ds3 = []).
  { eapply with_code_none; [|exact F3].
    intros d [Hd|[Hd|Hd]]; (eapply coded_other; [|exact Hd]); discriminate. }
  assert (W4 : with_code "list-function-error" ds4 = []).
  { eapply with_code_none; [|exact F4].
    intros d [Hd|Hd]; (eapply coded_other; [|exact Hd]); discriminate. }
  rewrite D4, D3, D2, D1. simpl. rewrite !with_code_app, W2, W3, W4.
  reflexivity.
Qed.

Lemma no_lists_no_list_function_errors_witness :
  ∃ ds self',
    parse (__init__ "<wr-for times='3'>%items.selected()%</wr-for>")
    = Some (ds, self')
    ∧ with_code "list-function-error" ds = [].
Proof.
  apply (no_lists_no_list_function_errors
           (__init__ "<wr-for times='3'>%items.selected()%</wr-for>")).
  apply (bool_decide_unpack _). vm_compute. exact I.
Defined.

End NoLists.

(** ** The first match *)

Section Search.

Lemma search_from_first p s n i m :
  Re.search_from p s n i = Some m →
  ∃ j, i ≤ j ∧ p s j = Some m ∧ ∀ k, i ≤ k < j → p s k = None.
Proof.
  revert i. induction n as [|n IH]; intros i; simpl; [discriminate|].
  destruct (p s i) as [m'|] eqn:E.
  - intros [= <-]. exists i. split; [lia|]. split; [exact E|]. intros k Hk. lia.
  - intros H. destruct (IH _ H) as (j & Hj & Hm & Hnone).
    exists j. split; [lia|]. split; [exact Hm|].
    intros k Hk. destruct (decide (k = i)) as [->|Hne]; [exact E|].
    apply Hnone. lia.
Qed.

Lemma search_from_none p s n i :
  Re.search_from p s n i = None → ∀ k, i ≤ k < i + n → p s k = None.
Proof.
  revert i. induction n as [|n IH]; intros i H k Hk; [lia|].
  simpl in H. destruct (p s i) as [m'|] eqn:E; [discriminate|].
  destruct (decide (k = i)) as [->|Hne]; [exact E|].
  apply (IH (S i) H). lia.
Qed.

(** [search] returns the match at the first offset where the pattern
    matches, and returns nothing only if an anchored pattern matches
    nowhere. *)
Theorem search_leftmost (p : Re.pattern) (s : string) :
  (∀ m, Re.search p s = Some m →
        ∃ j, p s j = Some m ∧ ∀ k, k < j → p s k = None)
  ∧ (anchored p → Re.search p s = None → ∀ k, p s k = None).
Proof.
  split.
  - intros m H. apply search_from_first in H as (j & _ & Hm & Hn).
    exists j. split; [exact Hm|]. intros k Hk. apply Hn. lia.
  - intros Hp H k. destruct (p s k) as [m|] eqn:E; [|reflexivity].
    destruct (Hp _ _ _ E) as (_ & H1 & H2).
    rewrite (search_from_none _ _ _ _ H k) in E by lia. discriminate E.
Qed.

Lemma search_leftmost_witness :
  ∃ m j, Re.search (Re.quoted_attr "list") "mylist='a' list='b'" = Some m
         ∧ Re.quoted_attr "list" "mylist='a' list='b'" j = Some m
         ∧ Re.group_str m 1 = "a".
Proof.
  destruct (search_leftmost (Re.quoted_attr "list") "mylist='a' list='b'")
    as [H _].
  assert (E : ∃ m, Re.search (Re.quoted_attr "list") "mylist='a' list='b'"
                   = Some m ∧ Re.group_str m 1 = "a").
  { vm_compute. eexists. split; reflexivity. }
  destruct E as (m & E & G). destruct (H m E) as (j & Hj & _).
  exists m, j. repeat split; assumption.
Defined.

End Search.

(** ** Words and stray characters *)

Section Words.
Import ExpressionParser.

(** The character under the cursor. *)
Definition here (p : t) : option ascii := Py.at_ (expression p) (pos p).

(** The cursor is at the end of the input or at a word character. *)
Definition at_rest (p : t) : Prop :=
  ∀ c, here p = Some c → Py.isword c = true.

(** Every character of [e] is a word character. *)
Definition wordy (e : string) : Prop :=
  ∀ k c, Py.at_ e k = Some c → Py.isword c = true.

(** An operator that starts with a character outside the words. *)
Definition symbolic (op : string) : Prop :=
  match op with
  | String c0 _ => Py.isword c0 = false
  | EmptyString => False
  end.

Lemma isword_not_space c : Py.isword c = true → Py.isspace c = false.
Proof.
  destruct c as [[] [] [] [] [] [] [] []]; vm_compute; intros H;
    first [reflexivity | discriminate H].
Qed.

Lemma isdigit_isword c : Py.isdigit c = true → Py.isword c = true.
Proof.
  destruct c as [[] [] [] [] [] [] [] []]; vm_compute; intros H;
    first [reflexivity | discriminate H].
Qed.

Lemma set_pos_here p : set_pos (pos p) p = p.
Proof. destruct p; reflexivity. Qed.

Lemma skip_whitespace_fixed p :
  (∀ c, here p = Some c → Py.isspace c = false) →
  _skip_whitespace p = Return tt p.
Proof.
  intros H. unfold _skip_whitespace, modify, Py.scan.
  rewrite scan_from_fixed.
  - rewrite set_pos_here. reflexivity.
  - unfold here in H. destruct (Py.at_ _ _); [apply H; reflexivity | exact I].
Qed.

Lemma match_fixed ch p :
  (∀ c, here p = Some c → Py.isspace c = false) →
  here p ≠ Some ch →
  _match ch p = Return false p.
Proof.
  intros Hs Hc. unfold _match.
  eapply bind_step; [apply skip_whitespace_fixed, Hs|].
  eapply bind_step; [reflexivity|]. cbv beta.
  unfold here in Hc. destruct (Py.at_ _ _) as [c|]; [|reflexivity].
  destruct (Ascii.eqb c ch) eqn:E; [|reflexivity].
  apply Ascii.eqb_eq in E. subst c. destruct Hc. reflexivity.
Qed.

Lemma slice_head s i c r :
  Py.slice s i (i + Py.len (String c r)) = String c r → Py.at_ s i = Some c.
Proof.
  unfold Py.slice, Py.at_, Py.len. cbn [String.length].
  replace (i + S (String.length r) - i) with (S (String.length r)) by lia.
  revert i. induction s as [|a s IH]; intros i.
  - destruct i; discriminate.
  - destruct i as [|i]; cbn [substring String.get].
    + intros [= -> _]. reflexivity.
    + apply IH.
Qed.

Lemma match_operator_fixed c0 r p :
  (∀ c, here p = Some c → Py.isspace c = false) →
  here p ≠ Some c0 →
  _match_operator (String c0 r) p = Return false p.
Proof.
  intros Hs Hc. unfold _match_operator.
  eapply bind_step; [apply skip_whitespace_fixed, Hs|].
  eapply bind_step; [reflexivity|]. cbv beta.
  destruct (_ && _) eqn:E; [|reflexivity].
  apply andb_true_iff in E as [_ E]. apply String.eqb_eq in E.
  apply slice_head in E. destruct (Hc E).
Qed.

Lemma at_rest_spaces p c : at_rest p → here p = Some c → Py.isspace c = false.
Proof. intros Hr Hc. apply isword_not_space, Hr, Hc. Qed.

Lemma at_rest_apart p c0 : at_rest p → Py.isword c0 = false → here p ≠ Some c0.
Proof. intros Hr H0 Hc. apply Hr in Hc. congruence. Qed.

Lemma match_at_rest ch p :
  at_rest p → Py.isword ch = false → _match ch p = Return false p.
Proof.
  intros Hr Hc. apply match_fixed.
  - intros c. apply at_rest_spaces, Hr.
  - apply at_rest_apart; assumption.
Qed.

Lemma match_operator_at_rest op p :
  at_rest p → symbolic op → _match_operator op p = Return false p.
Proof.
  intros Hr Hop. destruct op as [|c0 r]; [destruct Hop|].
  apply match_operator_fixed.
  - intros c. apply at_rest_spaces, Hr.
  - apply at_rest_apart; assumption.
Qed.

Lemma first_matching_at_rest ops p :
  at_rest p → Forall symbolic ops → first_matching ops p = Return false p.
Proof.
  intros Hr. induction 1 as [|op ops Hop _ IH]; [reflexivity|].
  cbn [first_matching].
  eapply bind_step; [apply match_operator_at_rest; assumption|].
  exact IH.
Qed.

Lemma match_any_operator_at_rest ops p :
  at_rest p → Forall symbolic (Py.sorted_desc Py.len ops) →
  _match_any_operator ops p = Return false p.
Proof. intros Hr H. apply first_matching_at_rest; assumption. Qed.

Lemma while_false f cond body p :
  cond p = Return false p → while (S f) cond body p = Return tt p.
Proof. intros H. cbn [while]. eapply bind_step; [exact H|]. reflexivity. Qed.

Lemma parse_primary_expression_S f :
  _parse_primary_expression (S f) =
  bind _skip_whitespace (fun _ =>
  bind get (fun s =>
    match Py.at_ (expression s) (pos s) with
    | None => raise "Unexpected end of expression"
    | Some c =>
        if Ascii.eqb c Py.dquote
        then bind _parse_string_literal (fun _ => ret None)
        else if Py.isdigit c
        then bind _parse_number_literal (fun _ => ret None)
        else if Ascii.eqb c "("
        then bind (_match "(") (fun _ =>
             bind (_parse_expression f) (fun _ =>
             bind (_expect ")") (fun _ => ret None)))
        else bind _parse_identifier (fun id => ret (Some id))
    end)).
Proof. reflexivity. Qed.

(** At rest, the postfix loop finds no call, index or member access. *)
Lemma postfix_loop_at_rest f chain p :
  at_rest p → postfix_loop (S f) chain p = Return chain p.
Proof.
  intros Hr. rewrite postfix_loop_S.
  eapply bind_step; [apply match_at_rest; [exact Hr | reflexivity]|].
  cbv beta iota.
  eapply bind_step; [apply match_at_rest; [exact Hr | reflexivity]|].
  cbv beta iota.
  eapply bind_step; [apply match_at_rest; [exact Hr | reflexivity]|].
  reflexivity.
Qed.

Lemma comparison_operators_symbolic :
  Forall symbolic (Py.sorted_desc Py.len ["=="; "!="; "<"; "<="; ">"; ">="]).
Proof. repeat (constructor; [vm_compute; reflexivity|]). constructor. Qed.

Lemma additive_operators_symbolic :
  Forall symbolic (Py.sorted_desc Py.len ["+"; "-"]).
Proof. repeat (constructor; [vm_compute; reflexivity|]). constructor. Qed.

Lemma multiplicative_operators_symbolic :
  Forall symbolic (Py.sorted_desc Py.len ["*"; "/"; "%"]).
Proof. repeat (constructor; [vm_compute; reflexivity|]). constructor. Qed.

Lemma level_at_rest {A} (m : M A) f cond body p a p' :
  m p = Return a p' → cond p' = Return false p' →
  bind m (fun _ => while (S f) cond body) p = Return tt p'.
Proof.
  intros Hm Hc. eapply bind_step; [exact Hm|]. apply while_false, Hc.
Qed.

(** At rest after a unary expression, no binary operator follows and every
    level of the grammar returns. *)
Lemma levels_at_rest f p p' :
  at_rest p' →
  _parse_unary_expression (S f) p = Return tt p' →
  _parse_expression (S (S (S (S (S (S (S f))))))) p = Return tt p'.
Proof.
  intros Hr E.
  rewrite parse_expression_S, parse_or_expression_S.
  apply (level_at_rest _ _ _ _ _ tt).
  2:{ apply match_operator_at_rest; [exact Hr | reflexivity]. }
  rewrite parse_and_expression_S.
  apply (level_at_rest _ _ _ _ _ tt).
  2:{ apply match_operator_at_rest; [exact Hr | reflexivity]. }
  rewrite parse_comparison_expression_S.
  apply (level_at_rest _ _ _ _ _ tt).
  2:{ apply match_any_operator_at_rest;
        [exact Hr | exact comparison_operators_symbolic]. }
  rewrite parse_additive_expression_S.
  apply (level_at_rest _ _ _ _ _ tt).
  2:{ apply match_any_operator_at_rest;
        [exact Hr | exact additive_operators_symbolic]. }
  rewrite parse_multiplicative_expression_S.
  apply (level_at_rest _ _ _ _ _ tt).
  2:{ apply match_any_operator_at_rest;
        [exact Hr | exact multiplicative_operators_symbolic]. }
  exact E.
Qed.

Lemma wordy_at_rest p : wordy (expression p) → at_rest p.
Proof. intros Hw c Hc. exact (Hw _ _ Hc). Qed.

Lemma at_None_ge s i : Py.at_ s i = None → Py.len s ≤ i.
Proof.
  intros H. destruct (Nat.le_gt_cases (Py.len s) i) as [|Hlt]; [assumption|].
  unfold Py.at_, Py.len in *. revert i H Hlt.
  induction s as [|a s IH]; intros i H Hlt; simpl in *; [lia|].
  destruct i as [|i]; [discriminate H|]. apply IH in H; lia.
Qed.

Lemma primary_wordy f p :
  wordy (expression p) → pos p < Py.len (expression p) →
  ∃ r j, _parse_primary_expression (S f) p = Return r (set_pos j p).
Proof.
  intros Hw Hlt. pose proof (wordy_at_rest p Hw) as Hr.
  rewrite parse_primary_expression_S.
  destruct (Py.at_ (expression p) (pos p)) as [c|] eqn:E.
  2:{ apply at_None_ge in E. lia. }
  pose proof (Hw _ _ E) as Hc.
  assert (Hq : Ascii.eqb c Py.dquote = false).
  { apply Ascii.eqb_neq. intros ->. discriminate Hc. }
  assert (Hp : Ascii.eqb c "(" = false).
  { apply Ascii.eqb_neq. intros ->. discriminate Hc. }
  destruct (Py.isdigit c) eqn:Hd.
  - eexists None, _.
    eapply bind_step;
      [apply skip_whitespace_fixed; intros c'; apply at_rest_spaces, Hr|].
    eapply bind_step; [reflexivity|]. cbv beta.
    rewrite E, Hq, Hd. reflexivity.
  - eexists (Some _), _.
    eapply bind_step;
      [apply skip_whitespace_fixed; intros c'; apply at_rest_spaces, Hr|].
    eapply bind_step; [reflexivity|]. cbv beta.
    rewrite E, Hq, Hd, Hp. unfold _parse_identifier.
    eapply bind_step; [|reflexivity].
    eapply bind_step;
      [apply skip_whitespace_fixed; intros c'; apply at_rest_spaces, Hr|].
    eapply bind_step; [reflexivity|]. cbv beta.
    rewrite E, Hc. reflexivity.
Qed.

Lemma unary_wordy f p :
  wordy (expression p) → pos p < Py.len (expression p) →
  ∃ j, _parse_unary_expression (S (S (S f))) p = Return tt (set_pos j p).
Proof.
  intros Hw Hlt. pose proof (wordy_at_rest p Hw) as Hr.
  destruct (primary_wordy f p Hw Hlt) as (r & j & E). exists j.
  rewrite parse_unary_expression_S.
  eapply bind_step; [apply match_operator_at_rest; [exact Hr | reflexivity]|].
  cbv beta iota.
  eapply bind_step; [|reflexivity].
  rewrite parse_postfix_expression_S.
  eapply bind_step; [exact E|].
  apply postfix_loop_at_rest, wordy_at_rest. exact Hw.
Qed.

Lemma budget_unfolded e :
  budget e = S (S (S (S (S (S (S (S (S (20 * Py.len e + 11))))))))).
Proof. unfold budget. lia. Qed.

Lemma len_positive s : s ≠ "" → 0 < Py.len s.
Proof. destruct s; [congruence | simpl; lia]. Qed.

(** An expression made of word characters only (a name, a number, or
    digits followed by letters) is valid whatever lists are declared: the
    parser records no finding, so naming a list element without calling a
    function on it is never reported. *)
Theorem word_accepted (e : string) (le lv : gset string) :
  Py.strip e ≠ "" → wordy (Py.strip e) →
  ∃ p', parse (__init__ e le lv) = Some (true, None, p')
        ∧ get_errors p' = [].
Proof.
  intros Hne Hw.
  destruct (unary_wordy (20 * Py.len (Py.strip e) + 11) (__init__ e le lv))
    as (j & E).
  { exact Hw. }
  { apply len_positive, Hne. }
  apply levels_at_rest in E; [|apply wordy_at_rest; exact Hw].
  exists (set_pos j (__init__ e le lv)). split; [|reflexivity].
  unfold parse. cbn [expression __init__].
  rewrite (truthy_nonempty _ Hne). cbn [negb].
  rewrite budget_unfolded.
  change {| expression := Py.strip e; pos := 0; list_elements := le;
            loop_variables := lv; errors := [] |}
    with (__init__ e le lv).
  rewrite E. reflexivity.
Qed.

Lemma word_accepted_witness :
  ∃ p', parse (__init__ " items " {["items"]} ∅) = Some (true, None, p')
        ∧ get_errors p' = [].
Proof.
  apply (word_accepted " items " {["items"]} ∅).
  - vm_compute. discriminate.
  - intros k c.
    do 5 (destruct k as [|k]; [intros [= <-]; reflexivity|]).
    discriminate.
Defined.

Lemma bind_raise {A B} (m : M A) (k : A → M B) p msg p' :
  m p = Raise msg p' → bind m k p = Raise msg p'.
Proof. intros H. unfold bind. rewrite H. reflexivity. Qed.

Lemma lstrip_head s :
  match Py.lstrip s with
  | String c _ => Py.isspace c = false
  | EmptyString => True
  end.
Proof.
  induction s as [|a s IH]; simpl; [exact I|].
  destruct (Py.isspace a) eqn:E; [exact IH | exact E].
Qed.

Lemma rstrip_head s c :
  Py.at_ (Py.rstrip s) 0 = Some c → Py.at_ s 0 = Some c.
Proof.
  destruct s as [|a s]; simpl; [discriminate|].
  destruct (Py.rstrip s); [destruct (Py.isspace a)|]; simpl; congruence.
Qed.

Lemma strip_head e c :
  Py.at_ (Py.strip e) 0 = Some c → Py.isspace c = false.
Proof.
  unfold Py.strip. intros H. apply rstrip_head in H.
  pose proof (lstrip_head e) as L.
  destruct (Py.lstrip e); [discriminate H|].
  injection H as ->. exact L.
Qed.

Lemma not_word_not_digit c : Py.isword c = false → Py.isdigit c = false.
Proof.
  intros H. destruct (Py.isdigit c) eqn:E; [|reflexivity].
  apply isdigit_isword in E. congruence.
Qed.

(** An expression whose first character can start no primary expression
    (it is no word character, no double quote, no opening parenthesis and
    no negation) is rejected with [Expected identifier at position 0], and
    the parser object is left as it was built. *)
Theorem stray_character_rejected (e : string) (le lv : gset string)
    (c : ascii) :
  Py.at_ (Py.strip e) 0 = Some c →
  Py.isword c = false → c ≠ Py.dquote → c ≠ "("%char → c ≠ "!"%char →
  parse (__init__ e le lv)
  = Some (false, Some "Expected identifier at position 0", __init__ e le lv).
Proof.
  intros E Hw Hq Hp Hn.
  pose proof (strip_head _ _ E) as Hs.
  set (p := __init__ e le lv).
  assert (Hh : here p = Some c) by exact E.
  assert (Hsp : ∀ c', here p = Some c' → Py.isspace c' = false).
  { intros c' Hc'. rewrite Hh in Hc'. injection Hc' as <-. exact Hs. }
  apply parse_raise.
  { subst p. cbn [expression __init__]. intros H. rewrite H in E.
    discriminate E. }
  rewrite budget_unfolded.
  rewrite parse_expression_S, parse_or_expression_S. apply bind_raise.
  rewrite parse_and_expression_S. apply bind_raise.
  rewrite parse_comparison_expression_S. apply bind_raise.
  rewrite parse_additive_expression_S. apply bind_raise.
  rewrite parse_multiplicative_expression_S. apply bind_raise.
  rewrite parse_unary_expression_S.
  eapply bind_step.
  { apply match_operator_fixed; [exact Hsp|]. rewrite Hh. congruence. }
  cbv beta iota. apply bind_raise.
  rewrite parse_postfix_expression_S. apply bind_raise.
  rewrite parse_primary_expression_S.
  eapply bind_step; [apply skip_whitespace_fixed, Hsp|].
  eapply bind_step; [reflexivity|]. cbv beta.
  unfold here in Hh. rewrite Hh.
  rewrite (proj2 (Ascii.eqb_neq _ _) Hq), (not_word_not_digit _ Hw),
    (proj2 (Ascii.eqb_neq _ _) Hp).
  apply bind_raise. unfold _parse_identifier.
  eapply bind_step; [apply skip_whitespace_fixed, Hsp|].
  eapply bind_step; [reflexivity|]. cbv beta.
  rewrite Hh, Hw. reflexivity.
Qed.

Lemma stray_character_rejected_witness :
  parse (__init__ "'abc' == name" ∅ ∅)
  = Some (false, Some "Expected identifier at position 0",
          __init__ "'abc' == name" ∅ ∅).
Proof.
  apply (stray_character_rejected "'abc' == name" ∅ ∅ "'"%char).
  - reflexivity.
  - reflexivity.
  - discriminate.
  - discriminate.
  - discriminate.
Defined.

End Words.

(** ** What each occurrence contributes to the result *)

Section Contributions.
Import TemplateParser.

(** The parser object after the reset and the collecting pass of
    [parse]. *)
Definition collected_context (self : t) : t :=
  _collect_list_elements
    {| content := content self; diagnostics := [];
       list_elements := ∅; loop_variables := ∅ |}.

(** The loop body [body], run for [x] on any parser object that has the
    content, list elements and loop variables of [s], returns and appends
    exactly the diagnostics [c]. *)
Definition contributes {A} (body : t → A → option t) (s : t) (x : A)
    (c : list Diagnostic) : Prop :=
  ∀ s', same_context s s' → body s' x = Some (with_diagnostics c s').

(** The result of [parse], occurrence by occurrence: the contributions of
    the spans in document order, then those of the opening tags in
    document order, then the closure diagnostics. *)
Definition parse_result (self : t) (spans tags : list (list Diagnostic))
    (closures : list Diagnostic) : Prop :=
  (∃ self', parse self
            = Some (concat spans ++ concat tags ++ closures, self'))
  ∧ Forall2 (contributes validate_expression (collected_context self))
      (Re.finditer Re.percent_span (content self)) spans
  ∧ Forall2 (contributes validate_tag (collected_context self))
      (Re.finditer Re.wr_tag (content self)) tags
  ∧ Forall closure_diagnostic closures.

Lemma same_context_refl s : same_context s s.
Proof. repeat split. Qed.

Lemma same_context_trans s1 s2 s3 :
  same_context s1 s2 → same_context s2 s3 → same_context s1 s3.
Proof.
  intros (C1 & L1 & V1) (C2 & L2 & V2). repeat split; congruence.
Qed.

Lemma same_context_with_diagnostics c s : same_context s (with_diagnostics c s).
Proof. repeat split. Qed.

Lemma with_diagnostics_inj c c' s :
  with_diagnostics c s = with_diagnostics c' s → c = c'.
Proof.
  unfold with_diagnostics. intros [= H]. eapply app_inv_head, H.
Qed.

Lemma contributes_unique {A} (body : t → A → option t) s x c c' :
  contributes body s x c → contributes body s x c' → c = c'.
Proof.
  intros H H'. specialize (H s (same_context_refl s)).
  specialize (H' s (same_context_refl s)). rewrite H in H'.
  injection H' as H'. eapply app_inv_head, H'.
Qed.

Lemma contributes_context {A} (body : t → A → option t) s s' x c :
  same_context s s' → contributes body s x c → contributes body s' x c.
Proof.
  intros Hs H s2 H2. apply H. eapply same_context_trans; eassumption.
Qed.

(** The diagnostics of one validated expression: the failure diagnostic,
    if the expression is not valid, then one diagnostic per finding. *)
Definition expression_diagnostics (self : t) (pos : Z) (width : nat)
    (prefix failure : string)
    (r : bool * option string * ExpressionParser.t) : list Diagnostic :=
  let '(is_valid, error_msg, parser) := r in
  (if negb is_valid
   then [diagnostic_at self pos width 1 (prefix +:+ fmt error_msg) failure]
   else [])
  ++ list_function_diagnostics self pos width
       (ExpressionParser.get_errors parser).

Lemma validate_expression_contributes_parsed s m r :
  Re.group_str m 1 ≠ "" →
  ExpressionParser.parse
    (ExpressionParser.__init__ (Re.group_str m 1) (list_elements s)
       (dom (loop_variables s))) = Some r →
  contributes validate_expression s m
    (expression_diagnostics s (Z.of_nat (Re.m_start m))
       (Py.len (Re.group_str m 1) + 2) "Expression error: " "expr-error" r).
Proof.
  intros Hne E s' (C & L & V). unfold validate_expression.
  rewrite (proj2 (String.eqb_neq _ _) Hne). rewrite L, V, E.
  destruct r as [[is_valid error_msg] parser]. cbn [mbind option_bind].
  cbv beta iota. rewrite (report_list_function_errors s).
  2:{ destruct (negb is_valid); exact C. }
  unfold expression_diagnostics. destruct is_valid; cbn [negb app].
  - reflexivity.
  - rewrite append_with_diagnostics, with_diagnostics_app.
    rewrite (diagnostic_at_content s' s) by exact C. reflexivity.
Qed.

Lemma validate_expression_contributes s m :
  ∃ c, contributes validate_expression s m c.
Proof.
  destruct (String.eqb (Re.group_str m 1) "") eqn:E0.
  - exists []. intros s' _. unfold validate_expression. rewrite E0.
    rewrite with_diagnostics_nil. reflexivity.
  - apply String.eqb_neq in E0.
    destruct (parse_returns
                (ExpressionParser.__init__ (Re.group_str m 1)
                   (list_elements s) (dom (loop_variables s)))) as [r E].
    eexists. apply (validate_expression_contributes_parsed s m r E0 E).
Qed.

Lemma for_each_contributes {A} (body : t → A → option t) l s :
  (∀ s x, ∃ c, contributes body s x c) →
  ∃ cs, Forall2 (contributes body s) l cs
        ∧ ∀ s', same_context s s' →
                for_each body l s' = Some (with_diagnostics (concat cs) s').
Proof.
  intros Hb. induction l as [|x l IH].
  - exists []. split; [constructor|]. intros s' _.
    cbn [for_each concat]. rewrite with_diagnostics_nil. reflexivity.
  - destruct (Hb s x) as [c Hc]. destruct IH as (cs & F & H).
    exists (c :: cs). split; [constructor; assumption|].
    intros s' Hs. cbn [for_each concat]. rewrite (Hc s' Hs).
    cbn [mbind option_bind]. rewrite H.
    + rewrite with_diagnostics_app. reflexivity.
    + eapply same_context_trans;
        [exact Hs | apply same_context_with_diagnostics].
Qed.

Lemma validate_attribute_contributes tag_name start_pos s m :
  ∃ c, contributes (validate_attribute tag_name start_pos) s m c.
Proof.
  destruct (attribute_of m) as [attr_name attr_value] eqn:Ea.
  set (warning :=
         if bool_decide (attr_name ∈ default [] (TAG_ATTRIBUTES !! tag_name))
         then []
         else [diagnostic_at s
                 (Z.of_nat start_pos + Z.of_nat (Re.m_start m))
                 (Py.len attr_name) 2
                 ("Unknown attribute '" +:+ attr_name +:+ "' for tag '"
                  +:+ tag_name +:+ "'")
                 "unknown-attribute"]).
  assert (W : ∀ s', same_context s s' →
                (if bool_decide
                      (attr_name ∈ default [] (TAG_ATTRIBUTES !! tag_name))
                 then s'
                 else append
                        (diagnostic_at s'
                           (Z.of_nat start_pos + Z.of_nat (Re.m_start m))
                           (Py.len attr_name) 2
                           ("Unknown attribute '" +:+ attr_name
                            +:+ "' for tag '" +:+ tag_name +:+ "'")
                           "unknown-attribute") s')
                = with_diagnostics warning s').
  { intros s' (C & _). subst warning. destruct (bool_decide _).
    - rewrite with_diagnostics_nil. reflexivity.
    - rewrite (diagnostic_at_content s' s) by exact C. reflexivity. }
  destruct (String.eqb attr_name "condition" && Py.truthy attr_value) eqn:Ec.
  - destruct (parse_returns
                (ExpressionParser.__init__ attr_value
                   (list_elements s) (dom (loop_variables s)))) as [r E].
    exists (warning
            ++ expression_diagnostics s
                 (Z.of_nat start_pos + Re.start_of m 2) (Py.len attr_value)
                 "Condition syntax error: " "condition-syntax-error" r).
    intros s' Hs. pose proof Hs as (C & L & V).
    unfold validate_attribute. rewrite Ea, Ec, (W s' Hs).
    cbn [list_elements loop_variables with_diagnostics].
    rewrite L, V, E.
    destruct r as [[is_valid error_msg] parser]. cbn [mbind option_bind].
    cbv beta iota. rewrite (report_list_function_errors s).
    2:{ destruct (negb is_valid); exact C. }
    unfold expression_diagnostics. destruct is_valid; cbn [negb app].
    + rewrite with_diagnostics_app. reflexivity.
    + rewrite append_with_diagnostics, !with_diagnostics_app.
      rewrite (diagnostic_at_content (with_diagnostics warning s') s)
        by exact C.
      reflexivity.
  - exists warning. intros s' Hs.
    unfold validate_attribute. rewrite Ea, Ec, (W s' Hs). reflexivity.
Qed.

Lemma validate_tag_contributes s m :
  ∃ c, contributes validate_tag s m c.
Proof.
  destruct (bool_decide ("wr-" +:+ Re.group_str m 1 ∈ VALID_TAGS)) eqn:Ev.
  - destruct (for_each_contributes
                (validate_attribute ("wr-" +:+ Re.group_str m 1)
                   (Re.m_start m))
                (Re.finditer Re.attr (Re.group_str m 2)) s)
      as (cs & _ & H).
    { intros s0 x. apply validate_attribute_contributes. }
    exists (concat cs). intros s' Hs.
    unfold validate_tag, _validate_tag_attributes. rewrite Ev.
    apply H, Hs.
  - eexists [_]. intros s' (C & _).
    unfold validate_tag. rewrite Ev.
    rewrite (diagnostic_at_content s' s) by exact C. reflexivity.
Qed.

(** Every parse result is made of the contributions of the spans, of the
    opening tags and of the closure pass. *)
Lemma parse_by_occurrence self :
  ∃ spans tags closures, parse_result self spans tags closures.
Proof.
  unfold parse_result, parse, collected_context.
  set (s0 := {| content := content self; diagnostics := [];
                list_elements := ∅; loop_variables := ∅ |}).
  destruct (collect_list_elements_keeps s0) as [C1 D1].
  set (s1 := _collect_list_elements s0) in *.
  destruct (for_each_contributes validate_expression
              (Re.finditer Re.percent_span (content s1)) s1
              validate_expression_contributes) as (spans & Fs & Hs).
  destruct (for_each_contributes validate_tag
              (Re.finditer Re.wr_tag (content s1)) s1
              validate_tag_contributes) as (tags & Ft & Ht).
  destruct (validate_tag_closures_emits
              (with_diagnostics (concat tags)
                 (with_diagnostics (concat spans) s1)))
    as (_ & closures & D4 & F4).
  exists spans, tags, closures. split; [|split; [|split]].
  - unfold _validate_expressions, _validate_tags.
    rewrite (Hs s1 (same_context_refl s1)). cbn [mbind option_bind].
    change (content (with_diagnostics (concat spans) s1)) with (content s1).
    rewrite (Ht _ (same_context_with_diagnostics _ s1)).
    cbn [mbind option_bind]. eexists. f_equal. f_equal.
    rewrite D4. cbn [diagnostics with_diagnostics]. rewrite D1.
    subst s0. cbn [diagnostics app]. rewrite <- app_assoc. reflexivity.
  - rewrite C1 in Fs. exact Fs.
  - rewrite C1 in Ft. exact Ft.
  - exact F4.
Qed.


Lemma parse_result_tag self spans tags closures i m c :
  parse_result self spans tags closures →
  Re.finditer Re.wr_tag (content self) !! i = Some m →
  contributes validate_tag (collected_context self) m c →
  tags !! i = Some c.
Proof.
  intros (_ & _ & F & _) Hi Hc.
  destruct (Forall2_lookup_l _ _ _ _ _ F Hi) as (c' & E & Hc').
  rewrite E. f_equal. eapply contributes_unique; eassumption.
Qed.

End Contributions.

(** ** A declared list and a call on it, in one document *)

Section DeclaredList.
Import TemplateParser.

Lemma collected_context_content self :
  content (collected_context self) = content self.
Proof.
  unfold collected_context.
  rewrite (proj1 (collect_list_elements_keeps _)). reflexivity.
Qed.






End DeclaredList.

(** ** Unknown tags in the parse result *)

Section UnknownTagOccurrences.
Import TemplateParser.

(** The diagnostic reported for a tag match with an unknown name. *)
Definition unknown_tag_diagnostic (self : t) (m : Re.Match) : Diagnostic :=
  diagnostic_at self (Z.of_nat (Re.m_start m))
    (Py.len ("wr-" +:+ Re.group_str m 1) + 2) 1
    ("Unknown tag: " +:+ "wr-" +:+ Re.group_str m 1) "unknown-tag".

Lemma unknown_tag_contributes s m :
  "wr-" +:+ Re.group_str m 1 ∉ VALID_TAGS →
  contributes validate_tag s m [unknown_tag_diagnostic s m].
Proof.
  intros H s' (C & _). unfold validate_tag.
  rewrite bool_decide_eq_false_2 by exact H.
  unfold unknown_tag_diagnostic.
  rewrite (diagnostic_at_content s' s) by exact C. reflexivity.
Qed.

Lemma contributes_emits {A} P (body : t → A → option t) s x c :
  emitting P body → contributes body s x c → Forall P c.
Proof.
  intros Hb Hc. destruct (Hb s x) as (s' & E & _ & ds & D & F).
  rewrite (Hc s (same_context_refl s)) in E. injection E as <-.
  cbn [diagnostics with_diagnostics] in D. apply app_inv_head in D.
  subst ds. exact F.
Qed.

Lemma known_tag_contributes s m c :
  "wr-" +:+ Re.group_str m 1 ∈ VALID_TAGS →
  contributes validate_tag s m c → with_code "unknown-tag" c = [].
Proof.
  intros H Hc.
  assert (Ha : contributes
                 (fun s (_ : Re.Match) =>
                    for_each
                      (validate_attribute ("wr-" +:+ Re.group_str m 1)
                         (Re.m_start m))
                      (Re.finditer Re.attr (Re.group_str m 2)) s)
                 s m c).
  { intros s' Hs. specialize (Hc s' Hs). unfold validate_tag in Hc.
    rewrite bool_decide_eq_true_2 in Hc by exact H. exact Hc. }
  eapply with_code_none; [apply attribute_diagnostic_not_unknown_tag|].
  eapply contributes_emits; [|exact Ha].
  intros s0 _. apply emits_for_each, validate_attribute_emits.
Qed.

Lemma tags_with_unknown_code s l tags :
  Forall2 (contributes validate_tag s) l tags →
  with_code "unknown-tag" (concat tags)
  = map (unknown_tag_diagnostic s)
      (List.filter
         (fun m => negb (bool_decide
                           ("wr-" +:+ Re.group_str m 1 ∈ VALID_TAGS)))
         l).
Proof.
  induction 1 as [|m c l tags Hc _ IH]; [reflexivity|].
  cbn [concat List.filter]. rewrite with_code_app, IH.
  destruct (bool_decide _) eqn:Hv; cbn [negb].
  - apply bool_decide_eq_true_1 in Hv.
    rewrite (known_tag_contributes _ _ _ Hv Hc). reflexivity.
  - apply bool_decide_eq_false_1 in Hv.
    rewrite (contributes_unique _ _ _ _ _ Hc (unknown_tag_contributes s m Hv)).
    unfold with_code at 1. cbn [List.filter].
    unfold unknown_tag_diagnostic at 1. rewrite code_diagnostic_at.
    reflexivity.
Qed.

Lemma parse_result_unknown_tags self spans tags closures :
  parse_result self spans tags closures →
  with_code "unknown-tag" (concat spans ++ concat tags ++ closures)
  = map (unknown_tag_diagnostic self) (unknown_tags (content self)).
Proof.
  intros (_ & Fs & Ft & Fc).
  assert (C : content (collected_context self) = content self).
  { apply collected_context_content. }
  rewrite !with_code_app.
  rewrite (with_code_none _ _ _ closure_diagnostic_not_unknown_tag Fc).
  rewrite (tags_with_unknown_code _ _ _ Ft).
  assert (Hs : with_code "unknown-tag" (concat spans) = []).
  { clear Ft. induction Fs as [|m c l spans Hc _ IH]; [reflexivity|].
    cbn [concat]. rewrite with_code_app, IH, app_nil_r.
    eapply with_code_none; [apply expression_diagnostic_not_unknown_tag|].
    eapply contributes_emits; [apply validate_expression_emits | exact Hc]. }
  rewrite Hs, app_nil_r. cbn [app]. unfold unknown_tags.
  apply map_ext. intros m. unfold unknown_tag_diagnostic.
  apply diagnostic_at_content, C.
Qed.

(** C7: an opening tag of the document whose name is outside the tag
    vocabulary contributes exactly one diagnostic to the parse result, an
    Error with code [unknown-tag] at the tag; its attributes are not
    looked at, whatever they are; and the diagnostics with code
    [unknown-tag] in the result are exactly these, one per such
    occurrence, in document order. *)
Theorem unknown_tag_reported_once (self : t) (i : nat) (m : Re.Match) :
  Re.finditer Re.wr_tag (content self) !! i = Some m →
  "wr-" +:+ Re.group_str m 1 ∉ VALID_TAGS →
  ∃ d spans tags closures,
    parse_result self spans tags closures
    ∧ tags !! i = Some [d]
    ∧ d = unknown_tag_diagnostic self m
    ∧ severity d = 1
    ∧ code d = Some "unknown-tag"
    ∧ message d = "Unknown tag: " +:+ "wr-" +:+ Re.group_str m 1
    ∧ validate_tag self m = Some (append d self)
    ∧ (∀ attributes,
         validate_tag self
           (Re.mkMatch (Re.m_start m) (Re.m_end m)
              [Some (Re.m_start m + 4, Re.group_str m 1); attributes])
         = Some (append d self))
    ∧ with_code "unknown-tag" (concat spans ++ concat tags ++ closures)
      = map (unknown_tag_diagnostic self) (unknown_tags (content self)).
Proof.
  intros Hi H.
  destruct (parse_by_occurrence self) as (spans & tags & closures & R).
  assert (C : content (collected_context self) = content self).
  { apply collected_context_content. }
  pose proof (unknown_tag_contributes (collected_context self) m H) as Hc.
  assert (E : unknown_tag_diagnostic (collected_context self) m
              = unknown_tag_diagnostic self m).
  { unfold unknown_tag_diagnostic. apply diagnostic_at_content, C. }
  rewrite E in Hc.
  exists (unknown_tag_diagnostic self m), spans, tags, closures.
  split; [exact R|].
  split; [exact (parse_result_tag _ _ _ _ _ _ _ R Hi Hc)|].
  split; [reflexivity|].
  split; [apply severity_diagnostic_at|].
  split; [apply code_diagnostic_at|].
  split; [apply message_diagnostic_at|].
  split.
  { unfold validate_tag. rewrite bool_decide_eq_false_2 by exact H.
    reflexivity. }
  split; [|exact (parse_result_unknown_tags _ _ _ _ R)].
  intros attributes. unfold validate_tag.
  change (Re.group_str (Re.mkMatch _ _ [Some (_, ?g); attributes]) 1)
    with g.
  rewrite bool_decide_eq_false_2 by exact H. reflexivity.
Qed.

Lemma unknown_tag_reported_once_witness :
  ∃ d spans tags closures,
    parse_result (__init__ "<wr-foo bar='1'>") spans tags closures
    ∧ tags !! 0 = Some [d]
    ∧ code d = Some "unknown-tag"
    ∧ message d = "Unknown tag: wr-foo".
Proof.
  destruct (unknown_tag_reported_once (__init__ "<wr-foo bar='1'>") 0
              (Re.mkMatch 0 16 [Some (4, "foo"); Some (7, " bar='1'")]))
    as (d & spans & tags & closures & R & T & _ & _ & C & M & _ & _).
  - vm_compute. reflexivity.
  - apply (bool_decide_unpack _). vm_compute. exact I.
  - exists d, spans, tags, closures.
    split; [exact R|]. split; [exact T|]. split; [exact C | exact M].
Defined.

End UnknownTagOccurrences.

(** ** Structural failures in the parse result *)

Section FailureOccurrences.
Import TemplateParser.












End FailureOccurrences.

(** ** The chain of a call, as postfix parsing builds it *)

Section Chains.
Import ExpressionParser.

(** A name: not empty and made of word characters. *)
Definition identifier (n : string) : Prop := n ≠ "" ∧ wordy n.

(** The text after the first name of a dotted chain that ends in a call
    without arguments. *)
Fixpoint members (l : list string) : string :=
  match l with
  | [] => "()"
  | n :: l' => "." +:+ n +:+ members l'
  end.

(** The cursor of [p] stands between [done] and [rest]. *)
Definition splits (p : t) (done rest : string) : Prop :=
  expression p = done +:+ rest ∧ pos p = Py.len done.

(** [rest] is empty or starts outside the words. *)
Definition stops (rest : string) : Prop :=
  match rest with
  | String c _ => Py.isword c = false
  | EmptyString => True
  end.

Lemma app_cons x (a b : string) : String x a +:+ b = String x (a +:+ b).
Proof. reflexivity. Qed.

Lemma string_app_assoc (a b c : string) : (a +:+ b) +:+ c = a +:+ b +:+ c.
Proof.
  induction a as [|x a IH]; [reflexivity|].
  rewrite !app_cons, IH. reflexivity.
Qed.

Lemma len_app a b : Py.len (a +:+ b) = Py.len a + Py.len b.
Proof.
  unfold Py.len. induction a as [|x a IH]; [reflexivity|].
  rewrite app_cons. cbn [String.length Nat.add]. rewrite IH. reflexivity.
Qed.

Lemma at_app_r a b k : Py.at_ (a +:+ b) (Py.len a + k) = Py.at_ b k.
Proof.
  unfold Py.at_, Py.len. induction a as [|x a IH]; [reflexivity|].
  rewrite app_cons. cbn [String.length Nat.add String.get]. exact IH.
Qed.

Lemma substring_app_r a b k :
  substring (String.length a) k (a +:+ b) = substring 0 k b.
Proof.
  induction a as [|x a IH]; [reflexivity|].
  rewrite app_cons. cbn [String.length substring]. exact IH.
Qed.

Lemma substring_prefix n rest :
  substring 0 (String.length n) (n +:+ rest) = n.
Proof.
  induction n as [|x n IH]; [destruct rest; reflexivity|].
  rewrite app_cons. cbn [String.length substring]. rewrite IH. reflexivity.
Qed.

Lemma slice_app done n rest :
  Py.slice (done +:+ n +:+ rest) (Py.len done) (Py.len done + Py.len n) = n.
Proof.
  unfold Py.slice, Py.len.
  replace (String.length done + String.length n - String.length done)
    with (String.length n) by lia.
  rewrite substring_app_r. apply substring_prefix.
Qed.

Lemma join_members n l : Py.join "." (n :: l) +:+ "()" = n +:+ members l.
Proof.
  unfold Py.join. revert n. induction l as [|m l IH]; intros n;
    [reflexivity|].
  change (String.concat "." (n :: m :: l)) with (n +:+ "." +:+ String.concat "." (m :: l)).
  rewrite string_app_assoc. f_equal.
  change (("." +:+ String.concat "." (m :: l)) +:+ "()")
    with ("." +:+ (String.concat "." (m :: l) +:+ "()")).
  rewrite IH. reflexivity.
Qed.

Lemma stops_members l : stops (members l).
Proof. destruct l; reflexivity. Qed.

Lemma scan_from_name n : ∀ done rest cnt,
  wordy n → stops rest → Py.len n ≤ cnt →
  Py.scan_from Py.isword (done +:+ n +:+ rest) cnt (Py.len done)
  = Py.len done + Py.len n.
Proof.
  induction n as [|c n IH]; intros done rest cnt Hw Hs Hc.
  - change ("" +:+ rest) with rest. change (Py.len "") with 0.
    rewrite Nat.add_0_r.
    apply scan_from_fixed.
    pose proof (at_app_r done rest 0) as E. rewrite Nat.add_0_r in E.
    rewrite E. destruct rest as [|c r]; [exact I | exact Hs].
  - destruct cnt as [|cnt]; [simpl in Hc; lia|]. cbn [Py.scan_from].
    pose proof (at_app_r done (String c n +:+ rest) 0) as E.
    rewrite Nat.add_0_r in E. rewrite E.
    change (Py.at_ (String c n +:+ rest) 0) with (Some c). cbv beta iota.
    rewrite (Hw 0 c eq_refl).
    change (done +:+ String c n +:+ rest)
      with (done +:+ String c "" +:+ n +:+ rest).
    rewrite <- (string_app_assoc done (String c "") (n +:+ rest)).
    replace (S (Py.len done)) with (Py.len (done +:+ String c ""))
      by (rewrite len_app; simpl; lia).
    rewrite IH.
    + rewrite len_app. simpl. lia.
    + intros k c' H. exact (Hw (S k) c' H).
    + exact Hs.
    + simpl in Hc. lia.
Qed.

Lemma here_splits p done rest : splits p done rest → here p = Py.at_ rest 0.
Proof.
  intros [E P]. unfold here. rewrite E, P.
  pose proof (at_app_r done rest 0) as H. rewrite Nat.add_0_r in H. exact H.
Qed.

Lemma set_pos_set_pos i j p : set_pos j (set_pos i p) = set_pos j p.
Proof. reflexivity. Qed.

Lemma splits_advance p done a rest :
  splits p done (a +:+ rest) →
  splits (set_pos (pos p + Py.len a) p) (done +:+ a) rest.
Proof.
  intros [E P]. split; cbn [expression pos set_pos].
  - rewrite E. symmetry. apply string_app_assoc.
  - rewrite P, len_app. reflexivity.
Qed.

Lemma match_char ch p done rest :
  splits p done (String ch rest) → Py.isspace ch = false →
  _match ch p = Return true (set_pos (pos p + 1) p).
Proof.
  intros Hs Hc. pose proof (here_splits _ _ _ Hs) as Hh.
  change (Py.at_ (String ch rest) 0) with (Some ch) in Hh.
  unfold _match.
  eapply bind_step.
  { apply skip_whitespace_fixed. intros c Hc'. rewrite Hh in Hc'.
    injection Hc' as <-. exact Hc. }
  eapply bind_step; [reflexivity|]. cbv beta.
  unfold here in Hh. rewrite Hh, Ascii.eqb_refl. reflexivity.
Qed.

Lemma expect_char ch p done rest :
  splits p done (String ch rest) → Py.isspace ch = false →
  _expect ch p = Return tt (set_pos (pos p + 1) p).
Proof.
  intros Hs Hc. pose proof (here_splits _ _ _ Hs) as Hh.
  change (Py.at_ (String ch rest) 0) with (Some ch) in Hh.
  unfold _expect.
  eapply bind_step.
  { apply skip_whitespace_fixed. intros c Hc'. rewrite Hh in Hc'.
    injection Hc' as <-. exact Hc. }
  eapply bind_step; [reflexivity|]. cbv beta.
  unfold here in Hh. rewrite Hh, Ascii.eqb_refl. reflexivity.
Qed.

Lemma no_match_char ch c p done rest :
  splits p done (String c rest) → Py.isspace c = false → c ≠ ch →
  _match ch p = Return false p.
Proof.
  intros Hs Hc Hne. pose proof (here_splits _ _ _ Hs) as Hh.
  change (Py.at_ (String c rest) 0) with (Some c) in Hh.
  apply match_fixed.
  - intros c' Hc'. rewrite Hh in Hc'. injection Hc' as <-. exact Hc.
  - rewrite Hh. intros [= E]. exact (Hne E).
Qed.

Lemma identifier_head n :
  identifier n → ∃ c r, n = String c r ∧ Py.isword c = true.
Proof.
  intros [Hne Hw]. destruct n as [|c r]; [congruence|].
  exists c, r. split; [reflexivity|]. exact (Hw 0 c eq_refl).
Qed.

Lemma parse_identifier_name p done n rest :
  splits p done (n +:+ rest) → identifier n → stops rest →
  _parse_identifier p = Return n (set_pos (pos p + Py.len n) p).
Proof.
  intros Hs Hn Hr. pose proof (here_splits _ _ _ Hs) as Hh.
  destruct (identifier_head n Hn) as (c & r & -> & Hc).
  change (Py.at_ (String c r +:+ rest) 0) with (Some c) in Hh.
  destruct Hs as [E P], Hn as [_ Hw].
  unfold _parse_identifier.
  eapply bind_step.
  { apply skip_whitespace_fixed. intros c' Hc'. rewrite Hh in Hc'.
    injection Hc' as <-. apply isword_not_space, Hc. }
  eapply bind_step; [reflexivity|]. cbv beta.
  unfold here in Hh. rewrite Hh, Hc.
  assert (Es : Py.scan Py.isword (expression p) (pos p)
               = pos p + Py.len (String c r)).
  { unfold Py.scan. rewrite E, P. apply scan_from_name; [exact Hw|exact Hr|].
    rewrite !len_app. lia. }
  rewrite Es.
  assert (El : Py.slice (expression p) (pos p) (pos p + Py.len (String c r))
               = String c r).
  { rewrite E, P. apply slice_app. }
  rewrite El. reflexivity.
Qed.

Lemma parse_function_arguments_S f :
  _parse_function_arguments (S f) =
  bind _skip_whitespace (fun _ =>
  bind get (fun s =>
    match Py.at_ (expression s) (pos s) with
    | Some c =>
        if negb (Ascii.eqb c ")")
        then bind (_parse_expression f) (fun _ =>
             while f (_match ",") (_parse_expression f))
        else ret tt
    | None => ret tt
    end)).
Proof. reflexivity. Qed.

Lemma no_function_arguments f p done rest :
  splits p done (String ")" rest) →
  _parse_function_arguments (S f) p = Return tt p.
Proof.
  intros Hs. pose proof (here_splits _ _ _ Hs) as Hh.
  change (Py.at_ (String ")" rest) 0) with (Some ")"%char) in Hh.
  rewrite parse_function_arguments_S.
  eapply bind_step.
  { apply skip_whitespace_fixed. intros c Hc'. rewrite Hh in Hc'.
    injection Hc' as <-. reflexivity. }
  eapply bind_step; [reflexivity|]. cbv beta.
  unfold here in Hh. rewrite Hh. reflexivity.
Qed.

Lemma check_list_function_call_returns element_path func_name p :
  ∃ p', _check_list_function_call element_path func_name p = Return tt p'
        ∧ expression p' = expression p ∧ pos p' = pos p.
Proof.
  unfold _check_list_function_call, bind, get.
  destruct (bool_decide _).
  - eexists. split; [reflexivity|]. split; reflexivity.
  - destruct (List.find _ _).
    + eexists. split; [reflexivity|]. split; reflexivity.
    + eexists. split; [reflexivity|]. split; reflexivity.
Qed.

Lemma check_call_returns chain p :
  ∃ p', check_call chain p = Return tt p'
        ∧ expression p' = expression p ∧ pos p' = pos p.
Proof.
  unfold check_call.
  destruct (call_receiver chain) as [element_path|];
    [destruct (last chain) as [func_name|]|];
    try (exists p; split; [reflexivity|]; split; reflexivity).
  apply check_list_function_call_returns.
Qed.

Lemma at_rest_end p : pos p = Py.len (expression p) → at_rest p.
Proof.
  intros H c Hc. unfold here in Hc. rewrite at_ge_None in Hc by lia.
  discriminate Hc.
Qed.

(** When a call completes, the rule is applied to the chain the loop
    holds, in the state after the closing parenthesis, and the loop goes
    on with an empty chain. *)
Lemma postfix_loop_call f chain p p1 p2 p3 :
  _match "(" p = Return true p1 →
  _parse_function_arguments f p1 = Return tt p2 →
  _expect ")" p2 = Return tt p3 →
  postfix_loop (S f) chain p
  = bind (check_call chain) (fun _ => postfix_loop f []) p3.
Proof.
  intros H1 H2 H3. rewrite postfix_loop_S.
  eapply bind_step; [exact H1|]. cbv beta iota.
  eapply bind_step; [exact H2|].
  eapply bind_step; [exact H3|]. reflexivity.
Qed.

(** The loop over the member accesses [.n] for the names [n] of [l] and
    the call [()] that follows them: each name is appended to the chain,
    and the rule is applied to the chain so built. *)
Lemma postfix_loop_members l : ∀ f chain p done,
  splits p done (members l) → Forall identifier l →
  ∃ p',
    check_call (chain ++ l) (set_pos (Py.len (expression p)) p) = Return tt p'
    ∧ postfix_loop (S (S (length l + f))) chain p = Return [] p'.
Proof.
  induction l as [|n l IH]; intros f chain p done Hs Hl.
  - cbn [members length Nat.add] in *. rewrite app_nil_r.
    pose proof (match_char "(" p done ")" Hs eq_refl) as H1.
    pose proof (splits_advance p done "(" ")" Hs) as Hs1.
    change (Py.len "(") with 1 in Hs1.
    pose proof (no_function_arguments f _ _ _ Hs1) as H2.
    pose proof (expect_char ")" _ _ "" Hs1 eq_refl) as H3.
    rewrite set_pos_set_pos in H3. cbn [pos set_pos] in H3.
    assert (Ep : pos p + 1 + 1 = Py.len (expression p)).
    { destruct Hs as [E P]. rewrite E, P, len_app. simpl. lia. }
    rewrite Ep in H3.
    destruct (check_call_returns chain (set_pos (Py.len (expression p)) p))
      as (p' & Ec & Ee & Epos).
    exists p'. split; [exact Ec|].
    rewrite (postfix_loop_call _ _ _ _ _ _ H1 H2 H3).
    eapply bind_step; [exact Ec|].
    apply postfix_loop_at_rest, at_rest_end. rewrite Epos, Ee. reflexivity.
  - cbn [members length Nat.add] in *.
    apply Forall_cons in Hl as [Hn Hl].
    assert (Hdot : splits p done (String "." (n +:+ members l))) by exact Hs.
    pose proof (splits_advance p done "." (n +:+ members l) Hs) as Hs1.
    change (Py.len ".") with 1 in Hs1.
    pose proof (splits_advance _ _ n (members l) Hs1) as Hs2.
    rewrite set_pos_set_pos in Hs2. cbn [pos set_pos] in Hs2.
    destruct (IH f (chain ++ [n]) _ _ Hs2 Hl) as (p' & Ec & El).
    cbn [expression set_pos] in Ec. rewrite set_pos_set_pos in Ec.
    rewrite <- app_assoc in Ec. cbn [app] in Ec.
    exists p'. split; [exact Ec|].
    rewrite postfix_loop_S.
    eapply bind_step;
      [apply (no_match_char "(" "." p done _ Hdot eq_refl); discriminate|].
    cbv beta iota.
    eapply bind_step;
      [apply (no_match_char "[" "." p done _ Hdot eq_refl); discriminate|].
    cbv beta iota.
    eapply bind_step; [apply (match_char "." p done _ Hdot eq_refl)|].
    cbv beta iota.
    eapply bind_step.
    { apply (parse_identifier_name _ _ n (members l) Hs1 Hn).
      apply stops_members. }
    rewrite set_pos_set_pos. cbn [pos set_pos].
    rewrite (truthy_nonempty n (proj1 Hn)). exact El.
Qed.

(** A primary expression that is a name. *)
Lemma primary_name f p n rest :
  splits p "" (n +:+ rest) → identifier n → stops rest →
  (∀ c, Py.at_ n 0 = Some c → Py.isdigit c = false) →
  _parse_primary_expression (S f) p
  = Return (Some n) (set_pos (pos p + Py.len n) p).
Proof.
  intros Hs Hn Hr Hd. pose proof (here_splits _ _ _ Hs) as Hh.
  destruct (identifier_head n Hn) as (c & r & -> & Hc).
  change (Py.at_ (String c r +:+ rest) 0) with (Some c) in Hh.
  rewrite parse_primary_expression_S.
  eapply bind_step.
  { apply skip_whitespace_fixed. intros c' Hc'. rewrite Hh in Hc'.
    injection Hc' as <-. apply isword_not_space, Hc. }
  eapply bind_step; [reflexivity|]. cbv beta.
  unfold here in Hh. rewrite Hh.
  assert (Hq : Ascii.eqb c Py.dquote = false).
  { apply Ascii.eqb_neq. intros ->. discriminate Hc. }
  assert (Hp : Ascii.eqb c "(" = false).
  { apply Ascii.eqb_neq. intros ->. discriminate Hc. }
  rewrite Hq, (Hd c eq_refl), Hp.
  eapply bind_step; [apply (parse_identifier_name p "" _ rest Hs Hn Hr)|].
  reflexivity.
Qed.

Lemma length_members l : length l ≤ Py.len (members l).
Proof.
  induction l as [|n l IH]; [simpl; lia|]. cbn [members length].
  rewrite !len_app. change (Py.len ".") with 1. lia.
Qed.

(** A dotted chain of names followed by [()]: the names are collected
    into the chain, the call name included, and the rule is applied to
    that chain once the closing parenthesis is consumed. *)
Lemma parse_expression_names n l p :
  splits p "" (n +:+ members l) →
  identifier n → (∀ c, Py.at_ n 0 = Some c → Py.isdigit c = false) →
  Forall identifier l →
  ∃ p',
    check_call (n :: l) (set_pos (Py.len (expression p)) p) = Return tt p'
    ∧ _parse_expression (budget (expression p)) p = Return tt p'.
Proof.
  intros Hs Hn Hd Hl. pose proof (here_splits _ _ _ Hs) as Hh.
  destruct (identifier_head n Hn) as (c & r & En & Hc).
  assert (Hlen : length l ≤ Py.len (expression p)).
  { destruct Hs as [E _]. rewrite E. change ("" +:+ n +:+ members l)
      with (n +:+ members l). rewrite len_app. pose proof (length_members l). lia. }
  set (f := 20 * Py.len (expression p) + 10 - length l).
  assert (Eb : budget (expression p)
               = S (S (S (S (S (S (S (S (S (S (length l + f))))))))))).
  { unfold budget. subst f. lia. }
  rewrite Eb.
  pose proof (primary_name (S (length l + f)) p n (members l) Hs Hn
                (stops_members l) Hd) as Hp.
  pose proof (splits_advance p "" n (members l) Hs) as Hs1.
  change ("" +:+ n) with n in Hs1.
  destruct (postfix_loop_members l f [n] _ _ Hs1 Hl) as (p' & Ec & El).
  cbn [expression set_pos app] in Ec. rewrite set_pos_set_pos in Ec.
  exists p'. split; [exact Ec|].
  destruct (check_call_returns (n :: l) (set_pos (Py.len (expression p)) p))
    as (p'' & Ec' & Ee & Epos).
  rewrite Ec in Ec'. injection Ec' as <-.
  apply levels_at_rest.
  { apply at_rest_end. rewrite Epos, Ee. reflexivity. }
  rewrite parse_unary_expression_S.
  eapply bind_step.
  { apply match_operator_fixed.
    - intros c' Hc'. rewrite Hh, En in Hc'. injection Hc' as <-.
      apply isword_not_space, Hc.
    - rewrite Hh, En. intros [= ->]. discriminate Hc. }
  cbv beta iota.
  eapply bind_step; [|reflexivity].
  rewrite parse_postfix_expression_S.
  eapply bind_step; [exact Hp|]. cbv beta iota.
  rewrite (truthy_nonempty n (proj1 Hn)). exact El.
Qed.

Lemma rstrip_app a b : b ≠ "" → Py.rstrip b = b → Py.rstrip (a +:+ b) = a +:+ b.
Proof.
  intros Hb Eb. induction a as [|x a IH]; [exact Eb|].
  rewrite app_cons. cbn [Py.rstrip]. rewrite IH.
  destruct (a +:+ b) eqn:E; [|reflexivity].
  destruct a as [|y a];
    [change ("" +:+ b) with b in E; congruence
    |rewrite app_cons in E; discriminate E].
Qed.

Lemma members_nonempty l : members l ≠ "".
Proof. destruct l; discriminate. Qed.

Lemma rstrip_members l : Py.rstrip (members l) = members l.
Proof.
  induction l as [|n l IH]; [reflexivity|]. cbn [members].
  rewrite <- string_app_assoc.
  apply rstrip_app; [apply members_nonempty | exact IH].
Qed.

Lemma strip_names n l :
  identifier n → Py.strip (n +:+ members l) = n +:+ members l.
Proof.
  intros Hn. destruct (identifier_head n Hn) as (c & r & -> & Hc).
  unfold Py.strip. rewrite app_cons. cbn [Py.lstrip].
  rewrite (isword_not_space c Hc).
  change (String c (r +:+ members l)) with (String c r +:+ members l).
  apply rstrip_app; [apply members_nonempty | apply rstrip_members].
Qed.

(** C3, as the spec states it, fails: the expression
    [items.selectedValue()] is a call whose chain without the call's own
    name has one segment only, yet the parser applies the rule and records
    a finding. *)
Lemma rule_applied_to_one_segment_receiver :
  ¬ ∀ names func_name le lv is_valid error_msg p',
      last names = Some func_name →
      func_name ∈ SINGLE_ELEMENT_FUNCTIONS →
      parse (__init__ (Py.join "." names +:+ "()") le lv)
      = Some (is_valid, error_msg, p') →
      get_errors p' ≠ [] →
      1 < length (removelast names).
Proof.
  intros H.
  assert (Hin : "items" ∈ ({["items"]} : gset string)).
  { apply elem_of_singleton. reflexivity. }
  pose proof (H ["items"; "selectedValue"] "selectedValue" {["items"]} ∅
                _ _ _ eq_refl
                ltac:(apply (bool_decide_unpack _); vm_compute; exact I)
                (parse_items_selectedValue _ _ Hin)) as H'.
  cbn [get_errors errors removelast length] in H'.
  specialize (H' ltac:(discriminate)). lia.
Qed.

(** C3, amended.  For an expression that is a dotted chain of names
    followed by [()], postfix parsing collects the names into the element
    chain, the called name last, and when the call completes it applies
    [check_call] to that chain in the state after the closing parenthesis;
    the parser object that [parse] leaves is the one this check returns.
    Whatever the arguments of a call are, once its closing parenthesis is
    consumed the check is applied to the chain that the loop holds, and
    the loop goes on with an empty chain.  The check itself: if the called
    name is in the single-element function set, the list-misuse rule is
    applied if and only if the chain without the call's own name has at
    least one segment, and the receiver path it checks is then the dotted
    join of the chain without the trailing call name. *)
Theorem call_receiver_of_chain (first : string) (rest : list string)
    (le lv : gset string) :
  identifier first →
  (∀ c, Py.at_ first 0 = Some c → Py.isdigit c = false) →
  Forall identifier rest →
  (∃ is_valid error_msg p',
     parse (__init__ (Py.join "." (first :: rest) +:+ "()") le lv)
     = Some (is_valid, error_msg, p')
     ∧ check_call (first :: rest)
         (set_pos (Py.len (Py.join "." (first :: rest) +:+ "()"))
            (__init__ (Py.join "." (first :: rest) +:+ "()") le lv))
       = Return tt p')
  ∧ (∀ f chain p p1 p2 p3,
       _match "(" p = Return true p1 →
       _parse_function_arguments f p1 = Return tt p2 →
       _expect ")" p2 = Return tt p3 →
       postfix_loop (S f) chain p
       = bind (check_call chain) (fun _ => postfix_loop f []) p3)
  ∧ (∀ chain func_name,
       last chain = Some func_name →
       func_name ∈ SINGLE_ELEMENT_FUNCTIONS →
       (is_Some (call_receiver chain) ↔ 0 < length (removelast chain))
       ∧ (0 < length (removelast chain) →
          call_receiver chain = Some (Py.join "." (removelast chain))
          ∧ check_call chain =
            _check_list_function_call (Py.join "." (removelast chain))
              func_name)
       ∧ (length (removelast chain) = 0 → check_call chain = ret tt)).
Proof.
  intros Hn Hd Hl. split; [|split].
  - rewrite join_members.
    set (p := __init__ (first +:+ members rest) le lv).
    assert (Ee : expression p = first +:+ members rest).
    { subst p. cbn [expression __init__]. apply strip_names, Hn. }
    assert (Hs : splits p "" (first +:+ members rest)).
    { split; [exact Ee | reflexivity]. }
    destruct (parse_expression_names first rest p Hs Hn Hd Hl)
      as (p' & Ec & Ep).
    rewrite Ee in Ec.
    assert (Hne : expression p ≠ "").
    { rewrite Ee. destruct (identifier_head first Hn) as (c & r & -> & _).
      discriminate. }
    unfold parse. rewrite (truthy_nonempty _ Hne). cbn [negb]. rewrite Ep.
    destruct (errors p'); eexists _, _, p'; (split; [reflexivity | exact Ec]).
  - exact postfix_loop_call.
  - intros chain func_name Hlast Hf. rewrite length_removelast.
    assert (E : call_receiver chain =
                if 1 <? length chain
                then Some (Py.join "." (removelast chain)) else None).
    { unfold call_receiver. rewrite Hlast.
      rewrite (single_element_function_truthy _ Hf).
      rewrite bool_decide_eq_true_2 by exact Hf. reflexivity. }
    unfold check_call. rewrite E, Hlast.
    destruct (1 <? length chain) eqn:Hc.
    + apply Nat.ltb_lt in Hc. split; [|split].
      * split; [lia | intros _; eexists; reflexivity].
      * intros _. split; reflexivity.
      * lia.
    + apply Nat.ltb_ge in Hc. split; [|split].
      * split; [intros [x Hx]; discriminate Hx | lia].
      * lia.
      * reflexivity.
Qed.

Lemma call_receiver_of_chain_witness :
  ∃ is_valid error_msg p',
    parse (__init__ "order.items.selectedValue()" {["order.items"]} ∅)
    = Some (is_valid, error_msg, p')
    ∧ check_call ["order"; "items"; "selectedValue"]
        (set_pos 27 (__init__ "order.items.selectedValue()"
                       {["order.items"]} ∅))
      = Return tt p'
    ∧ call_receiver ["order"; "items"; "selectedValue"] = Some "order.items"
    ∧ get_errors p'
      = [(27, on_list_message "selectedValue" "order.items")].
Proof.
  assert (W : ∀ n : string,
            n ≠ "" →
            forallb Py.isword (list_ascii_of_string n) = true →
            identifier n).
  { intros n H1 H2. split; [exact H1|].
    unfold wordy, Py.at_. clear H1.
    induction n as [|x n IH]; intros k c Hk; [destruct k; discriminate Hk|].
    cbn [list_ascii_of_string forallb] in H2.
    apply andb_true_iff in H2 as [Hx Hn].
    destruct k as [|k]; [injection Hk as <-; exact Hx|].
    exact (IH Hn k c Hk). }
  destruct (call_receiver_of_chain "order" ["items"; "selectedValue"]
              {["order.items"]} ∅) as (H1 & _ & H3).
  - apply W; [discriminate | reflexivity].
  - intros c [= <-]. reflexivity.
  - repeat constructor; (apply W; [discriminate | reflexivity]).
  - destruct H1 as (is_valid & error_msg & p' & Ep & Ec).
    exists is_valid, error_msg, p'. split; [exact Ep|]. split; [exact Ec|].
    split.
    + destruct (H3 ["order"; "items"; "selectedValue"] "selectedValue"
                  eq_refl) as (_ & H & _).
      * apply (bool_decide_unpack _). vm_compute. exact I.
      * apply H. simpl. lia.
    + vm_compute in Ec. injection Ec as <-. reflexivity.
Defined.

End Chains.
